(** * jak: request orchestration core, shallow embedding

    The Go packages [rule], [chain] and [engine] of ymatsukawa/jak as Rocq
    functions over stdpp finite maps: configuration validation, the
    variable resolver, the variable extractor, the dependency resolver, the
    chain executor and the batch executors. The definitions come first, the
    theorems about them second.

    Conventions
    - a Go [error] result is an [option error], [None] being [nil]; a pair
      of a pointer and an error of which exactly one is non-nil is a sum;
    - a Go [map[string]T] is a [gmap string T], a [map[string]bool] that
      only ever holds [true] is a [gset string]; where the source ranges
      over a map, the order in which the runtime yields the entries is an
      explicit argument ([names], [pairs]), which the theorems let range
      over all enumerations of the map;
    - a string pointer is an [option string], [None] being nil;
    - a context is its [Err()] as a function of the moment, given by the
      transport calls finished so far and the selects made since (see
      [Ctx]); a function that selects once takes the answer of that
      moment, [ctxErr];
    - recursion that the source bounds by a depth or by marking names takes
      fuel in a [_fuel] function; the function of the source's name
      supplies enough of it, and an [_unfold] lemma states the source's
      recursive equation for it. *)

From Stdlib Require Import ZArith Lia Ascii String.
From stdpp Require Import base tactics option list strings pretty gmap fin_maps.

Set Warnings "-clear-no-such-hyp".


(** ** Errors *)

(** The sentinel error values ([errors.New] package variables) of package
    chain, which the dependency resolver and the extractor reach through
    the package alias [se], and of package [context]. *)
Inductive sentinel : Set :=
| ErrUnknownDependency
| ErrCyclicDependency
| ErrRequestExecution
| ErrCreateRequest
| ErrVariableExtraction
| ErrEmptyVariableName
| ErrMaxRecursionDepth
| ErrNilResponse
| ErrReadResponseBody
| ErrPathNotFound
| ErrResponseTooLarge
| context_Canceled
| context_DeadlineExceeded.

(** An error value: a sentinel, an error made by a collaborator (client or
    factory), the result of [fmt.Errorf] without a [%w] verb, or the result
    of [fmt.Errorf("<msg>: %w", ..., wrapped)]. *)
Inductive error : Set :=
| Sentinel (s : sentinel)
| External (msg : string)
| Errorf (msg : string)
| Errorf_w (msg : string) (wrapped : error).

#[global] Instance sentinel_eq_dec : EqDecision sentinel.
Proof. solve_decision. Defined.

(** [errors.Is err target] for a sentinel target. *)
Fixpoint errors_Is (err : error) (target : sentinel) : bool :=
  match err with
  | Sentinel s => bool_decide (s = target)
  | External _ => false
  | Errorf _ => false
  | Errorf_w _ inner => errors_Is inner target
  end.

(** [errors.WrapError(err, format)] of package [errors]: nil stays nil. *)
Definition WrapError (err : option error) (format : string) : option error :=
  match err with
  | None => None
  | Some e => Some (Errorf_w format e)
  end.

(** ** Package rule: configuration and its validation *)

Record Request := mkRequest {
  Name : string;
  Method : string;
  Path : string;
  Headers : list string;
  RawBody : option string;
  FormBody : option string;
  JsonBody : option string;
  Extract : gmap string string;
  DependsOn : string
}.

Record Config := mkConfig {
  BaseUrl : string;
  Timeout : Z;
  Concurrency : bool;
  IgnoreFail : bool;
  Requests : list Request
}.

(** [map[string]bool] read with the zero value for a missing key. *)
Definition getb (m : gmap string bool) (k : string) : bool :=
  default false (m !! k).

(** [s != nil && *s != ""], the test the source writes out for each body
    variant (and names [isNonEmptyStringPtr] in package chain). *)
Definition isNonEmptyStringPtr (s : option string) : bool :=
  match s with
  | None => false
  | Some v => negb (bool_decide (v = ""))
  end.

Module rule.

Definition validateBaseConfig (c : Config) : option error :=
  if bool_decide (BaseUrl c = "") then
    Some (Errorf "base_url is required in config")
  else if bool_decide (length (Requests c) = 0) then
    Some (Errorf "at least one request must be defined")
  else None.

Definition validateRequestName (name : string) (index : nat)
    (nameSet : gmap string bool) : option error * gmap string bool :=
  if bool_decide (name = "") then
    (Some (Errorf ("request at index " +:+ pretty index +:+ " has no name")), nameSet)
  else if getb nameSet name then
    (Some (Errorf ("duplicate request name: " +:+ name)), nameSet)
  else (None, <[name := true]> nameSet).

Definition validateRequestBasics (req : Request) : option error :=
  if bool_decide (Method req = "") then
    Some (Errorf ("method is required for request '" +:+ Name req +:+ "'"))
  else if bool_decide (Path req = "") then
    Some (Errorf ("path is required for request '" +:+ Name req +:+ "'"))
  else None.

Definition validateRequestBody (req : Request) : option error :=
  let bodyCount := 0 in
  let bodyCount := if isNonEmptyStringPtr (JsonBody req) then S bodyCount else bodyCount in
  let bodyCount := if isNonEmptyStringPtr (FormBody req) then S bodyCount else bodyCount in
  let bodyCount := if isNonEmptyStringPtr (RawBody req) then S bodyCount else bodyCount in
  if (1 <? bodyCount)%nat then
    Some (Errorf ("multiple body types specified for request '" +:+ Name req +:+ "'"))
  else None.

Definition validateRequest (req : Request) (index : nat)
    (nameSet : gmap string bool) : option error * gmap string bool :=
  match validateRequestName (Name req) index nameSet with
  | (Some err, nameSet') => (Some err, nameSet')
  | (None, nameSet') =>
      match validateRequestBasics req with
      | Some err => (Some err, nameSet')
      | None => (validateRequestBody req, nameSet')
      end
  end.

(** The loop of [validateRequests], from position [i] with the name set
    built so far. *)
Fixpoint validateRequests_loop (reqs : list Request) (i : nat)
    (nameSet : gmap string bool) : option error :=
  match reqs with
  | [] => None
  | req :: rest =>
      match validateRequest req i nameSet with
      | (Some err, _) => Some err
      | (None, nameSet') => validateRequests_loop rest (S i) nameSet'
      end
  end.

Definition validateRequests (c : Config) : option error :=
  validateRequests_loop (Requests c) 0 ∅.

Definition Validate (c : Config) : option error :=
  match validateBaseConfig c with
  | Some err => Some err
  | None => validateRequests c
  end.

End rule.

(** A request with a JSON body and a form body. *)
Definition bothBodies : Request :=
  mkRequest "login" "POST" "/login" [] None (Some "user=a") (Some "{}") ∅ "".

(** ** Package chain: the variable resolver *)

(** Go strings are byte strings: [string] with one [ascii] per byte, [len]
    is [String.length], [s[i:j]] is [substring i (j - i) s]. *)

Module regexp.

(** The compiled pattern of [NewVariableResolver] is the constant
    [\${([^}]+)}]: the two bytes [${], one or more bytes other than [}],
    then [}].  [[^}]] excludes an ASCII byte only, so matching by bytes and
    matching by UTF-8 runes agree. *)

(** [cutBrace s]: the bytes of [s] before its first [}], and what follows
    that brace. *)
Fixpoint cutBrace (s : string) : option (string * string) :=
  match s with
  | "" => None
  | String c rest =>
      if bool_decide (c = "}"%char) then Some ("", rest)
      else match cutBrace rest with
           | Some (name, after) => Some (String c name, after)
           | None => None
           end
  end.

(** A match of the pattern anchored at the start of [s]: the matched text and
    the rest of [s]. The greedy [[^}]+] runs to the first [}]; it must
    consume at least one byte. *)
Definition matchHere (s : string) : option (string * string) :=
  match s with
  | String c1 (String c2 rest) =>
      if bool_decide (c1 = "$"%char) && bool_decide (c2 = "{"%char) then
        match cutBrace rest with
        | Some (String c name, after) => Some ("${" +:+ String c name +:+ "}", after)
        | _ => None
        end
      else None
  | _ => None
  end.

(** [ReplaceAllStringFunc]: leftmost matches, not overlapping, each replaced
    by [repl] of the matched text; [fuel] bounds the number of scan steps. *)
Fixpoint replaceFrom (fuel : nat) (src : string) (repl : string → string) : string :=
  match fuel with
  | 0 => src
  | S fuel' =>
      match matchHere src with
      | Some (m, after) => repl m +:+ replaceFrom fuel' after repl
      | None =>
          match src with
          | "" => ""
          | String c rest => String c (replaceFrom fuel' rest repl)
          end
      end
  end.

Definition ReplaceAllStringFunc (src : string) (repl : string → string) : string :=
  replaceFrom (String.length src) src repl.

(** [FindAllString(src, -1)]: the matched texts, left to right. *)
Fixpoint findFrom (fuel : nat) (src : string) : list string :=
  match fuel with
  | 0 => []
  | S fuel' =>
      match matchHere src with
      | Some (m, after) => m :: findFrom fuel' after
      | None =>
          match src with
          | "" => []
          | String _ rest => findFrom fuel' rest
          end
      end
  end.

Definition FindAllString (src : string) : list string :=
  findFrom (String.length src) src.

End regexp.

Definition maxVariableRecursionDepth : nat := 5.
Definition maxVariableValueLength : nat := 1000.
Definition maxBodySizeMultiplier : nat := 10.

(** The variable store; the [variablePattern] field is the constant pattern
    of module [regexp]. *)
Record DefaultVariableResolver := mkResolver {
  values : gmap string string
}.

Definition NewVariableResolver : DefaultVariableResolver := mkResolver ∅.

Module resolver.

Definition Set_ (r : DefaultVariableResolver) (name value : string)
    : option error * DefaultVariableResolver :=
  if bool_decide (name = "") then (Some (Sentinel ErrEmptyVariableName), r)
  else (None, mkResolver (<[name := value]> (values r))).

Definition Get (r : DefaultVariableResolver) (name : string) : string * bool :=
  match values r !! name with
  | Some value => (value, true)
  | None => ("", false)
  end.

Definition truncateValue (value : string) (maxLength : nat) : string :=
  if (String.length value <=? maxLength)%nat then value
  else substring 0 maxLength value.

Definition truncateIfNeeded (value : string) : string :=
  if (maxVariableValueLength <? String.length value)%nat then
    truncateValue value maxVariableValueLength
  else value.

(** [match[2 : len(match)-1]] *)
Definition extractVariableName (match_ : string) : string :=
  if (String.length match_ <? 4)%nat then ""
  else substring 2 (String.length match_ - 1 - 2) match_.

(** [resolveRecursively] and [resolveVariable] call each other, the depth
    growing by one per round and the recursion stopping at
    [maxVariableRecursionDepth]. [resolveBelow r k] is [resolveRecursively]
    at depth [maxVariableRecursionDepth - k], by recursion on the number [k]
    of levels left; its replacement function is the body of
    [resolveVariable]. [resolveRecursively_unfold] below is the source's
    equation of [resolveRecursively] in terms of [resolveVariable]. *)
Fixpoint resolveBelow (r : DefaultVariableResolver) (k : nat) (input : string)
    : string * option error :=
  match k with
  | 0 => (input, Some (Sentinel ErrMaxRecursionDepth))
  | S k' =>
      (regexp.ReplaceAllStringFunc input (λ match_,
         let varName := extractVariableName match_ in
         match values r !! varName with
         | None => match_
         | Some value =>
             let value := truncateIfNeeded value in
             match resolveBelow r k' value with
             | (_, Some _) => match_
             | (resolved, None) => resolved
             end
         end),
       None)
  end.

Definition resolveRecursively (r : DefaultVariableResolver) (input : string)
    (depth : nat) : string * option error :=
  resolveBelow r (maxVariableRecursionDepth - depth) input.

Definition resolveVariable (r : DefaultVariableResolver) (match_ : string)
    (depth : nat) : string :=
  let varName := extractVariableName match_ in
  match values r !! varName with
  | None => match_
  | Some value =>
      let value := truncateIfNeeded value in
      match resolveRecursively r value (depth + 1) with
      | (_, Some _) => match_
      | (resolved, None) => resolved
      end
  end.

Definition Resolve (r : DefaultVariableResolver) (input : string) : string :=
  if bool_decide (input = "") then input
  else match resolveRecursively r input 0 with
       | (_, Some _) => input
       | (resolved, None) => resolved
       end.

Definition ResolveHeaders (r : DefaultVariableResolver) (headers : list string)
    : list string :=
  if bool_decide (length headers = 0) then headers
  else map (Resolve r) headers.

Definition ResolveBody (r : DefaultVariableResolver) (body : option string)
    : option string :=
  match body with
  | None => None
  | Some b =>
      if bool_decide (b = "") then body
      else
        let resolved := Resolve r b in
        let maxBodySize := maxVariableValueLength * maxBodySizeMultiplier in
        if (maxBodySize <? String.length resolved)%nat then
          Some (substring 0 maxBodySize resolved)
        else Some resolved
  end.

(** Whether resolving [input] with [k] levels left reaches the depth limit:
    some call of [resolveRecursively] made on the way has
    [depth >= maxVariableRecursionDepth] and returns
    [ErrMaxRecursionDepth]. *)
Fixpoint limitReachedBelow (r : DefaultVariableResolver) (k : nat)
    (input : string) : bool :=
  match k with
  | 0 => true
  | S k' =>
      existsb (λ match_,
        match values r !! extractVariableName match_ with
        | None => false
        | Some value => limitReachedBelow r k' (truncateIfNeeded value)
        end) (regexp.FindAllString input)
  end.

(** The recursion of [Resolve r input] exceeds the maximum depth. *)
Definition depthExceeded (r : DefaultVariableResolver) (input : string) : bool :=
  negb (bool_decide (input = "")) &&
  limitReachedBelow r maxVariableRecursionDepth input.

End resolver.

(** A store whose values refer to one another six levels deep. *)
Definition deepStore : DefaultVariableResolver :=
  mkResolver (list_to_map
    [("a", "A${b}"); ("b", "B${c}"); ("c", "C${d}");
     ("d", "D${e}"); ("e", "E${f}"); ("f", "F")]).

(** The input has a substring that the pattern matches: [${name}] with a
    non-empty [name] free of [}]. *)
Definition containsVariableRef (input : string) : Prop :=
  ∃ pre name post,
    name ≠ "" ∧ ("}"%char ∉ list_ascii_of_string name) ∧
    input = pre +:+ "${" +:+ name +:+ "}" +:+ post.

(** [strings.Repeat] *)
Fixpoint strings_Repeat (s : string) (count : nat) : string :=
  match count with
  | 0 => ""
  | S n => s +:+ strings_Repeat s n
  end.

(** ** Package http: responses *)

(** A response body as a reader: it yields [data] and then EOF, or fails
    while being read. *)
Inductive ReadCloser :=
| BodyBytes (data : string)
| BodyBroken.

Record Response := mkResponse {
  StatusCode : Z;
  Body : option ReadCloser
}.

(** ** Package chain: the variable extractor *)

Definition maxResponseBodySize : Z := 10 * 1024 * 1024.

(** The [JSONExtractor] interface: [Extract json path] gives the value at
    [path] and whether the path exists. The repository's implementation
    delegates to the gjson library. *)
Record JSONExtractor := mkJSONExtractor {
  Extract_ : string → string → string * bool
}.

Module extractor.

(** [readResponseBody]: the body, read through a reader limited to
    [maxResponseBodySize] bytes; a byte left over behind the limit is an
    error. A nil byte slice converts to the empty string. On success the source also puts a fresh reader over the same
    bytes back into the response. *)
Definition readResponseBody (resp : option Response) : string * option error :=
  match resp with
  | None => ("", Some (Sentinel ErrNilResponse))
  | Some resp =>
      match Body resp with
      | None => ("", Some (Sentinel ErrNilResponse))
      | Some BodyBroken =>
          ("", Some (Errorf_w "failed to read response body" (Sentinel ErrReadResponseBody)))
      | Some (BodyBytes data) =>
          if (maxResponseBodySize <? Z.of_nat (String.length data))%Z then
            ("", Some (Sentinel ErrResponseTooLarge))
          else (data, None)
      end
  end.

(** The loop of [ExtractVariables] over the pairs that [range extractions]
    yields, in the order it yields them. [ctxErr] is [ctx.Err()] at the
    time of the call ([None] while the context is live); no time passes
    inside the call. *)
Fixpoint extractLoop (ve : JSONExtractor) (ctxErr : option error) (jsonString : string)
    (pairs : list (string * string)) (variables : gmap string string)
    : option (gmap string string) * option error :=
  match pairs with
  | [] => (Some variables, None)
  | (variableName, jsonPath) :: rest =>
      match ctxErr with
      | Some err => (None, Some err)
      | None =>
          let '(value, exists_) := Extract_ ve jsonString jsonPath in
          if negb exists_ then
            (None, Some (Errorf_w
               ("path '" +:+ jsonPath +:+ "' not found for variable '" +:+ variableName +:+ "'")
               (Sentinel ErrPathNotFound)))
          else extractLoop ve ctxErr jsonString rest (<[variableName := value]> variables)
      end
  end.

(** [ExtractVariables ve ctxErr resp pairs]: [pairs] are the entries of the
    [extractions] map in the order in which [range] yields them. *)
Definition ExtractVariables (ve : JSONExtractor) (ctxErr : option error)
    (resp : option Response) (pairs : list (string * string))
    : option (gmap string string) * option error :=
  match ctxErr with
  | Some err => (None, Some err)
  | None =>
      match resp with
      | None => (None, Some (Sentinel ErrNilResponse))
      | Some _ =>
          match readResponseBody resp with
          | (_, Some err) => (None, Some (Errorf_w "failed to read response body" err))
          | (body, None) => extractLoop ve ctxErr body pairs ∅
          end
      end
  end.

End extractor.

(** [range m] yields every entry of the map once, in an order the runtime
    chooses: [pairs] is such an enumeration of [m]. *)
Definition rangeOf {V} (m : gmap string V) (pairs : list (string * V)) : Prop :=
  pairs ≡ₚ map_to_list m.

(** The map that the loop of [ExtractVariables] has built after [pairs],
    starting from [variables], when every path exists. *)
Definition extracted (ve : JSONExtractor) (jsonString : string)
    (pairs : list (string * string)) (variables : gmap string string)
    : gmap string string :=
  foldl (λ acc p, <[p.1 := (Extract_ ve jsonString p.2).1]> acc) variables pairs.

(** A stand-in for the JSON library: the document ["{name:test,age:30}"]
    has the paths [name] and [age]. *)
Definition tableExtractor : JSONExtractor :=
  mkJSONExtractor (λ json path,
    if bool_decide (path = "name") then ("test", true)
    else if bool_decide (path = "age") then ("30", true)
    else ("", false)).

(** ** Package chain: the dependency resolver *)

Record DependencyResolver := mkDependencyResolver {
  requests : gmap string Request;
  dependencies : gmap string (list string);
  dependsOn : gmap string string
}.

(** The two [map[string]bool] of [CalculateExecutionOrder], which hold
    [true] or nothing and are sets, and the result slice. *)
Record visitState := mkVisitState {
  visited : gset string;
  visiting : gset string;
  result : list string
}.

(** [range m] over the keys of a map: [names] enumerates them once each. *)
Definition rangeKeys {V} (m : gmap string V) (names : list string) : Prop :=
  names ≡ₚ (map_to_list m).*1.

Module dependency.

Definition NewDependencyResolver : DependencyResolver :=
  mkDependencyResolver ∅ ∅ ∅.

Definition ErrCyclic (name : string) : error :=
  Errorf_w ("cyclic dependency detected with request '" +:+ name +:+ "'")
    (Sentinel ErrCyclicDependency).

(** [hasCycle], with the [visited] map as a set that is passed in and
    handed back. [fuel] bounds the depth of the recursion. *)
Fixpoint hasCycle_fuel (fuel : nat) (dr : DependencyResolver) (nodeName : string)
    (visited : gset string) : option (bool * gset string) :=
  match fuel with
  | 0 => None
  | S fuel' =>
      if decide (nodeName ∈ visited) then Some (true, visited)
      else
        match dependsOn dr !! nodeName with
        | None => Some (false, visited)
        | Some dependsOn_ =>
            let visited := {[nodeName]} ∪ visited in
            match hasCycle_fuel fuel' dr dependsOn_ visited with
            | None => None
            | Some (true, visited) => Some (true, visited)
            | Some (false, visited) => Some (false, visited ∖ {[nodeName]})
            end
        end
  end.

(** Every call deeper in the recursion has marked one more name that has a
    parent, so one more level than there are such names left is enough
    ([hasCycle_unfold] is the source's equation, free of fuel). *)
Definition hasCycle (dr : DependencyResolver) (nodeName : string)
    (visited : gset string) : bool * gset string :=
  default (true, visited)
    (hasCycle_fuel (S (size (dom (dependsOn dr) ∖ visited))) dr nodeName visited).

Fixpoint detectCycles_loop (dr : DependencyResolver) (names : list string)
    : option error :=
  match names with
  | [] => None
  | name :: rest =>
      let visited := ∅ in
      if (hasCycle dr name visited).1 then Some (ErrCyclic name)
      else detectCycles_loop dr rest
  end.

(** [names]: the keys of [dr.requests] as [range] yields them. *)
Definition detectCycles (ctxErr : option error) (dr : DependencyResolver)
    (names : list string) : option error :=
  match ctxErr with
  | Some err => Some err
  | None => detectCycles_loop dr names
  end.

Fixpoint buildDependencyMaps_loop (dr : DependencyResolver) (reqs : list Request)
    : option error * DependencyResolver :=
  match reqs with
  | [] => (None, dr)
  | req :: rest =>
      if negb (bool_decide (DependsOn req = "")) then
        match requests dr !! DependsOn req with
        | None =>
            (Some (Errorf_w
               ("request '" +:+ Name req +:+ "' depends on unknown request '"
                  +:+ DependsOn req +:+ "'")
               (Sentinel ErrUnknownDependency)), dr)
        | Some _ =>
            buildDependencyMaps_loop
              (mkDependencyResolver (requests dr)
                 (<[DependsOn req :=
                      default [] (dependencies dr !! DependsOn req) ++ [Name req]]>
                    (dependencies dr))
                 (<[Name req := DependsOn req]> (dependsOn dr)))
              rest
        end
      else buildDependencyMaps_loop dr rest
  end.

Definition buildDependencyMaps (ctxErr : option error) (dr : DependencyResolver)
    (config : Config) (names : list string) : option error * DependencyResolver :=
  match ctxErr with
  | Some err => (Some err, dr)
  | None =>
      match buildDependencyMaps_loop dr (Requests config) with
      | (Some err, dr) => (Some err, dr)
      | (None, dr) => (detectCycles ctxErr dr names, dr)
      end
  end.

(** The first loop of [BuildRequestGraph]: [dr.requests[req.Name] = req]. *)
Definition indexRequests (dr : DependencyResolver) (reqs : list Request)
    : DependencyResolver :=
  foldl (λ dr req,
    mkDependencyResolver (<[Name req := req]> (requests dr))
      (dependencies dr) (dependsOn dr)) dr reqs.

(** [BuildRequestGraph]: the error and the resolver as the call leaves it.
    [names] is the order in which cycle detection ranges over the
    requests. *)
Definition BuildRequestGraph (ctxErr : option error) (dr : DependencyResolver)
    (config : Config) (names : list string) : option error * DependencyResolver :=
  match ctxErr with
  | Some err => (Some err, dr)
  | None => buildDependencyMaps ctxErr (indexRequests dr (Requests config)) config names
  end.

(** The closure [visit] of [CalculateExecutionOrder]; the variables it
    captures are the [visitState]. *)
Fixpoint visit_fuel (fuel : nat) (dr : DependencyResolver) (name : string)
    (st : visitState) : option (option error * visitState) :=
  match fuel with
  | 0 => None
  | S fuel' =>
      if decide (name ∈ visiting st) then Some (Some (ErrCyclic name), st)
      else if decide (name ∈ visited st) then Some (None, st)
      else
        let st := mkVisitState (visited st) ({[name]} ∪ visiting st) (result st) in
        let finish (st : visitState) :=
          mkVisitState ({[name]} ∪ visited st) (visiting st ∖ {[name]})
            (result st ++ [name]) in
        match dependsOn dr !! name with
        | Some dep =>
            match visit_fuel fuel' dr dep st with
            | None => None
            | Some (Some err, st) => Some (Some err, st)
            | Some (None, st) => Some (None, finish st)
            end
        | None => Some (None, finish st)
        end
  end.

Definition visit (dr : DependencyResolver) (name : string) (st : visitState)
    : option error * visitState :=
  default (Some (ErrCyclic name), st)
    (visit_fuel (S (size (dom (dependsOn dr) ∖ visiting st))) dr name st).

Fixpoint visitAll (dr : DependencyResolver) (names : list string) (st : visitState)
    : option error * visitState :=
  match names with
  | [] => (None, st)
  | name :: rest =>
      match visit dr name st with
      | (Some err, st) => (Some err, st)
      | (None, st) => visitAll dr rest st
      end
  end.

(** [reverseStringSlice]: swap the ends and move inwards while [i < j]. *)
Fixpoint reverse_loop (fuel : nat) (slice : list string) (i j : nat) : list string :=
  match fuel with
  | 0 => slice
  | S fuel' =>
      if i <? j then
        match slice !! i, slice !! j with
        | Some a, Some b => reverse_loop fuel' (<[j := a]> (<[i := b]> slice)) (i + 1) (j - 1)
        | _, _ => slice
        end
      else slice
  end.

Definition reverseStringSlice (slice : list string) : list string :=
  reverse_loop (length slice) slice 0 (length slice - 1).

(** [CalculateExecutionOrder]: [names] are the keys of [dr.requests] as
    [range] yields them. *)
Definition CalculateExecutionOrder (ctxErr : option error) (dr : DependencyResolver)
    (names : list string) : option (list string) * option error :=
  match ctxErr with
  | Some err => (None, Some err)
  | None =>
      match visitAll dr names (mkVisitState ∅ ∅ []) with
      | (Some err, _) => (None, Some err)
      | (None, st) => (Some (reverseStringSlice (result st)), None)
      end
  end.

End dependency.

(** [name] depends on [parent]. *)
Definition parentOf (dr : DependencyResolver) (name parent : string) : Prop :=
  dependsOn dr !! name = Some parent.

(** A closed parent chain: some name is its own ancestor. *)
Definition hasClosedChain (dr : DependencyResolver) : Prop :=
  ∃ name, tc (parentOf dr) name name.

(** Every name with a parent is a request, and so is every parent. *)
Definition dependenciesExist (dr : DependencyResolver) : Prop :=
  ∀ name parent, dependsOn dr !! name = Some parent →
    is_Some (requests dr !! name) ∧ is_Some (requests dr !! parent).

Definition plainRequest (name dependsOn_ : string) : Request :=
  mkRequest name "GET" ("/" +:+ name) [] None None None ∅ dependsOn_.

(** [root], [A1] depending on [root], [A2] depending on [A1]. *)
Definition chainConfig : Config :=
  mkConfig "http://example.com" 30 false false
    [plainRequest "root" ""; plainRequest "A1" "root"; plainRequest "A2" "A1"].

(** [A] depends on [B], [B] on [C], [C] on [A]. *)
Definition cyclicConfig : Config :=
  mkConfig "http://example.com" 30 false false
    [plainRequest "A" "B"; plainRequest "B" "C"; plainRequest "C" "A"].

(** A dependency on a name that no request has. *)
Definition danglingConfig : Config :=
  mkConfig "http://example.com" 30 false false
    [plainRequest "req1" "nop"].

(** The parent chain of [name] runs into a closed chain. *)
Definition leadsToCycle (dr : DependencyResolver) (name : string) : Prop :=
  ∃ c, rtc (parentOf dr) name c ∧ tc (parentOf dr) c c.

(** What holds of the [visitState] between two calls of [visit]: the result
    lists the visited names once each, they are requests, and the parent of
    a listed name is listed before it. *)
Definition orderInv (dr : DependencyResolver) (st : visitState) : Prop :=
  NoDup (result st) ∧
  (∀ x, x ∈ result st ↔ x ∈ visited st) ∧
  (∀ x, x ∈ visited st → is_Some (requests dr !! x)) ∧
  (∀ pre x post parent,
     result st = pre ++ x :: post → parentOf dr x parent → parent ∈ pre).

(** The resolver that [BuildRequestGraph] leaves for [chainConfig]. *)
Definition chainGraph : DependencyResolver :=
  (dependency.BuildRequestGraph None dependency.NewDependencyResolver chainConfig
     ["root"; "A1"; "A2"]).2.

(** Depth of a request of [chainConfig] below the root. *)
Definition chainRank (name : string) : nat :=
  if bool_decide (name = "A2") then 2
  else if bool_decide (name = "A1") then 1 else 0.

(** Some request of [config] depends on a name that no request has. *)
Definition hasUnknownDependency (config : Config) : Prop :=
  ∃ req, req ∈ Requests config ∧ DependsOn req ≠ "" ∧
         ∀ other, other ∈ Requests config → Name other ≠ DependsOn req.

(** The maps that graph building records for [config], before it looks
    for cycles. *)
Definition recordedGraph (config : Config) : option error * DependencyResolver :=
  dependency.buildDependencyMaps_loop
    (dependency.indexRequests dependency.NewDependencyResolver (Requests config))
    (Requests config).

(** No visited name leads into a closed chain. *)
Definition visitedSound (dr : DependencyResolver) (st : visitState) : Prop :=
  ∀ x, x ∈ visited st → ¬ leadsToCycle dr x.

(** Two branches below [root], and [edge] below [A2]. *)
Definition branchConfig : Config :=
  mkConfig "http://example.com" 30 false false
    [plainRequest "root" ""; plainRequest "A1" "root"; plainRequest "A2" "A1";
     plainRequest "B1" "root"; plainRequest "B2" "B1"; plainRequest "edge" "A2"].

Definition branchGraph : DependencyResolver :=
  (dependency.BuildRequestGraph None dependency.NewDependencyResolver branchConfig
     ["root"; "A1"; "A2"; "B1"; "B2"; "edge"]).2.

(** ** Collaborators and the world around a run *)

(** A context, seen through [ctx.Err()] ([None] while the context is live).
    Time passes while a request is in flight, and it passes between the
    selects on [ctx.Done()] that the processing of one request makes before
    its transport call: [errAt ctx n k] is the answer, after [n] transport
    calls have finished, at select number [k] of the request being
    processed, counted from [0]. Nothing ties the answers at two moments to
    one another, so a context may be found done at any of these selects. *)
Record Ctx := mkCtx {
  errAt : nat → nat → option error
}.

(** [ctx n]: the answer at select number [0] after [n] transport calls,
    which is what the loops over the requests see at their select. *)
Definition atCall (ctx : Ctx) (n : nat) : option error := errAt ctx n 0.

Coercion atCall : Ctx >-> Funclass.

Definition context_Background : Ctx := mkCtx (λ _ _, None).

(** One invocation of a result collector. The duration argument is left
    out; [rVariables] is empty for the batch collector, which has no such
    argument. *)
Record Report := mkReport {
  rName : string;
  rMethod : string;
  rURL : string;
  rStatusCode : Z;
  rErr : option error;
  rVariables : gmap string string
}.

(** A result collector is a closure over variables of its own, here the
    list of reports it keeps. *)
Definition ResultCollector := Report → list Report → list Report.

Definition appendReport : ResultCollector := λ r log, log ++ [r].

(** The collaborators of the executors. An HTTP request is identified with
    the request description it is built from.
    - [factory_CreateFromConfig config req]: [None] when the factory builds
      the request, else its error;
    - [client_Do calls req]: the answer to [req] after the transport calls
      [calls];
    - [rangeExtract] and [rangeExtracted]: the order in which the runtime
      ranges over the extraction map and over the extracted variables. *)
Record Collaborators := mkCollaborators {
  factory_CreateFromConfig : Config → Request → option error;
  client_Do : list Request → Request → Response + error;
  jsonExtractor : JSONExtractor;
  rangeExtract : nat → gmap string string → list (string * string);
  rangeExtracted : nat → gmap string string → list (string * string)
}.

(** The state a run changes: the variable store (chain runs only), the
    transport calls made, oldest first, and the collector's reports. Writes
    to standard output are not modelled. *)
Record World := mkWorld {
  store : DefaultVariableResolver;
  calls : list Request;
  reports : list Report
}.

Definition newWorld : World := mkWorld NewVariableResolver [] [].

Definition now (w : World) : nat := length (calls w).

Definition collect (collector : option ResultCollector) (r : Report) (w : World) : World :=
  match collector with
  | Some f => mkWorld (store w) (calls w) (f r (reports w))
  | None => w
  end.

(** The result of a call that may panic on a nil pointer. *)
Inductive outcome :=
| Returned (err : option error)
| Panicked.

(** ** Package engine: the batch executor *)

Module engine.

Definition DefaultMaxWorkers : nat := 5.

Record Executor := mkExecutor {
  collab : Collaborators;
  ctx : Ctx;
  resultCollector : option ResultCollector
}.

(** A Go result pair of a response pointer and an error, of which exactly
    one is non-nil, is a sum. [WrapError] is applied to a non-nil error here. *)
Definition executeHttpRequest (executor : Executor) (req : Request) (w : World)
    : (Response + error) * World :=
  let w' := mkWorld (store w) (calls w ++ [req]) (reports w) in
  match client_Do (collab executor) (calls w) req with
  | inr err => (inr (Errorf_w "request execution failed" err), w')
  | inl resp => (inl resp, w')
  end.

Definition executeConfigRequest (executor : Executor) (config : Config)
    (req : Request) (w : World) : (Response + error) * World :=
  match factory_CreateFromConfig (collab executor) config req with
  | Some err => (inr (Errorf_w "failed to prepare request" err), w)
  | None => executeHttpRequest executor req w
  end.

(** [resp.StatusCode] when [resp != nil], else the zero value. *)
Definition statusCodeOf {A} (resp : Response + A) : Z :=
  match resp with
  | inl resp => StatusCode resp
  | inr _ => 0
  end.

Definition errOf {A} (res : A + error) : option error :=
  match res with
  | inl _ => None
  | inr err => Some err
  end.

(** The loop of [ExecuteBatchSequential] over the requests still to run. *)
Fixpoint ExecuteBatchSequential_loop (executor : Executor) (config : Config)
    (reqs : list Request) (w : World) : option error * World :=
  match reqs with
  | [] => (None, w)
  | req :: rest =>
      match ctx executor (now w) with
      | Some ctxErr =>
          if IgnoreFail config then ExecuteBatchSequential_loop executor config rest w
          else (Some ctxErr, w)
      | None =>
          let '(res, w) := executeConfigRequest executor config req w in
          let url := BaseUrl config +:+ Path req in
          match resultCollector executor with
          | Some collector =>
              let statusCode := statusCodeOf res in
              let w := collect (Some collector)
                         (mkReport (Name req) (Method req) url statusCode (errOf res) ∅) w in
              ExecuteBatchSequential_loop executor config rest w
          | None =>
              match res with
              | inr err =>
                  if IgnoreFail config then
                    ExecuteBatchSequential_loop executor config rest w
                  else (WrapError (Some err) "batch request failed", w)
              | inl _ => ExecuteBatchSequential_loop executor config rest w
              end
          end
      end
  end.

Definition ExecuteBatchSequential (executor : Executor) (config : Config) (w : World)
    : option error * World :=
  ExecuteBatchSequential_loop executor config (Requests config) w.

End engine.

(** ** Package chain: request processor and chain executor *)

Record ExecutionResult := mkExecutionResult {
  eStatusCode : Z;
  eVariables : gmap string string
}.

Module chain.

Record ChainExecutor := mkChainExecutor {
  collab : Collaborators;
  resultCollector : option ResultCollector
}.

Definition withPath (req : Request) (path : string) : Request :=
  mkRequest (Name req) (Method req) path (Headers req) (RawBody req) (FormBody req)
    (JsonBody req) (Extract req) (DependsOn req).

Definition withHeaders (req : Request) (headers : list string) : Request :=
  mkRequest (Name req) (Method req) (Path req) headers (RawBody req) (FormBody req)
    (JsonBody req) (Extract req) (DependsOn req).

Definition withJsonBody (req : Request) (body : option string) : Request :=
  mkRequest (Name req) (Method req) (Path req) (Headers req) (RawBody req) (FormBody req)
    body (Extract req) (DependsOn req).

Definition withFormBody (req : Request) (body : option string) : Request :=
  mkRequest (Name req) (Method req) (Path req) (Headers req) (RawBody req) body
    (JsonBody req) (Extract req) (DependsOn req).

Definition withRawBody (req : Request) (body : option string) : Request :=
  mkRequest (Name req) (Method req) (Path req) (Headers req) body (FormBody req)
    (JsonBody req) (Extract req) (DependsOn req).

Definition prepareRequest (ctxErr : option error) (r : DefaultVariableResolver)
    (req : option Request) : Request + error :=
  match ctxErr with
  | Some err => inr err
  | None =>
      match req with
      | None => inr (Errorf "request cannot be nil")
      | Some req =>
          let modifiedReq := req in
          let modifiedReq := withPath modifiedReq (resolver.Resolve r (Path req)) in
          let modifiedReq :=
            if (0 <? length (Headers req))%nat then
              withHeaders modifiedReq (resolver.ResolveHeaders r (Headers req))
            else modifiedReq in
          let modifiedReq :=
            if isNonEmptyStringPtr (JsonBody req) then
              withJsonBody modifiedReq (resolver.ResolveBody r (JsonBody req))
            else modifiedReq in
          let modifiedReq :=
            if isNonEmptyStringPtr (FormBody req) then
              withFormBody modifiedReq (resolver.ResolveBody r (FormBody req))
            else modifiedReq in
          let modifiedReq :=
            if isNonEmptyStringPtr (RawBody req) then
              withRawBody modifiedReq (resolver.ResolveBody r (RawBody req))
            else modifiedReq in
          inl modifiedReq
      end
  end.

(** [executeRequest]: [ctxErr] is the answer of the context at the select
    of this call. *)
Definition executeRequest (c : Collaborators) (ctxErr : option error) (config : Config)
    (req : Request) (w : World) : (Response + error) * World :=
  match ctxErr with
  | Some err => (inr err, w)
  | None =>
      match factory_CreateFromConfig c config req with
      | Some _ =>
          (inr (Errorf_w "failed to create request" (Sentinel ErrCreateRequest)), w)
      | None =>
          let w' := mkWorld (store w) (calls w ++ [req]) (reports w) in
          match client_Do c (calls w) req with
          | inr _ =>
              (inr (Errorf_w "request execution failed" (Sentinel ErrRequestExecution)), w')
          | inl resp => (inl resp, w')
          end
      end
  end.

(** The loop of [ProcessRequest] that stores the extracted variables. *)
Fixpoint storeVariables (pairs : list (string * string)) (r : DefaultVariableResolver)
    (variables : gmap string string)
    : option error * DefaultVariableResolver * gmap string string :=
  match pairs with
  | [] => (None, r, variables)
  | (varName, varValue) :: rest =>
      match resolver.Set_ r varName varValue with
      | (Some err, r) =>
          (Some (Errorf_w ("failed to set variable '" +:+ varName +:+ "'") err), r, variables)
      | (None, r) => storeVariables rest r (<[varName := varValue]> variables)
      end
  end.

(** [ProcessRequest] selects on [ctx.Done()] itself, then [prepareRequest]
    does, then [executeRequest]: three selects at three successive moments
    before the transport call, at each of which the context may be found
    done. The extraction that follows sees the context after the call. *)
Definition ProcessRequest (c : Collaborators) (ctx : Ctx) (request : option Request)
    (config : Config) (w : World) : (ExecutionResult + error) * World :=
  match ctx (now w) with
  | Some err => (inr err, w)
  | None =>
      match prepareRequest (errAt ctx (now w) 1) (store w) request with
      | inr err => (inr (Errorf_w "failed to prepare request" err), w)
      | inl preparedRequest =>
          match executeRequest c (errAt ctx (now w) 2) config preparedRequest w with
          | (inr err, w) => (inr err, w)
          | (inl response, w) =>
              let result := mkExecutionResult (StatusCode response) ∅ in
              if (0 <? size (Extract preparedRequest))%nat then
                match extractor.ExtractVariables (jsonExtractor c) (ctx (now w))
                        (Some response)
                        (rangeExtract c (now w) (Extract preparedRequest)) with
                | (_, Some _) =>
                    (inr (Errorf_w "failed to extract variables" (Sentinel ErrVariableExtraction)),
                     w)
                | (extractedVars, None) =>
                    let extractedVars := default ∅ extractedVars in
                    match storeVariables (rangeExtracted c (now w) extractedVars)
                            (store w) (eVariables result) with
                    | (Some err, r, _) =>
                        (inr err, mkWorld r (calls w) (reports w))
                    | (None, r, variables) =>
                        (inl (mkExecutionResult (eStatusCode result) variables),
                         mkWorld r (calls w) (reports w))
                    end
                end
              else (inl result, w)
          end
      end
  end.

(** [processRequestByName]: [executedRequests] is the set of names marked
    [true]. Reading [requestObj.Path] of a name that [requestMap] lacks
    dereferences nil. *)
Definition processRequestByName (executor : ChainExecutor) (ctx : Ctx)
    (requestName : string) (requestMap : gmap string Request)
    (executedRequests : gset string) (config : Config) (w : World)
    : outcome * gset string * World :=
  if decide (requestName ∈ executedRequests) then (Returned None, executedRequests, w)
  else
    let requestObj := requestMap !! requestName in
    let '(res, w) := ProcessRequest (collab executor) ctx requestObj config w in
    match requestObj with
    | None => (Panicked, executedRequests, w)
    | Some requestObj =>
        let url := BaseUrl config +:+ Path requestObj in
        let variables :=
          match res with
          | inl result => eVariables result
          | inr _ => ∅
          end in
        let statusCode :=
          match res with
          | inl result => eStatusCode result
          | inr _ => 0%Z
          end in
        let w := collect (resultCollector executor)
                   (mkReport (Name requestObj) (Method requestObj) url statusCode
                      (engine.errOf res) variables) w in
        match res with
        | inr err =>
            if IgnoreFail config then (Returned None, executedRequests, w)
            else
              (Returned (Some (Errorf_w
                 ("failed to process request '" +:+ Name requestObj +:+ "'") err)),
               executedRequests, w)
        | inl _ => (Returned None, {[requestName]} ∪ executedRequests, w)
        end
    end.

Fixpoint executeRequestsInOrder_loop (executor : ChainExecutor) (ctx : Ctx)
    (executionOrder : list string) (requestMap : gmap string Request)
    (executedRequests : gset string) (config : Config) (w : World) : outcome * World :=
  match executionOrder with
  | [] => (Returned None, w)
  | requestName :: rest =>
      match ctx (now w) with
      | Some err => (Returned (Some err), w)
      | None =>
          match processRequestByName executor ctx requestName requestMap
                  executedRequests config w with
          | (Returned None, executedRequests, w) =>
              executeRequestsInOrder_loop executor ctx rest requestMap
                executedRequests config w
          | (out, _, w) => (out, w)
          end
      end
  end.

Definition executeRequestsInOrder (executor : ChainExecutor) (ctx : Ctx)
    (executionOrder : list string) (requestMap : gmap string Request)
    (config : Config) (w : World) : outcome * World :=
  executeRequestsInOrder_loop executor ctx executionOrder requestMap ∅ config w.

(** [Execute]: [names1] and [names2] are the orders in which cycle
    detection and order computation range over the request map. *)
Definition Execute (executor : ChainExecutor) (ctx : Ctx) (config : Config)
    (names1 names2 : list string) (w : World) : outcome * World :=
  let depResolver := dependency.NewDependencyResolver in
  match dependency.BuildRequestGraph (ctx (now w)) depResolver config names1 with
  | (Some err, _) =>
      (Returned (Some (Errorf_w "failed to build request dependency graph" err)), w)
  | (None, depResolver) =>
      match dependency.CalculateExecutionOrder (ctx (now w)) depResolver names2 with
      | (_, Some err) =>
          (Returned (Some (Errorf_w "failed to calculate execution order" err)), w)
      | (executionOrder, None) =>
          executeRequestsInOrder executor ctx (default [] executionOrder)
            (requests depResolver) config w
      end
  end.

End chain.

Definition okResponse : Response := mkResponse 200 (Some (BodyBytes "{}")).

(** A factory that builds every request and a client that answers every
    request but the one called [name], for which the transport fails. *)
Definition failingFor (name : string) : Collaborators :=
  mkCollaborators
    (λ _ _, None)
    (λ _ req, if bool_decide (Name req = name) then inr (External "connection refused")
              else inl okResponse)
    tableExtractor
    (λ _ m, map_to_list m)
    (λ _ m, map_to_list m).

(** Three independent requests [req1], [req2], [req3]. *)
Definition batchConfig (ignoreFail : bool) : Config :=
  mkConfig "http://example.com" 30 false ignoreFail
    [plainRequest "req1" ""; plainRequest "req2" ""; plainRequest "req3" ""].

(** Two worlds with the same store and the same transport calls. *)
Definition sameRun (w1 w2 : World) : Prop :=
  store w1 = store w2 ∧ calls w1 = calls w2.

(** ** Package engine: the worker pool of [ExecuteBatchConcurrent]

    The goroutines of one call (the caller, which sends the jobs, closes the
    queue, waits and returns, and the workers) as a transition system. A
    state holds what the goroutines share and where each of them stands; an
    [action] is one atomic move of one goroutine, and a schedule is the
    list of moves in the order in which they happen. A [select] with
    several ready cases may take any of them, so in such a state several
    actions are enabled. *)

Module pool.

(** A worker: at its [select], holding a job whose request is in flight, or
    returned ([wg.Done]). *)
Inductive workerState :=
| Idle
| Busy (req : Request)
| Exited.

(** The caller: inside [sendJobs] with the requests still to send, behind
    [close(jobs)] at [wg.Wait], or returned. *)
Inductive phase :=
| Producing (pending : list Request)
| Waiting
| Finished (err : option error).

Record Pool := mkPool {
  main : phase;
  jobs : list Request;
  workers : list workerState;
  errCh : option error;
  world : World
}.

(** The case that the final [select] of [ExecuteBatchConcurrent] takes. *)
Inductive selectCase :=
| CaseCtxDone
| CaseErrCh
| CaseDefault.

Inductive action :=
| Send
| Close
| Take (w : nat)
| Finish (w : nat)
| Exit (w : nat)
| Return (c : selectCase).

(** The job queue is closed once [sendJobs] is over. *)
Definition closed (s : Pool) : bool :=
  match main s with
  | Producing _ => false
  | _ => true
  end.

(** [ctx.Err()] of the executor's context, which the worker context is
    derived from. *)
Definition ctxErr (executor : engine.Executor) (s : Pool) : option error :=
  engine.ctx executor (now (world s)).

Definition isExited (w : workerState) : bool :=
  match w with
  | Exited => true
  | _ => false
  end.

(** [maxWorkers]: the smaller of [DefaultMaxWorkers] and the request count;
    the queue has room for every request, so a send never blocks. *)
Definition start (executor : engine.Executor) (config : Config) (w : World) : Pool :=
  let requestCount := length (Requests config) in
  let maxWorkers :=
    if (requestCount <? engine.DefaultMaxWorkers)%nat then requestCount
    else engine.DefaultMaxWorkers in
  mkPool (Producing (Requests config)) [] (replicate maxWorkers Idle) None w.

Definition step (executor : engine.Executor) (config : Config) (a : action) (s : Pool)
    : option Pool :=
  match a with
  | Send =>
      (* sendJobs: case jobs <- req *)
      match main s with
      | Producing (req :: rest) =>
          Some (mkPool (Producing rest) (jobs s ++ [req]) (workers s) (errCh s) (world s))
      | _ => None
      end
  | Close =>
      (* sendJobs is through its loop, or takes case <-ctx.Done(); close(jobs) *)
      match main s with
      | Producing pending =>
          if bool_decide (pending = []) || bool_decide (is_Some (ctxErr executor s)) then
            Some (mkPool Waiting (jobs s) (workers s) (errCh s) (world s))
          else None
      | _ => None
      end
  | Take i =>
      (* worker: case req, ok := <-jobs with ok = true *)
      match workers s !! i, jobs s with
      | Some Idle, req :: rest =>
          Some (mkPool (main s) rest (<[i := Busy req]> (workers s)) (errCh s) (world s))
      | _, _ => None
      end
  | Finish i =>
      (* worker: the request returns; collector; non-blocking send of the error *)
      match workers s !! i with
      | Some (Busy req) =>
          let '(res, w) := engine.executeConfigRequest executor config req (world s) in
          let url := BaseUrl config +:+ Path req in
          let w :=
            match engine.resultCollector executor with
            | Some collector =>
                collect (Some collector)
                  (mkReport (Name req) (Method req) url (engine.statusCodeOf res)
                     (engine.errOf res) ∅) w
            | None => w
            end in
          let errCh' :=
            match res with
            | inr err =>
                if negb (IgnoreFail config) then
                  match errCh s with
                  | None => WrapError (Some err) "batch request failed"
                  | Some first => Some first
                  end
                else errCh s
            | inl _ => errCh s
            end in
          Some (mkPool (main s) (jobs s) (<[i := Idle]> (workers s)) errCh' w)
      | _ => None
      end
  | Exit i =>
      (* worker: case <-ctx.Done(), or the queue is closed and empty *)
      match workers s !! i with
      | Some Idle =>
          if bool_decide (is_Some (ctxErr executor s))
             || (closed s && bool_decide (jobs s = [])) then
            Some (mkPool (main s) (jobs s) (<[i := Exited]> (workers s)) (errCh s) (world s))
          else None
      | _ => None
      end
  | Return c =>
      (* wg.Wait() is over; the final select *)
      match main s with
      | Waiting =>
          if forallb isExited (workers s) then
            match c with
            | CaseCtxDone =>
                match ctxErr executor s with
                | Some err =>
                    Some (mkPool (Finished (Some err)) (jobs s) (workers s) (errCh s) (world s))
                | None => None
                end
            | CaseErrCh =>
                match errCh s with
                | Some err =>
                    Some (mkPool (Finished (if negb (IgnoreFail config) then Some err else None))
                            (jobs s) (workers s) None (world s))
                | None => None
                end
            | CaseDefault =>
                match ctxErr executor s, errCh s with
                | None, None =>
                    Some (mkPool (Finished None) (jobs s) (workers s) (errCh s) (world s))
                | _, _ => None
                end
            end
          else None
      | _ => None
      end
  end.

(** The state after the moves of a schedule, if each is enabled in turn. *)
Fixpoint run (executor : engine.Executor) (config : Config) (sched : list action)
    (s : Pool) : option Pool :=
  match sched with
  | [] => Some s
  | a :: rest =>
      match step executor config a s with
      | Some s' => run executor config rest s'
      | None => None
      end
  end.

(** [ExecuteBatchConcurrent] from world [w] can return [err], leaving the
    world [w']. *)
Definition ExecuteBatchConcurrent (executor : engine.Executor) (config : Config)
    (w : World) (err : option error) (w' : World) : Prop :=
  ∃ sched s, run executor config sched (start executor config w) = Some s ∧
             main s = Finished err ∧ world s = w'.

(** Moves that a state can still make, at most. *)
Definition workerWeight (w : workerState) : nat :=
  match w with
  | Idle => 1
  | Busy _ => 2
  | Exited => 0
  end.

Definition weight (s : Pool) : nat :=
  match main s with
  | Producing pending => 3 * length pending + 2
  | Waiting => 1
  | Finished _ => 0
  end
  + 2 * length (jobs s)
  + sum_list (workerWeight <$> workers s).

(** What holds once the caller has returned: every worker is gone, and if
    failures are ignored and the context is live the result is nil. *)
Definition settled (executor : engine.Executor) (config : Config) (s : Pool) : Prop :=
  ∀ err, main s = Finished err →
    forallb isExited (workers s) = true ∧
    (IgnoreFail config = true → ctxErr executor s = None → err = None).

End pool.

(** A client for which every transport call fails. *)
Definition failingAll : Collaborators :=
  mkCollaborators
    (λ _ _, None)
    (λ _ _, inr (External "connection refused"))
    tableExtractor
    (λ _ m, map_to_list m)
    (λ _ m, map_to_list m).

(** Two workers take [req1] and [req2] before either request returns; the
    worker that finishes first takes [req3]. *)
Definition overlappingSchedule : list pool.action :=
  [pool.Send; pool.Send; pool.Take 1; pool.Take 0; pool.Send; pool.Close;
   pool.Finish 0; pool.Take 0; pool.Finish 1; pool.Exit 1; pool.Exit 2;
   pool.Finish 0; pool.Exit 0; pool.Return pool.CaseDefault].

(** ** Further notions used in the statements below *)

(** At most one of the three body variants of [req] is set. *)
Definition atMostOneBody (req : Request) : Prop :=
  ¬ (isNonEmptyStringPtr (JsonBody req) = true ∧ isNonEmptyStringPtr (FormBody req) = true) ∧
  ¬ (isNonEmptyStringPtr (JsonBody req) = true ∧ isNonEmptyStringPtr (RawBody req) = true) ∧
  ¬ (isNonEmptyStringPtr (FormBody req) = true ∧ isNonEmptyStringPtr (RawBody req) = true).

(** What [Validate] asks of a configuration. *)
Definition wellFormed (c : Config) : Prop :=
  BaseUrl c ≠ "" ∧
  Requests c ≠ [] ∧
  NoDup (Name <$> Requests c) ∧
  Forall (λ req, Name req ≠ "" ∧ Method req ≠ "" ∧ Path req ≠ "" ∧ atMostOneBody req)
    (Requests c).

Definition withDependsOn (req : Request) (dependsOn_ : string) : Request :=
  mkRequest (Name req) (Method req) (Path req) (Headers req) (RawBody req) (FormBody req)
    (JsonBody req) (Extract req) dependsOn_.

(** [c] with the dependency of every request replaced by [f] of the request. *)
Definition rewire (f : Request → string) (c : Config) : Config :=
  mkConfig (BaseUrl c) (Timeout c) (Concurrency c) (IgnoreFail c)
    ((λ req, withDependsOn req (f req)) <$> Requests c).


(** [a] stands before [b] in [order]. *)
Definition listedBefore (order : list string) (a b : string) : Prop :=
  ∃ l1 l2 l3, order = l1 ++ a :: l2 ++ b :: l3.

(** The two maps of the resolver record the same relation: [child] is
    listed among the dependents of [parent] exactly when [parent] is the
    dependency of [child]. *)
Definition mapsAgree (dr : DependencyResolver) : Prop :=
  ∀ child parent,
    child ∈ default [] (dependencies dr !! parent) ↔ dependsOn dr !! child = Some parent.

(** The factory builds [req]. *)
Definition builds (c : Collaborators) (config : Config) (req : Request) : bool :=
  match factory_CreateFromConfig c config req with
  | None => true
  | Some _ => false
  end.

(** The context is never done. *)
Definition alwaysLive (ctx : Ctx) : Prop := ∀ n, ctx n = None.

(** Where the error of a failed batch request comes from: the factory did
    not build [req], or the transport call for [req] failed. *)
Definition requestFailure (c : Collaborators) (config : Config) (req : Request)
    (cause : error) : Prop :=
  (∃ err, factory_CreateFromConfig c config req = Some err ∧
          cause = Errorf_w "failed to prepare request" err) ∨
  (∃ calls err, client_Do c calls req = inr err ∧
                cause = Errorf_w "request execution failed" err).

(** The collector's log after it has been handed [reps], one by one. *)
Definition collectAll (collector : ResultCollector) (reps : list Report)
    (log : list Report) : list Report :=
  foldl (λ log rep, collector rep log) log reps.

(** A body that [ResolveBody] does not cut: nil, or at most 10000 bytes. *)
Definition bodyFits (body : option string) : Prop :=
  match body with
  | Some b => String.length b ≤ maxVariableValueLength * maxBodySizeMultiplier
  | None => True
  end.


(** The request that a worker holds. *)
Definition flightOf (w : pool.workerState) : list Request :=
  match w with
  | pool.Busy req => [req]
  | _ => []
  end.

(** The requests in flight: those that the workers hold. *)
Fixpoint inFlight (ws : list pool.workerState) : list Request :=
  match ws with
  | [] => []
  | w :: ws => flightOf w ++ inFlight ws
  end.

(** The requests that [sendJobs] has not sent yet. *)
Definition pendingOf (p : pool.phase) : list Request :=
  match p with
  | pool.Producing pending => pending
  | _ => []
  end.

(** The requests that a state of the pool accounts for, when [sent] are
    those whose transport call is over: sent, in flight, queued or still
    to be queued. *)
Definition accounted (s : pool.Pool) (sent : list Request) : list Request :=
  sent ++ inFlight (pool.workers s) ++ pool.jobs s ++ pendingOf (pool.main s).

(** A worker has returned only if the queue is closed and empty. *)
Definition drained (s : pool.Pool) : Prop :=
  (∃ i, pool.workers s !! i = Some pool.Exited) →
  pool.closed s = true ∧ pool.jobs s = [].

(** An error as a worker puts it on the error channel. *)
Definition batchFailure (err : error) : Prop :=
  ∃ cause, err = Errorf_w "batch request failed" cause.

(** The transport fails for [req] whenever it is called. *)
Definition alwaysFails (c : Collaborators) (req : Request) : Prop :=
  ∀ calls, ∃ err, client_Do c calls req = inr err.

(** Once the call for a request that always fails is over, a failure is on
    the error channel, or has been returned. *)
Definition failureKept (c : Collaborators) (s : pool.Pool) (sent : list Request) : Prop :=
  (∀ err, pool.errCh s = Some err → batchFailure err) ∧
  ∀ req, req ∈ sent → alwaysFails c req →
    match pool.main s with
    | pool.Finished res => ∃ err, res = Some err ∧ batchFailure err
    | _ => is_Some (pool.errCh s)
    end.

(** A context whose deadline passes just before select number [k] of the
    first step: live at the selects before it, done from then on. *)
Definition deadlineBefore (k : nat) : Ctx :=
  mkCtx (λ n j,
    if bool_decide (n = 0 ∧ j < k) then None
    else Some (Sentinel context_DeadlineExceeded)).
(** ** Theorems: package rule *)

Section RuleFacts.

Lemma validateRequestBody_two (req : Request) :
  isNonEmptyStringPtr (JsonBody req) = true →
  isNonEmptyStringPtr (FormBody req) = true →
  is_Some (rule.validateRequestBody req).
Proof.
  intros Hj Hf. unfold rule.validateRequestBody. rewrite Hj, Hf.
  destruct (isNonEmptyStringPtr (RawBody req)); simpl; eauto.
Qed.

Lemma validateRequest_two (req : Request) i nameSet :
  isNonEmptyStringPtr (JsonBody req) = true →
  isNonEmptyStringPtr (FormBody req) = true →
  is_Some (rule.validateRequest req i nameSet).1.
Proof.
  intros Hj Hf. unfold rule.validateRequest.
  destruct (rule.validateRequestName _ _ _) as [[e|] ns]; simpl; [eauto|].
  destruct (rule.validateRequestBasics req); simpl; [eauto|].
  by apply validateRequestBody_two.
Qed.

Lemma validateRequests_loop_two (reqs : list Request) (req : Request) :
  req ∈ reqs →
  isNonEmptyStringPtr (JsonBody req) = true →
  isNonEmptyStringPtr (FormBody req) = true →
  ∀ i nameSet, is_Some (rule.validateRequests_loop reqs i nameSet).
Proof.
  intros Hin Hj Hf. induction reqs as [|other rest IH]; intros i nameSet.
  { by apply elem_of_nil in Hin. }
  simpl. apply elem_of_cons in Hin as [<-|Hin].
  - pose proof (validateRequest_two req i nameSet Hj Hf) as Hs.
    destruct (rule.validateRequest req i nameSet) as [[e|] ns]; simpl in *; [eauto|].
    by destruct Hs.
  - destruct (rule.validateRequest other i nameSet) as [[e|] ns]; [eauto|]. by apply IH.
Qed.

(** C9. A configuration containing a request whose JSON body and form body
    are both set (non-nil and non-empty, the test [validateRequestBody]
    applies to each variant) is rejected by [Validate]: it returns an
    error. *)
Theorem Validate_rejects_json_and_form_body (c : Config) (req : Request) :
  req ∈ Requests c →
  isNonEmptyStringPtr (JsonBody req) = true →
  isNonEmptyStringPtr (FormBody req) = true →
  ∃ err, rule.Validate c = Some err.
Proof.
  intros Hin Hj Hf. unfold rule.Validate.
  destruct (rule.validateBaseConfig c) as [e|]; [eauto|].
  destruct (validateRequests_loop_two _ _ Hin Hj Hf 0 ∅) as [e He]. eauto.
Qed.

End RuleFacts.

Lemma Validate_rejects_json_and_form_body_witness :
  ∃ err, rule.Validate (mkConfig "http://example.com" 30 false false [bothBodies]) = Some err.
Proof.
  apply (Validate_rejects_json_and_form_body _ bothBodies);
    [apply list_elem_of_here | reflexivity | reflexivity].
Defined.

(** An empty string counts as no body: [json_body = ""] next to a form body
    passes validation. *)
Example Validate_empty_json_body_not_counted :
  rule.Validate (mkConfig "http://example.com" 30 false false
    [mkRequest "login" "POST" "/login" [] None (Some "user=a") (Some "") ∅ ""]) = None.
Proof. reflexivity. Qed.

(** ** Theorems: byte strings *)

Section StringFacts.

Implicit Types s t u : string.

Lemma str_app_cons c s t : String c s +:+ t = String c (s +:+ t).
Proof. reflexivity. Qed.

Lemma str_app_nil_l t : "" +:+ t = t.
Proof. reflexivity. Qed.

Lemma str_app_nil_r s : s +:+ "" = s.
Proof. induction s as [|c s IH]; [done|]. by rewrite str_app_cons, IH. Qed.

Lemma str_app_assoc s t u : (s +:+ t) +:+ u = s +:+ t +:+ u.
Proof. induction s as [|c s IH]; [done|]. by rewrite !str_app_cons, IH. Qed.

Lemma str_length_app s t :
  String.length (s +:+ t) = String.length s + String.length t.
Proof. induction s as [|c s IH]; [done|]. rewrite str_app_cons. simpl. by rewrite IH. Qed.

Lemma substring_0_length n s :
  String.length (substring 0 n s) = n `min` String.length s.
Proof.
  revert s. induction n as [|n IH]; intros [|c s]; simpl; try done.
  by rewrite IH.
Qed.

Lemma substring_0_prefix n s : ∃ rest, s = substring 0 n s +:+ rest.
Proof.
  revert s. induction n as [|n IH]; intros [|c s]; simpl.
  - by exists "".
  - by exists (String c s).
  - by exists "".
  - destruct (IH s) as [rest Hrest]. exists rest.
    rewrite str_app_cons. by f_equal.
Qed.

End StringFacts.

(** ** Theorems: the pattern [\${([^}]+)}] *)

Section RegexpFacts.

Import regexp.

Implicit Types s m name after : string.

Lemma cutBrace_Some s name after :
  cutBrace s = Some (name, after) →
  s = name +:+ String "}" after ∧ "}"%char ∉ list_ascii_of_string name.
Proof.
  revert name. induction s as [|c s IH]; intros name; simpl; [done|].
  case_bool_decide as Hc.
  - intros [= <- <-]. subst c. split; [done|]. simpl. apply not_elem_of_nil.
  - destruct (cutBrace s) as [[n a]|] eqn:Hcut; [|done].
    intros [= <- <-]. destruct (IH n eq_refl) as [-> Hn].
    split; [done|]. simpl. rewrite not_elem_of_cons. split; [congruence|done].
Qed.

Lemma cutBrace_app name after :
  "}"%char ∉ list_ascii_of_string name →
  cutBrace (name +:+ String "}" after) = Some (name, after).
Proof.
  induction name as [|c name IH]; intros Hn.
  - reflexivity.
  - simpl in Hn. apply not_elem_of_cons in Hn as [Hc Hn].
    rewrite str_app_cons. cbn [cutBrace].
    rewrite bool_decide_false by congruence. by rewrite IH.
Qed.

(** What [matchHere] accepts is the language of the pattern. *)
Lemma matchHere_Some s m after :
  matchHere s = Some (m, after) →
  ∃ name, name ≠ "" ∧ ("}"%char ∉ list_ascii_of_string name) ∧
          m = "${" +:+ name +:+ "}" ∧ s = m +:+ after.
Proof.
  destruct s as [|c1 [|c2 rest]]; simpl; try done.
  destruct (bool_decide (c1 = "$"%char)) eqn:H1; simpl; [|done].
  destruct (bool_decide (c2 = "{"%char)) eqn:H2; simpl; [|done].
  apply bool_decide_eq_true in H1, H2. subst c1 c2.
  destruct (cutBrace rest) as [[[|c n] a]|] eqn:Hcut; try done.
  intros [= <- <-]. apply cutBrace_Some in Hcut as [-> Hn].
  exists (String c n). split; [done|]. split; [done|]. split; [done|].
  change ("${" +:+ String c n +:+ "}") with (String "$" (String "{" (String c n +:+ "}"))).
  rewrite !str_app_cons. do 2 f_equal. rewrite str_app_assoc. done.
Qed.

Lemma matchHere_token name after :
  name ≠ "" → "}"%char ∉ list_ascii_of_string name →
  matchHere ("${" +:+ name +:+ "}" +:+ after) = Some ("${" +:+ name +:+ "}", after).
Proof.
  intros Hne Hn.
  change ("${" +:+ name +:+ "}" +:+ after)
    with (String "$" (String "{" (name +:+ String "}" after))).
  cbn [matchHere]. rewrite !bool_decide_true by done. cbn [andb].
  rewrite cutBrace_app by done. by destruct name.
Qed.

Lemma matchHere_shorter s m after :
  matchHere s = Some (m, after) → String.length after < String.length s.
Proof.
  intros (name & _ & _ & -> & ->)%matchHere_Some.
  rewrite !str_length_app. simpl. lia.
Qed.

(** The scan does not depend on the fuel once the fuel covers the input. *)
Lemma replaceFrom_fuel repl f1 : ∀ f2 s,
  String.length s ≤ f1 → String.length s ≤ f2 →
  replaceFrom f1 s repl = replaceFrom f2 s repl.
Proof.
  induction f1 as [|f1 IH]; intros [|f2] s H1 H2; try done.
  - destruct s; simpl in *; [done|lia].
  - destruct s; simpl in *; [done|lia].
  - simpl. destruct (matchHere s) as [[m after]|] eqn:Hm.
    + apply matchHere_shorter in Hm. f_equal. apply IH; lia.
    + destruct s as [|c rest]; [done|]. simpl in *. f_equal. apply IH; lia.
Qed.

(** The equation of [ReplaceAllStringFunc]: replace a match at the head and
    go on after it, else keep the head byte and go on. *)
Lemma ReplaceAllStringFunc_unfold s repl :
  ReplaceAllStringFunc s repl =
  match matchHere s with
  | Some (m, after) => repl m +:+ ReplaceAllStringFunc after repl
  | None =>
      match s with
      | "" => ""
      | String c rest => String c (ReplaceAllStringFunc rest repl)
      end
  end.
Proof.
  unfold ReplaceAllStringFunc. destruct s as [|c rest]; [done|].
  cbn [String.length replaceFrom].
  destruct (matchHere (String c rest)) as [[m after]|] eqn:Hm; [|done].
  apply matchHere_shorter in Hm. simpl in Hm. f_equal. apply replaceFrom_fuel; lia.
Qed.

Lemma ReplaceAllStringFunc_ext s f g :
  (∀ m, f m = g m) → ReplaceAllStringFunc s f = ReplaceAllStringFunc s g.
Proof.
  intros Hfg. unfold ReplaceAllStringFunc. generalize (String.length s) as fuel.
  intros fuel. revert s. induction fuel as [|fuel IH]; intros s; simpl; [done|].
  destruct (matchHere s) as [[m after]|].
  - by rewrite Hfg, IH.
  - destruct s; [done|]. by rewrite IH.
Qed.

Lemma replaceFrom_no_match repl fuel : ∀ s,
  (∀ pre t, s = pre +:+ t → matchHere t = None) →
  replaceFrom fuel s repl = s.
Proof.
  induction fuel as [|fuel IH]; intros s Hno; simpl; [done|].
  rewrite (Hno "" s eq_refl). destruct s as [|c rest]; [done|].
  f_equal. apply IH. intros pre t ->. by apply (Hno (String c pre)).
Qed.

(** Text without a [$] in front of a token is copied, the token is replaced,
    and the scan goes on behind it. *)
Lemma ReplaceAllStringFunc_token pre name post repl :
  "$"%char ∉ list_ascii_of_string pre →
  name ≠ "" → "}"%char ∉ list_ascii_of_string name →
  ReplaceAllStringFunc (pre +:+ "${" +:+ name +:+ "}" +:+ post) repl =
  pre +:+ repl ("${" +:+ name +:+ "}") +:+ ReplaceAllStringFunc post repl.
Proof.
  intros Hpre Hne Hn. induction pre as [|c pre IH].
  - rewrite !str_app_nil_l, ReplaceAllStringFunc_unfold.
    by rewrite matchHere_token.
  - simpl in Hpre. apply not_elem_of_cons in Hpre as [Hc Hpre].
    rewrite !(str_app_cons c pre), ReplaceAllStringFunc_unfold.
    assert (∀ t, matchHere (String c t) = None) as ->.
    { intros [|c2 t]; simpl; [done|]. by rewrite bool_decide_false by congruence. }
    by rewrite IH.
Qed.

End RegexpFacts.

(** ** Theorems: the variable resolver *)

Section ResolverFacts.

Import regexp resolver.

Implicit Types (r : DefaultVariableResolver) (input m v name : string) (d depth : nat).

Lemma substring_0_all s : substring 0 (String.length s) s = s.
Proof. induction s as [|c s IH]; simpl; [done|]. by rewrite IH. Qed.

Lemma substring_0_ge n s : String.length s ≤ n → substring 0 n s = s.
Proof.
  revert s. induction n as [|n IH]; intros [|c s]; simpl; intros Hn; try done; [lia|].
  rewrite IH; [done|lia].
Qed.

Lemma substring_0_app s t : substring 0 (String.length s) (s +:+ t) = s.
Proof.
  induction s as [|c s IH].
  - by destruct t.
  - rewrite str_app_cons. cbn [String.length substring]. by rewrite IH.
Qed.

Lemma extractVariableName_token name :
  name ≠ "" → extractVariableName ("${" +:+ name +:+ "}") = name.
Proof.
  intros Hne. unfold extractVariableName.
  change ("${" +:+ name +:+ "}") with (String "$" (String "{" (name +:+ "}"))).
  cbn [String.length]. rewrite str_length_app. cbn [String.length].
  destruct name as [|c name]; [done|]. cbn [String.length].
  replace (S (S (S (String.length name) + 1)) - 1 - 2) with (String.length (String c name))
    by (cbn [String.length]; lia).
  destruct (_ <? 4) eqn:Hlt; [apply Nat.ltb_lt in Hlt; lia|].
  cbn [substring]. apply substring_0_app.
Qed.

Lemma truncateIfNeeded_eq v :
  truncateIfNeeded v = substring 0 maxVariableValueLength v.
Proof.
  unfold truncateIfNeeded, truncateValue.
  destruct (maxVariableValueLength <? String.length v) eqn:Hlt.
  - apply Nat.ltb_lt in Hlt.
    destruct (String.length v <=? maxVariableValueLength) eqn:Hle; [|done].
    apply Nat.leb_le in Hle. lia.
  - apply Nat.ltb_ge in Hlt. by rewrite substring_0_ge.
Qed.

Lemma truncateIfNeeded_length v :
  String.length (truncateIfNeeded v) ≤ maxVariableValueLength.
Proof. rewrite truncateIfNeeded_eq, substring_0_length. lia. Qed.

Lemma truncateIfNeeded_prefix v : ∃ rest, v = truncateIfNeeded v +:+ rest.
Proof. rewrite truncateIfNeeded_eq. apply substring_0_prefix. Qed.

(** The source's equation of [resolveRecursively]. *)
Lemma resolveRecursively_unfold r input depth :
  resolveRecursively r input depth =
  if maxVariableRecursionDepth <=? depth then
    (input, Some (Sentinel ErrMaxRecursionDepth))
  else
    (ReplaceAllStringFunc input (λ match_, resolveVariable r match_ depth), None).
Proof.
  unfold resolveRecursively.
  destruct (maxVariableRecursionDepth <=? depth) eqn:Hle.
  - apply Nat.leb_le in Hle.
    by replace (maxVariableRecursionDepth - depth) with 0 by lia.
  - apply Nat.leb_gt in Hle.
    replace (maxVariableRecursionDepth - depth)
      with (S (maxVariableRecursionDepth - (depth + 1))) by lia.
    cbn [resolveBelow]. f_equal.
Qed.

(** The top-level call is at depth 0 and cannot fail: the branch of
    [Resolve] that gives the input back is never taken. *)
Lemma resolveRecursively_top r input :
  resolveRecursively r input 0 =
  (ReplaceAllStringFunc input (λ match_, resolveVariable r match_ 0), None).
Proof. by rewrite resolveRecursively_unfold. Qed.

Lemma Resolve_eq r input :
  Resolve r input = ReplaceAllStringFunc input (λ match_, resolveVariable r match_ 0).
Proof.
  unfold Resolve. case_bool_decide as He.
  - by subst input.
  - by rewrite resolveRecursively_top.
Qed.

Lemma resolveVariable_by_depth r m d :
  resolveVariable r m d =
  match values r !! extractVariableName m with
  | None => m
  | Some v =>
      if decide (d + 1 < maxVariableRecursionDepth) then
        ReplaceAllStringFunc (substring 0 maxVariableValueLength v)
          (λ match_, resolveVariable r match_ (d + 1))
      else m
  end.
Proof.
  unfold resolveVariable. cbv zeta.
  destruct (values r !! extractVariableName m) as [v|]; [|done].
  rewrite resolveRecursively_unfold, truncateIfNeeded_eq.
  destruct (maxVariableRecursionDepth <=? d + 1) eqn:Hle.
  - apply Nat.leb_le in Hle. by rewrite decide_False by lia.
  - apply Nat.leb_gt in Hle. by rewrite decide_True by lia.
Qed.

(** C10. Input without a substring that the pattern [${...}] matches (the
    empty string among them) is returned unchanged by [Resolve], whatever
    the store holds. *)
Theorem Resolve_identity_without_reference r input :
  ¬ containsVariableRef input → Resolve r input = input.
Proof.
  intros Hno. rewrite Resolve_eq. apply replaceFrom_no_match.
  intros pre t ->. destruct (matchHere t) as [[m after]|] eqn:Hm; [|done].
  destruct Hno. apply matchHere_Some in Hm as (name & Hne & Hn & -> & ->).
  exists pre, name, after. by rewrite !str_app_assoc.
Qed.

(** The rule of the code for a token: [Resolve] copies text free of [$] up
    to a token [${name}] and replaces the token, then goes on behind it. A
    token met at nesting depth [d] ([0] in the input, [d + 1] inside the
    value put in for a token of depth [d]) is left as it is when [name] is
    unknown; is replaced by the first 1000 bytes of the value, the tokens
    of that prefix resolved at depth [d + 1], when [name] is known and
    [d + 1] is below the maximum depth 5; and is left as the literal token
    when [name] is known and [d + 1] reaches the maximum depth. *)
Theorem Resolve_token_by_depth r pre name post :
  "$"%char ∉ list_ascii_of_string pre →
  name ≠ "" →
  "}"%char ∉ list_ascii_of_string name →
  let tok := "${" +:+ name +:+ "}" in
  Resolve r (pre +:+ tok +:+ post) =
    pre +:+ resolveVariable r tok 0 +:+ Resolve r post
  ∧ (∀ input, (resolveRecursively r input 0).2 = None)
  ∧ (∀ d, resolveVariable r tok d =
       match values r !! name with
       | None => tok
       | Some v =>
           if decide (d + 1 < maxVariableRecursionDepth) then
             ReplaceAllStringFunc (substring 0 maxVariableValueLength v)
               (λ match_, resolveVariable r match_ (d + 1))
           else tok
       end)
  ∧ (∀ v, String.length (substring 0 maxVariableValueLength v) ≤ 1000).
Proof.
  intros Hpre Hne Hn tok. split; [|split; [|split]].
  - rewrite !Resolve_eq. subst tok. rewrite !str_app_assoc.
    by apply ReplaceAllStringFunc_token.
  - intros input. by rewrite resolveRecursively_top.
  - intros d. rewrite resolveVariable_by_depth. subst tok.
    by rewrite extractVariableName_token.
  - intros v. rewrite substring_0_length. unfold maxVariableValueLength. lia.
Qed.

Lemma Resolve_token_by_depth_witness :
  resolver.Resolve (mkResolver {["name" := "value"]}) ("Hello " +:+ ("${" +:+ "name" +:+ "}") +:+ "!") =
  "Hello " +:+ resolver.resolveVariable (mkResolver {["name" := "value"]}) ("${" +:+ "name" +:+ "}") 0
    +:+ resolver.Resolve (mkResolver {["name" := "value"]}) "!".
Proof.
  apply (Resolve_token_by_depth (mkResolver {["name" := "value"]}) "Hello " "name" "!").
  - vm_compute. intros H. repeat (apply elem_of_cons in H as [H|H]; [discriminate H|]).
    by apply elem_of_nil in H.
  - discriminate.
  - vm_compute. intros H. repeat (apply elem_of_cons in H as [H|H]; [discriminate H|]).
    by apply elem_of_nil in H.
Defined.

(** C4, at the failing input: in [deepStore] the references are nested six
    deep, so that resolving [${a}] exceeds the maximum depth (the value of
    [e] would be resolved at depth 5, which fails with
    [ErrMaxRecursionDepth]). [resolveVariable] keeps that error to itself
    and leaves the token [${e}], and [Resolve] returns [ABCD${e}], the four
    substitutions made above the limit, not the original input [${a}]. For
    every store and input the call of [resolveRecursively] that [Resolve]
    makes returns no error, so that the branch of [Resolve] that gives the
    input back is never taken. *)
Theorem Resolve_depth_exceeded_not_restored :
  resolver.depthExceeded deepStore "${a}" = true ∧
  resolver.resolveRecursively deepStore "E${f}" 5 =
    ("E${f}", Some (Sentinel ErrMaxRecursionDepth)) ∧
  resolver.resolveVariable deepStore "${e}" 4 = "${e}" ∧
  resolver.Resolve deepStore "${a}" = "ABCD${e}" ∧
  resolver.Resolve deepStore "${a}" ≠ "${a}" ∧
  (∀ r input, (resolver.resolveRecursively r input 0).2 = None).
Proof.
  split; [vm_compute; reflexivity|]. split; [vm_compute; reflexivity|].
  split; [vm_compute; reflexivity|]. split; [vm_compute; reflexivity|].
  split; [vm_compute; discriminate|].
  intros r input. by rewrite resolveRecursively_top.
Qed.

Example Resolve_known : resolver.Resolve (mkResolver {["name" := "value"]}) "Hello ${name}" = "Hello value".
Proof. vm_compute. reflexivity. Qed.

Example Resolve_unknown : resolver.Resolve NewVariableResolver "Hello ${name}" = "Hello ${name}".
Proof. vm_compute. reflexivity. Qed.

Example Resolve_nested :
  resolver.Resolve (mkResolver (<["inner" := "world"]> {["outer" := "Hello ${inner}"]})) "${outer}!"
  = "Hello world!".
Proof. vm_compute. reflexivity. Qed.

Example Resolve_truncates :
  resolver.Resolve
    (mkResolver {["long" := "a" +:+ strings_Repeat "b" (maxVariableValueLength + 10)]}) "${long}"
  = "a" +:+ strings_Repeat "b" (maxVariableValueLength - 1).
Proof. vm_compute. reflexivity. Qed.

Example ResolveHeaders_each :
  resolver.ResolveHeaders (mkResolver {["key" := "value"]})
    ["Header1: ${key}"; "Header2: static"]
  = ["Header1: value"; "Header2: static"].
Proof. vm_compute. reflexivity. Qed.

Example ResolveBody_cases :
  resolver.ResolveBody (mkResolver {["key" := "value"]}) (Some "Body with ${key}")
    = Some "Body with value" ∧
  resolver.ResolveBody (mkResolver {["key" := "value"]}) None = None ∧
  resolver.ResolveBody (mkResolver {["key" := "value"]}) (Some "") = Some "".
Proof. vm_compute. done. Qed.

Lemma Resolve_identity_without_reference_witness :
  resolver.Resolve deepStore "{a} $b ${} $ {c}" = "{a} $b ${} $ {c}".
Proof.
  apply (Resolve_identity_without_reference deepStore "{a} $b ${} $ {c}").
  intros (pre & name & post & Hne & Hn & Heq).
  assert (∀ t, "{a} $b ${} $ {c}" = pre +:+ t → regexp.matchHere t = None) as Hnone.
  { clear. intros t Ht.
    repeat (destruct pre as [|? pre];
      [rewrite str_app_nil_l in Ht; subst t; vm_compute; reflexivity
      |rewrite str_app_cons in Ht; try discriminate Ht; injection Ht as _ Ht]). }
  specialize (Hnone _ Heq). rewrite matchHere_token in Hnone by done. discriminate.
Defined.

End ResolverFacts.

(** ** Theorems: the variable extractor *)

Section ExtractorFacts.

Import extractor.

Variable ve : JSONExtractor.

Implicit Types (pairs : list (string * string)) (variables extractions : gmap string string).

Lemma extractLoop_all_exist jsonString pairs : ∀ variables,
  (∀ p, p ∈ pairs → (Extract_ ve jsonString p.2).2 = true) →
  extractLoop ve None jsonString pairs variables =
    (Some (extracted ve jsonString pairs variables), None).
Proof.
  induction pairs as [|[k path] rest IH]; intros variables Hall; [done|].
  cbn [extractLoop].
  pose proof (Hall (k, path) (list_elem_of_here _ _)) as Hex. simpl in Hex.
  destruct (Extract_ ve jsonString path) as [value ex] eqn:Hval. simpl in Hex. subst ex.
  cbn [negb]. rewrite IH.
  - unfold extracted. cbn [foldl fst snd]. by rewrite Hval.
  - intros p Hp. apply Hall. by apply list_elem_of_further.
Qed.

Lemma extractLoop_missing jsonString pairs : ∀ variables,
  (∃ p, p ∈ pairs ∧ (Extract_ ve jsonString p.2).2 = false) →
  ∃ err, extractLoop ve None jsonString pairs variables = (None, Some err)
         ∧ errors_Is err ErrPathNotFound = true.
Proof.
  induction pairs as [|[k path] rest IH]; intros variables (p & Hp & Hmiss).
  { by apply elem_of_nil in Hp. }
  cbn [extractLoop].
  destruct (Extract_ ve jsonString path) as [value ex] eqn:Hval.
  destruct ex; cbn [negb].
  - apply elem_of_cons in Hp as [->|Hp].
    + simpl in Hmiss. rewrite Hval in Hmiss. discriminate.
    + apply IH. eauto.
  - eexists. split; [done|]. done.
Qed.

Lemma extracted_lookup jsonString pairs : ∀ variables k,
  NoDup pairs.*1 →
  extracted ve jsonString pairs variables !! k =
    match list_to_map (M := gmap string string) pairs !! k with
    | Some path => Some (Extract_ ve jsonString path).1
    | None => variables !! k
    end.
Proof.
  induction pairs as [|[k' path] rest IH]; intros variables k Hnd; [done|].
  apply NoDup_cons in Hnd as [Hk' Hnd].
  unfold extracted in *. cbn [foldl fst snd]. rewrite IH by done.
  cbn [list_to_map foldr fst snd]. destruct (decide (k' = k)) as [->|Hne].
  - rewrite lookup_insert_eq.
    rewrite (not_elem_of_list_to_map_1 _ _ Hk'). by rewrite lookup_insert_eq.
  - by rewrite !lookup_insert_ne by done.
Qed.

Lemma extracted_range jsonString pairs extractions :
  rangeOf extractions pairs →
  extracted ve jsonString pairs ∅ = (λ path, (Extract_ ve jsonString path).1) <$> extractions.
Proof.
  intros Hr. unfold rangeOf in Hr. apply map_eq. intros k.
  assert (NoDup pairs.*1) as Hnd.
  { rewrite Hr. apply NoDup_fst_map_to_list. }
  rewrite extracted_lookup by done.
  assert (list_to_map (M := gmap string string) pairs = extractions) as ->.
  { rewrite <- (list_to_map_to_list extractions). by apply list_to_map_proper. }
  rewrite lookup_fmap. by destruct (extractions !! k).
Qed.

(** C7. For a live context and a response whose body can be read within the
    size limit: if some path of the extraction map does not exist in the
    body, [ExtractVariables] returns no map and an error that is
    [ErrPathNotFound], in whatever order the map is ranged over and
    whatever the other paths are; if every path exists, it returns the map
    from every variable name to the value extracted at its path. *)
Theorem ExtractVariables_all_or_nothing (status : Z) (body : string)
    extractions pairs :
  rangeOf extractions pairs →
  (Z.of_nat (String.length body) ≤ maxResponseBodySize)%Z →
  let resp := Some (mkResponse status (Some (BodyBytes body))) in
  ((∃ variableName jsonPath,
       extractions !! variableName = Some jsonPath ∧
       (Extract_ ve body jsonPath).2 = false) →
     ∃ err, ExtractVariables ve None resp pairs = (None, Some err)
            ∧ errors_Is err ErrPathNotFound = true)
  ∧
  ((∀ variableName jsonPath,
       extractions !! variableName = Some jsonPath →
       (Extract_ ve body jsonPath).2 = true) →
     ExtractVariables ve None resp pairs =
       (Some ((λ jsonPath, (Extract_ ve body jsonPath).1) <$> extractions), None)).
Proof.
  intros Hr Hsize resp.
  assert (ExtractVariables ve None resp pairs = extractLoop ve None body pairs ∅) as ->.
  { unfold ExtractVariables, resp, readResponseBody. cbn [Body].
    destruct (maxResponseBodySize <? _)%Z eqn:Hlt; [|done].
    apply Z.ltb_lt in Hlt. lia. }
  split.
  - intros (k & path & Hk & Hmiss). apply extractLoop_missing.
    exists (k, path). split; [|done].
    unfold rangeOf in Hr. rewrite Hr. by apply elem_of_map_to_list.
  - intros Hall. rewrite extractLoop_all_exist.
    + by rewrite (extracted_range _ _ extractions).
    + intros [k path] Hp. apply Hall with k.
      unfold rangeOf in Hr. rewrite Hr in Hp. by apply elem_of_map_to_list in Hp.
Qed.

End ExtractorFacts.

Lemma ExtractVariables_all_or_nothing_witness :
  (∃ err, extractor.ExtractVariables tableExtractor None
            (Some (mkResponse 200 (Some (BodyBytes "{name:test,age:30}"))))
            [("username", "name"); ("x", "missing.path")] = (None, Some err)
          ∧ errors_Is err ErrPathNotFound = true).
Proof.
  refine (proj1 (ExtractVariables_all_or_nothing tableExtractor 200 "{name:test,age:30}"
    (<["username" := "name"]> {["x" := "missing.path"]})
    [("username", "name"); ("x", "missing.path")] _ _) _).
  - unfold rangeOf. vm_compute. reflexivity.
  - vm_compute. discriminate.
  - exists "x", "missing.path". split; vm_compute; reflexivity.
Defined.

Example ExtractVariables_found :
  extractor.ExtractVariables tableExtractor None
    (Some (mkResponse 200 (Some (BodyBytes "{name:test,age:30}"))))
    [("username", "name"); ("userAge", "age")]
  = (Some (<["username" := "test"]> {["userAge" := "30"]}), None).
Proof. vm_compute. reflexivity. Qed.

(** ** Theorems: the dependency resolver *)

Section DependencyFacts.

Import dependency.

Variable dr : DependencyResolver.

Implicit Types (name nodeName : string) (vis : gset string) (st : visitState).

Lemma mark_shrinks name vis :
  name ∉ vis → is_Some (dependsOn dr !! name) →
  size (dom (dependsOn dr) ∖ ({[name]} ∪ vis)) < size (dom (dependsOn dr) ∖ vis).
Proof.
  intros Hn Hd%elem_of_dom. apply subset_size. set_solver.
Qed.

(** *** [hasCycle] *)

Lemma hasCycle_fuel_mono f : ∀ f' nodeName vis r,
  hasCycle_fuel f dr nodeName vis = Some r → f ≤ f' →
  hasCycle_fuel f' dr nodeName vis = Some r.
Proof.
  induction f as [|f IH]; intros [|f'] n vis r H Hle; simpl in *; try done; try lia.
  destruct (decide (n ∈ vis)); [done|].
  destruct (dependsOn dr !! n) as [dep|]; [|done].
  destruct (hasCycle_fuel f dr dep _) as [[b v]|] eqn:Hrec; [|done].
  rewrite (IH f' _ _ _ Hrec) by lia. done.
Qed.

Lemma hasCycle_fuel_enough f : ∀ nodeName vis,
  size (dom (dependsOn dr) ∖ vis) < f → is_Some (hasCycle_fuel f dr nodeName vis).
Proof.
  induction f as [|f IH]; intros n vis Hf; [lia|]. simpl.
  destruct (decide (n ∈ vis)); [eauto|].
  destruct (dependsOn dr !! n) as [dep|] eqn:Hdep; [|eauto].
  destruct (IH dep ({[n]} ∪ vis)) as [[b v] Hr].
  { assert (size (dom (dependsOn dr) ∖ ({[n]} ∪ vis)) < size (dom (dependsOn dr) ∖ vis)); [|lia].
    apply mark_shrinks; [done|by rewrite Hdep]. }
  rewrite Hr. destruct b; eauto.
Qed.

Lemma hasCycle_fuel_total f nodeName vis :
  size (dom (dependsOn dr) ∖ vis) < f →
  hasCycle_fuel f dr nodeName vis = Some (hasCycle dr nodeName vis).
Proof.
  intros Hf. unfold hasCycle.
  destruct (hasCycle_fuel_enough (S (size (dom (dependsOn dr) ∖ vis))) nodeName vis) as [r Hr]; [lia|].
  rewrite Hr. simpl. apply hasCycle_fuel_mono with (S (size (dom (dependsOn dr) ∖ vis))); [done|lia].
Qed.

(** The source's equation of [hasCycle]. *)
Lemma hasCycle_unfold nodeName vis :
  hasCycle dr nodeName vis =
  if decide (nodeName ∈ vis) then (true, vis)
  else
    match dependsOn dr !! nodeName with
    | None => (false, vis)
    | Some dependsOn_ =>
        match hasCycle dr dependsOn_ ({[nodeName]} ∪ vis) with
        | (true, visited) => (true, visited)
        | (false, visited) => (false, visited ∖ {[nodeName]})
        end
    end.
Proof.
  unfold hasCycle at 1. cbn [hasCycle_fuel].
  destruct (decide (nodeName ∈ vis)); [done|].
  destruct (dependsOn dr !! nodeName) as [dep|] eqn:Hdep; [|done].
  rewrite hasCycle_fuel_total.
  - by destruct (hasCycle dr dep _) as [[] v].
  - apply mark_shrinks; [done|]. by rewrite Hdep.
Qed.

Lemma leadsToCycle_step name :
  leadsToCycle dr name →
  ∃ dep, dependsOn dr !! name = Some dep ∧ leadsToCycle dr dep.
Proof.
  intros (c & Hnc & Hcc). inversion Hnc as [|? y ? Hny Hyc]; subst.
  - inversion Hcc as [? ? Hstep|? y ? Hstep Hrest]; subst.
    + exists c. split; [done|]. exists c. split; [apply rtc_refl|done].
    + exists y. split; [done|]. exists c. split; [by apply tc_rtc|done].
  - exists y. split; [done|]. by exists c.
Qed.

Lemma hasCycle_fuel_cyclic f : ∀ nodeName vis r,
  leadsToCycle dr nodeName →
  hasCycle_fuel f dr nodeName vis = Some r → r.1 = true.
Proof.
  induction f as [|f IH]; intros n vis r Hc; simpl; [done|].
  destruct (decide (n ∈ vis)); [by intros [= <-]|].
  destruct (leadsToCycle_step n Hc) as (dep & -> & Hdep).
  destruct (hasCycle_fuel f dr dep _) as [[b v]|] eqn:Hrec; [|done].
  apply IH in Hrec; [|done]. simpl in Hrec. subst b. by intros [= <-].
Qed.

Lemma hasCycle_cyclic nodeName vis :
  leadsToCycle dr nodeName → (hasCycle dr nodeName vis).1 = true.
Proof.
  intros Hc. apply (hasCycle_fuel_cyclic (S (size (dom (dependsOn dr) ∖ vis))) nodeName vis); [done|].
  apply hasCycle_fuel_total. lia.
Qed.

Lemma detectCycles_loop_error names err :
  detectCycles_loop dr names = Some err → errors_Is err ErrCyclicDependency = true.
Proof.
  induction names as [|name rest IH]; simpl; [done|].
  destruct (hasCycle dr name ∅).1; [by intros [= <-]|done].
Qed.

Lemma detectCycles_loop_cyclic names name :
  name ∈ names → leadsToCycle dr name →
  is_Some (detectCycles_loop dr names).
Proof.
  intros Hin Hc. induction names as [|n rest IH]; [by apply elem_of_nil in Hin|].
  simpl. destruct (hasCycle dr n ∅).1 eqn:Hn; [eauto|].
  apply elem_of_cons in Hin as [->|Hin]; [|by apply IH].
  rewrite hasCycle_cyclic in Hn by done. done.
Qed.

(** *** [visit] *)

Lemma visit_fuel_mono f : ∀ f' name st r,
  visit_fuel f dr name st = Some r → f ≤ f' →
  visit_fuel f' dr name st = Some r.
Proof.
  induction f as [|f IH]; intros [|f'] n st r H Hle; simpl in *; try done; try lia.
  destruct (decide (n ∈ visiting st)); [done|].
  destruct (decide (n ∈ visited st)); [done|].
  destruct (dependsOn dr !! n) as [dep|]; [|done].
  destruct (visit_fuel f dr dep _) as [[e s]|] eqn:Hrec; [|done].
  rewrite (IH f' _ _ _ Hrec) by lia. done.
Qed.

Lemma visit_fuel_enough f : ∀ name st,
  size (dom (dependsOn dr) ∖ visiting st) < f → is_Some (visit_fuel f dr name st).
Proof.
  induction f as [|f IH]; intros n st Hf; [lia|]. simpl.
  destruct (decide (n ∈ visiting st)); [eauto|].
  destruct (decide (n ∈ visited st)); [eauto|].
  destruct (dependsOn dr !! n) as [dep|] eqn:Hdep; [|eauto].
  destruct (IH dep (mkVisitState (visited st) ({[n]} ∪ visiting st) (result st)))
    as [[e s] Hr].
  { simpl. assert (size (dom (dependsOn dr) ∖ ({[n]} ∪ visiting st)) < size (dom (dependsOn dr) ∖ visiting st)); [|lia].
    apply mark_shrinks; [done|by rewrite Hdep]. }
  rewrite Hr. destruct e; eauto.
Qed.

Lemma visit_fuel_total f name st :
  size (dom (dependsOn dr) ∖ visiting st) < f →
  visit_fuel f dr name st = Some (visit dr name st).
Proof.
  intros Hf. unfold visit.
  destruct (visit_fuel_enough (S (size (dom (dependsOn dr) ∖ visiting st))) name st) as [r Hr]; [lia|].
  rewrite Hr. simpl. apply visit_fuel_mono with (S (size (dom (dependsOn dr) ∖ visiting st))); [done|lia].
Qed.

(** The source's equation of the closure [visit]. *)
Lemma visit_unfold name st :
  visit dr name st =
  if decide (name ∈ visiting st) then (Some (ErrCyclic name), st)
  else if decide (name ∈ visited st) then (None, st)
  else
    let st1 := mkVisitState (visited st) ({[name]} ∪ visiting st) (result st) in
    let finish (st : visitState) :=
      mkVisitState ({[name]} ∪ visited st) (visiting st ∖ {[name]})
        (result st ++ [name]) in
    match dependsOn dr !! name with
    | Some dep =>
        match visit dr dep st1 with
        | (Some err, st2) => (Some err, st2)
        | (None, st2) => (None, finish st2)
        end
    | None => (None, finish st1)
    end.
Proof.
  unfold visit at 1. cbn [visit_fuel].
  destruct (decide (name ∈ visiting st)); [done|].
  destruct (decide (name ∈ visited st)); [done|].
  destruct (dependsOn dr !! name) as [dep|] eqn:Hdep; [|done].
  rewrite visit_fuel_total.
  - cbv zeta. by destruct (visit dr dep _) as [[e|] s].
  - simpl. apply mark_shrinks; [done|]. by rewrite Hdep.
Qed.

(** *** Execution order on a forest without closed chain *)

Lemma snoc_split (l pre post : list string) (a x : string) :
  l ++ [a] = pre ++ x :: post →
  (post = [] ∧ x = a ∧ pre = l) ∨ ∃ post', post = post' ++ [a] ∧ l = pre ++ x :: post'.
Proof.
  intros Heq. destruct (decide (post = [])) as [->|Hne].
  - left. apply app_inj_tail in Heq as [-> ->]. done.
  - right. destruct (exists_last Hne) as (post' & y & ->).
    exists post'. rewrite app_comm_cons, app_assoc in Heq.
    apply app_inj_tail in Heq as [-> ->]. done.
Qed.

Lemma visit_fuel_acyclic f : ∀ name st r st',
  ¬ hasClosedChain dr → dependenciesExist dr →
  (∀ v, v ∈ visiting st → tc (parentOf dr) v name) →
  is_Some (requests dr !! name) →
  orderInv dr st →
  visit_fuel f dr name st = Some (r, st') →
  r = None ∧ orderInv dr st' ∧ visiting st' = visiting st ∧
  name ∈ visited st' ∧ visited st ⊆ visited st' ∧
  (∀ x, x ∈ visited st' → x ∈ visited st ∨ x ∉ visiting st).
Proof.
  induction f as [|f IH]; intros name st r st' Hac Hex Hpath Hreq Hinv; simpl; [done|].
  destruct (decide (name ∈ visiting st)) as [Hving|Hving].
  { destruct Hac. exists name. by apply Hpath. }
  destruct (decide (name ∈ visited st)) as [Hved|Hved].
  { intros [= <- <-]. do 5 (split; [done|]). intros x Hx. by left. }
  set (st1 := mkVisitState (visited st) ({[name]} ∪ visiting st) (result st)).
  assert (orderInv dr st1) as Hinv1 by done.
  assert (∀ st2, orderInv dr st2 → visiting st2 = {[name]} ∪ visiting st →
            visited st ⊆ visited st2 →
            (∀ x, x ∈ visited st2 → x ∈ visited st ∨ x ∉ visiting st1) →
            (∀ parent, parentOf dr name parent → parent ∈ visited st2) →
            let st3 := mkVisitState ({[name]} ∪ visited st2) (visiting st2 ∖ {[name]})
                         (result st2 ++ [name]) in
            orderInv dr st3 ∧ visiting st3 = visiting st ∧
            name ∈ visited st3 ∧ visited st ⊆ visited st3 ∧
            (∀ x, x ∈ visited st3 → x ∈ visited st ∨ x ∉ visiting st)) as Hfinish.
  { clear IH Hinv Hinv1 Hpath.
    intros st2 (Hnd2 & Hres2 & Hrq2 & Hpar2) Hving2 Hsub Hnew Hparent st3. subst st3. simpl.
    assert (name ∉ visited st2) as Hfresh.
    { intros Hin. destruct (Hnew _ Hin) as [?|Hn]; [done|]. apply Hn. simpl.
      apply elem_of_union_l. by apply elem_of_singleton. }
    split; [|split; [|split; [|split]]].
    - split; [|split; [|split]].
      + simpl. apply NoDup_app. split; [done|]. split; [|apply NoDup_singleton].
        intros x Hx ->%list_elem_of_singleton. apply Hfresh. by apply Hres2.
      + intros x. simpl.
        rewrite elem_of_app, list_elem_of_singleton, Hres2, elem_of_union, elem_of_singleton.
        tauto.
      + intros x. simpl. rewrite elem_of_union, elem_of_singleton.
        intros [->|Hx]; [done|by apply Hrq2].
      + intros pre x post parent. simpl.
        intros [(-> & -> & ->)|(post' & -> & Hst2)]%snoc_split Hp.
        * apply Hres2. by apply Hparent.
        * by apply (Hpar2 pre x post').
    - rewrite Hving2. apply set_eq. intros x.
      rewrite elem_of_difference, elem_of_union, elem_of_singleton.
      split; [tauto|]. intros Hx. split; [by right|]. by intros ->.
    - apply elem_of_union_l. by apply elem_of_singleton.
    - intros x Hx. apply elem_of_union_r. by apply Hsub.
    - intros x. rewrite elem_of_union, elem_of_singleton. intros [->|Hx]; [by right|].
      destruct (Hnew _ Hx) as [?|Hn]; [by left|]. right. simpl in Hn.
      intros Hx'. apply Hn. by apply elem_of_union_r. }
  destruct (dependsOn dr !! name) as [dep|] eqn:Hdep.
  - destruct (visit_fuel f dr dep st1) as [[e st2]|] eqn:Hrec; [|done].
    apply IH in Hrec as (-> & Hinv2 & Hving2 & Hdepin & Hsub & Hnew); try done.
    + intros [= <- <-]. split; [done|]. apply Hfinish; try done.
      intros parent Hp. unfold parentOf in Hp. by simplify_eq.
    + intros v. simpl. rewrite elem_of_union, elem_of_singleton. intros [->|Hv].
      * by apply tc_once.
      * apply tc_r with name; [by apply Hpath|done].
    + by destruct (Hex _ _ Hdep).
  - intros [= <- <-]. split; [done|]. apply (Hfinish st1); try done.
    + intros x Hx. by left.
    + intros parent Hp. unfold parentOf in Hp. congruence.
Qed.

Lemma visit_acyclic name st :
  ¬ hasClosedChain dr → dependenciesExist dr →
  visiting st = ∅ → is_Some (requests dr !! name) → orderInv dr st →
  ∃ st', visit dr name st = (None, st') ∧ orderInv dr st' ∧ visiting st' = ∅ ∧
         name ∈ visited st' ∧ visited st ⊆ visited st'.
Proof.
  intros Hac Hex Hving Hreq Hinv.
  pose proof (visit_fuel_total (S (size (dom (dependsOn dr) ∖ visiting st))) name st ltac:(lia)) as Ht.
  destruct (visit dr name st) as [r st'].
  apply visit_fuel_acyclic in Ht as (-> & Hinv' & Hving' & Hin & Hsub & _); try done.
  - exists st'. rewrite Hving' , Hving. done.
  - intros v. rewrite Hving. set_solver.
Qed.

Lemma visitAll_acyclic names : ∀ st,
  ¬ hasClosedChain dr → dependenciesExist dr →
  (∀ name, name ∈ names → is_Some (requests dr !! name)) →
  visiting st = ∅ → orderInv dr st →
  ∃ st', visitAll dr names st = (None, st') ∧ orderInv dr st' ∧
         visited st ⊆ visited st' ∧ (∀ name, name ∈ names → name ∈ visited st').
Proof.
  induction names as [|name rest IH]; intros st Hac Hex Hreq Hving Hinv.
  { exists st. split; [done|]. split; [done|]. split; [done|].
    intros name Hn. by apply elem_of_nil in Hn. }
  destruct (visit_acyclic name st) as (st1 & Hv & Hinv1 & Hving1 & Hin1 & Hsub1); try done.
  { apply Hreq. apply list_elem_of_here. }
  destruct (IH st1) as (st2 & Hall & Hinv2 & Hsub2 & Hin2); try done.
  { intros n Hn. apply Hreq. by apply list_elem_of_further. }
  exists st2. cbn [visitAll]. rewrite Hv. split; [done|]. split; [done|].
  split; [set_solver|].
  intros n [->|Hn]%elem_of_cons; [set_solver|by apply Hin2].
Qed.

End DependencyFacts.

(** *** [reverseStringSlice] reverses *)

Section ReverseFacts.

Import dependency.

Implicit Types (a b mid slice : list string).

Lemma insert_middle a (x y : string) rest :
  <[length a := y]> (a ++ x :: rest) = a ++ y :: rest.
Proof. induction a as [|z a IH]; [done|]. simpl. by rewrite IH. Qed.

Lemma reverse_loop_spec fuel : ∀ a mid b,
  length mid ≤ fuel + fuel →
  reverse_loop fuel (a ++ mid ++ b) (length a) (length a + length mid - 1)
  = a ++ reverse mid ++ b.
Proof.
  induction fuel as [|fuel IH]; intros a mid b Hlen.
  { destruct mid; [done|simpl in Hlen; lia]. }
  cbn [reverse_loop].
  destruct mid as [|x mid]; [|destruct (decide (mid = [])) as [->|Hne]].
  - replace (length a <? length a + length (@nil string) - 1) with false; [done|].
    symmetry. apply Nat.ltb_ge. simpl. lia.
  - replace (length a <? length a + length [x] - 1) with false; [done|].
    symmetry. apply Nat.ltb_ge. simpl. lia.
  - destruct (exists_last Hne) as (mid' & y & ->).
    assert (length (x :: mid' ++ [y]) = S (length mid' + 1)) as Hl
      by (simpl; rewrite length_app; simpl; lia).
    rewrite !Hl. rewrite Hl in Hlen.
    replace (length a <? length a + S (length mid' + 1) - 1) with true
      by (symmetry; apply Nat.ltb_lt; lia).
    assert ((a ++ (x :: mid' ++ [y]) ++ b) !! length a = Some x) as ->.
    { by apply list_lookup_middle. }
    assert ((a ++ (x :: mid' ++ [y]) ++ b) !! (length a + S (length mid' + 1) - 1) = Some y) as ->.
    { replace (a ++ (x :: mid' ++ [y]) ++ b) with ((a ++ x :: mid') ++ y :: b)
        by (by rewrite <- !app_assoc; simpl; rewrite <- app_assoc).
      apply list_lookup_middle. rewrite length_app. simpl. lia. }
    replace (<[length a + S (length mid' + 1) - 1:=x]>
               (<[length a:=y]> (a ++ (x :: mid' ++ [y]) ++ b)))
      with ((a ++ [y]) ++ mid' ++ ([x] ++ b)).
    + replace (length a + 1) with (length (a ++ [y])) by (rewrite length_app; simpl; lia).
      replace (length a + S (length mid' + 1) - 1 - 1)
        with (length (a ++ [y]) + length mid' - 1) by (rewrite length_app; simpl; lia).
      rewrite IH by lia.
      rewrite reverse_cons, reverse_app. simpl. by rewrite <- !app_assoc.
    + simpl. rewrite insert_middle.
      replace (a ++ y :: (mid' ++ [y]) ++ b) with ((a ++ y :: mid') ++ y :: b)
        by (rewrite <- ?app_assoc; simpl; rewrite <- ?app_assoc; done).
      replace (length a + S (length mid' + 1) - 1) with (length (a ++ y :: mid'))
        by (rewrite length_app; simpl; lia).
      rewrite insert_middle. by rewrite <- !app_assoc.
Qed.

Lemma reverseStringSlice_reverse slice : reverseStringSlice slice = reverse slice.
Proof.
  unfold reverseStringSlice.
  pose proof (reverse_loop_spec (length slice) [] slice []) as H.
  rewrite !app_nil_r in H. simpl in H. rewrite H by lia. done.
Qed.

End ReverseFacts.

Section OrderFacts.

Import dependency.

Implicit Types (dr : DependencyResolver) (names : list string).

Lemma rangeKeys_elem {V} (m : gmap string V) names name :
  rangeKeys m names → (name ∈ names ↔ is_Some (m !! name)).
Proof.
  unfold rangeKeys. intros ->. rewrite list_elem_of_fmap. split.
  - intros ([k v] & -> & Hin). apply elem_of_map_to_list in Hin. by exists v.
  - intros [v Hv]. exists (name, v). split; [done|]. by apply elem_of_map_to_list.
Qed.

Lemma rangeKeys_NoDup {V} (m : gmap string V) names :
  rangeKeys m names → NoDup names.
Proof. unfold rangeKeys. intros ->. apply NoDup_fst_map_to_list. Qed.

(** A rank that falls along every dependency rules out closed chains. *)
Lemma ranked_no_closed_chain dr (rank : string → nat) :
  map_Forall (λ name parent, rank parent < rank name) (dependsOn dr) →
  ¬ hasClosedChain dr.
Proof.
  intros Hrank [name Hc].
  assert (∀ x y, tc (parentOf dr) x y → rank y < rank x) as Hlt.
  { intros x y Hxy. induction Hxy as [x y Hp | x y z Hp _ IH].
    - by apply (Hrank x y).
    - pose proof (Hrank x y Hp). simpl in *. lia. }
  specialize (Hlt _ _ Hc). lia.
Qed.

(** C5. On a dependency forest (every name that has a parent is a request,
    and so is the parent) without closed parent chain,
    [CalculateExecutionOrder] succeeds under a live context, in whatever
    order the requests are ranged over, and the list it returns is a
    permutation of the request names: it has no duplicate and holds exactly
    the names of the requests. *)
Theorem CalculateExecutionOrder_permutation dr names :
  dependenciesExist dr → ¬ hasClosedChain dr → rangeKeys (requests dr) names →
  ∃ order,
    CalculateExecutionOrder None dr names = (Some order, None) ∧
    order ≡ₚ (map_to_list (requests dr)).*1 ∧
    NoDup order ∧
    (∀ name, name ∈ order ↔ is_Some (requests dr !! name)).
Proof.
  intros Hex Hac Hr.
  destruct (visitAll_acyclic dr names (mkVisitState ∅ ∅ [])) as (st & Hall & Hinv & _ & Hin);
    try done.
  { intros name Hn. by apply (rangeKeys_elem _ _ _ Hr). }
  { split; [apply NoDup_nil_2|]. split; [|split].
    - intros x. simpl. set_solver.
    - intros x. simpl. set_solver.
    - intros pre x post parent Heq. simpl in Heq. by destruct pre. }
  destruct Hinv as (Hnd & Hres & Hrq & _).
  assert (∀ name, name ∈ result st ↔ is_Some (requests dr !! name)) as Hiff.
  { intros name. rewrite Hres. split; [apply Hrq|].
    intros Hs. apply Hin. by apply (rangeKeys_elem _ _ _ Hr). }
  exists (reverse (result st)). unfold CalculateExecutionOrder. rewrite Hall.
  rewrite reverseStringSlice_reverse. split; [done|]. split; [|split].
  - rewrite reverse_Permutation. rewrite <- Hr. apply NoDup_Permutation; [done|..].
    + by apply (rangeKeys_NoDup (requests dr)).
    + intros x. rewrite Hiff. symmetry. by apply rangeKeys_elem.
  - by rewrite reverse_Permutation.
  - intros name. by rewrite elem_of_reverse.
Qed.

(** The reversal puts every request before the request it depends on. *)
Lemma CalculateExecutionOrder_dependents_first dr names order child parent :
  dependenciesExist dr → ¬ hasClosedChain dr → rangeKeys (requests dr) names →
  CalculateExecutionOrder None dr names = (Some order, None) →
  parentOf dr child parent →
  ∃ l1 l2 l3, order = l1 ++ child :: l2 ++ parent :: l3.
Proof.
  intros Hex Hac Hr Hcalc Hp.
  destruct (visitAll_acyclic dr names (mkVisitState ∅ ∅ [])) as (st & Hall & Hinv & _ & Hin);
    try done.
  { intros name Hn. by apply (rangeKeys_elem _ _ _ Hr). }
  { split; [apply NoDup_nil_2|]. split; [|split].
    - intros x. simpl. set_solver.
    - intros x. simpl. set_solver.
    - intros pre x post p Heq. simpl in Heq. by destruct pre. }
  unfold CalculateExecutionOrder in Hcalc. rewrite Hall in Hcalc. injection Hcalc as <-.
  rewrite reverseStringSlice_reverse.
  destruct Hinv as (Hnd & Hres & Hrq & Hpar).
  assert (child ∈ result st) as Hchild.
  { apply Hres, Hin. apply (rangeKeys_elem _ _ _ Hr). by destruct (Hex _ _ Hp). }
  apply list_elem_of_split in Hchild as (pre & post & Hsplit).
  pose proof (Hpar pre child post parent Hsplit Hp) as Hparent.
  apply list_elem_of_split in Hparent as (a & b & ->).
  exists (reverse post), (reverse b), (reverse a). rewrite Hsplit.
  rewrite reverse_app, reverse_cons, reverse_app, reverse_cons.
  by rewrite <- !app_assoc.
Qed.

Lemma chainGraph_dependenciesExist : dependenciesExist chainGraph.
Proof.
  change (map_Forall (λ name parent,
    is_Some (requests chainGraph !! name) ∧ is_Some (requests chainGraph !! parent))
    (dependsOn chainGraph)).
  compute_done.
Qed.

Lemma chainGraph_no_closed_chain : ¬ hasClosedChain chainGraph.
Proof.
  apply (ranked_no_closed_chain _ chainRank).
  compute_done.
Qed.

Lemma CalculateExecutionOrder_permutation_witness :
  ∃ order,
    dependency.CalculateExecutionOrder None chainGraph ["A1"; "A2"; "root"] = (Some order, None) ∧
    order ≡ₚ (map_to_list (requests chainGraph)).*1 ∧
    NoDup order ∧
    (∀ name, name ∈ order ↔ is_Some (requests chainGraph !! name)).
Proof.
  apply (CalculateExecutionOrder_permutation chainGraph ["A1"; "A2"; "root"]).
  - exact chainGraph_dependenciesExist.
  - exact chainGraph_no_closed_chain.
  - unfold rangeKeys. vm_compute. reflexivity.
Defined.

(** C1. For the three requests [root], [A1] depending on [root] and [A2]
    depending on [A1], under a live context and in whatever order the
    runtime ranges over the request map (when looking for cycles and when
    computing the order): graph building succeeds, the names are
    accumulated parents first as [root; A1; A2], and
    [CalculateExecutionOrder] returns the reversed list [A2; A1; root]. *)
Theorem CalculateExecutionOrder_chain_reversed names1 names2 :
  names1 ≡ₚ ["root"; "A1"; "A2"] →
  names2 ≡ₚ ["root"; "A1"; "A2"] →
  let built := BuildRequestGraph None NewDependencyResolver chainConfig names1 in
  built.1 = None ∧
  result (visitAll built.2 names2 (mkVisitState ∅ ∅ [])).2 = ["root"; "A1"; "A2"] ∧
  CalculateExecutionOrder None built.2 names2 = (Some ["A2"; "A1"; "root"], None).
Proof.
  intros H1 H2.
  symmetry in H1, H2. apply permutations_Permutation in H1, H2.
  vm_compute in H1, H2.
  repeat (apply elem_of_cons in H1 as [H1|H1]; [subst names1|]);
    try (by apply elem_of_nil in H1);
    (repeat (apply elem_of_cons in H2 as [H2|H2]; [subst names2|]);
       try (by apply elem_of_nil in H2));
    vm_compute; done.
Qed.

Lemma CalculateExecutionOrder_chain_reversed_witness :
  dependency.CalculateExecutionOrder None
    (dependency.BuildRequestGraph None dependency.NewDependencyResolver chainConfig
       ["A2"; "root"; "A1"]).2 ["A1"; "A2"; "root"]
  = (Some ["A2"; "A1"; "root"], None).
Proof.
  apply (CalculateExecutionOrder_chain_reversed ["A2"; "root"; "A1"] ["A1"; "A2"; "root"]).
  - symmetry. apply permutations_Permutation. compute_done.
  - symmetry. apply permutations_Permutation. compute_done.
Defined.

(** With more than one branch the returned order depends on the order in
    which the runtime ranges over the request map. *)
Example CalculateExecutionOrder_branches_by_range_order :
  CalculateExecutionOrder None branchGraph ["edge"; "B2"; "root"; "A1"; "A2"; "B1"]
    = (Some ["B2"; "B1"; "edge"; "A2"; "A1"; "root"], None) ∧
  CalculateExecutionOrder None branchGraph ["B2"; "edge"; "root"; "A1"; "A2"; "B1"]
    = (Some ["edge"; "A2"; "A1"; "B2"; "B1"; "root"], None).
Proof. split; vm_compute; reflexivity. Qed.

End OrderFacts.

(** *** Structural failures *)

Section StructuralFacts.

Import dependency.

Implicit Types (dr : DependencyResolver) (reqs : list Request) (names : list string).

Lemma indexRequests_dependsOn reqs : ∀ dr,
  dependsOn (indexRequests dr reqs) = dependsOn dr.
Proof.
  unfold indexRequests. induction reqs as [|req rest IH]; intros dr; [done|].
  simpl. by rewrite IH.
Qed.

Lemma indexRequests_lookup reqs name : ∀ dr,
  is_Some (requests (indexRequests dr reqs) !! name) ↔
  is_Some (requests dr !! name) ∨ ∃ req, req ∈ reqs ∧ Name req = name.
Proof.
  unfold indexRequests. induction reqs as [|req rest IH]; intros dr.
  - simpl. split; [by left|]. intros [?|(req & Hin & _)]; [done|].
    by apply elem_of_nil in Hin.
  - simpl. rewrite IH. simpl. rewrite lookup_insert_is_Some. split.
    + intros [[Heq|[_ Hs]]|(r & Hin & Hn)].
      * right. exists req. split; [apply list_elem_of_here|done].
      * by left.
      * right. exists r. split; [by apply list_elem_of_further|done].
    + intros [Hs|(r & Hin & Hn)].
      * destruct (decide (Name req = name)); [left; by left|left; right; done].
      * apply elem_of_cons in Hin as [->|Hin]; [left; by left|].
        right. by exists r.
Qed.

Lemma buildDependencyMaps_loop_requests reqs : ∀ dr,
  requests (buildDependencyMaps_loop dr reqs).2 = requests dr.
Proof.
  induction reqs as [|req rest IH]; intros dr; [done|]. simpl.
  destruct (negb _); [|apply IH].
  destruct (requests dr !! DependsOn req); [|done]. by rewrite IH.
Qed.

Lemma buildDependencyMaps_loop_unknown reqs : ∀ dr,
  (∃ req, req ∈ reqs ∧ DependsOn req ≠ "" ∧ requests dr !! DependsOn req = None) →
  ∃ err, (buildDependencyMaps_loop dr reqs).1 = Some err ∧
         errors_Is err ErrUnknownDependency = true.
Proof.
  induction reqs as [|req rest IH]; intros dr (r & Hin & Hne & Hnone).
  { by apply elem_of_nil in Hin. }
  simpl. destruct (bool_decide (DependsOn req = "")) eqn:Hd; simpl.
  - apply bool_decide_eq_true in Hd. apply IH.
    apply elem_of_cons in Hin as [->|Hin]; [done|]. eauto.
  - destruct (requests dr !! DependsOn req) eqn:Hlook.
    + apply IH. simpl.
      apply elem_of_cons in Hin as [->|Hin]; [congruence|]. eauto.
    + eexists. split; [done|]. done.
Qed.

Lemma buildDependencyMaps_loop_dom reqs name : ∀ dr,
  is_Some (dependsOn (buildDependencyMaps_loop dr reqs).2 !! name) →
  is_Some (dependsOn dr !! name) ∨ ∃ req, req ∈ reqs ∧ Name req = name.
Proof.
  induction reqs as [|req rest IH]; intros dr; [by left|]. simpl.
  assert (∀ dr', (is_Some (dependsOn dr' !! name) →
                  is_Some (dependsOn dr !! name) ∨ Name req = name) →
            is_Some (dependsOn (buildDependencyMaps_loop dr' rest).2 !! name) →
            is_Some (dependsOn dr !! name) ∨ ∃ r, r ∈ req :: rest ∧ Name r = name) as Hstep.
  { intros dr' Hdr' [Hs|(r & Hin & Hn)]%IH.
    - destruct (Hdr' Hs) as [?|?]; [by left|].
      right. exists req. split; [apply list_elem_of_here|done].
    - right. exists r. split; [by apply list_elem_of_further|done]. }
  destruct (negb _); [|apply Hstep; by left].
  destruct (requests dr !! DependsOn req).
  - apply Hstep. simpl. rewrite lookup_insert_is_Some. intros [?|[_ ?]]; [by right|by left].
  - simpl. by left.
Qed.

(** Graph building on a fresh resolver: every recorded name is a request. *)
Lemma recordedGraph_names config dr name :
  recordedGraph config = (None, dr) →
  is_Some (dependsOn dr !! name) → is_Some (requests dr !! name).
Proof.
  unfold recordedGraph. intros Hrec Hs.
  pose proof (buildDependencyMaps_loop_requests (Requests config)
    (indexRequests NewDependencyResolver (Requests config))) as Hreq.
  pose proof (buildDependencyMaps_loop_dom (Requests config) name
    (indexRequests NewDependencyResolver (Requests config))) as Hdom.
  rewrite Hrec in Hreq, Hdom. simpl in Hreq, Hdom. rewrite Hreq.
  apply indexRequests_lookup. right.
  destruct (Hdom Hs) as [Hold|?]; [|done].
  rewrite indexRequests_dependsOn in Hold. simpl in Hold.
  rewrite lookup_empty in Hold. by destruct Hold.
Qed.

Lemma closed_chain_leads dr name :
  tc (parentOf dr) name name → leadsToCycle dr name.
Proof. intros Hc. exists name. split; [apply rtc_refl|done]. Qed.

Lemma closed_chain_has_parent dr name :
  tc (parentOf dr) name name → is_Some (dependsOn dr !! name).
Proof.
  intros Hc. destruct (leadsToCycle_step dr name (closed_chain_leads _ _ Hc)) as (dep & Hd & _).
  by exists dep.
Qed.

Lemma visit_fuel_cyclic dr f : ∀ name st r st',
  visitedSound dr st →
  visit_fuel f dr name st = Some (r, st') →
  visitedSound dr st' ∧
  (∀ err, r = Some err → errors_Is err ErrCyclicDependency = true) ∧
  (leadsToCycle dr name → is_Some r).
Proof.
  induction f as [|f IH]; intros name st r st' Hsound; simpl; [done|].
  destruct (decide (name ∈ visiting st)).
  { intros [= <- <-]. split; [done|]. split; [by intros err [= <-]|eauto]. }
  destruct (decide (name ∈ visited st)) as [Hved|Hved].
  { intros [= <- <-]. split; [done|]. split; [done|]. intros Hc. by destruct (Hsound _ Hved). }
  destruct (dependsOn dr !! name) as [dep|] eqn:Hdep.
  - destruct (visit_fuel f dr dep _) as [[e st2]|] eqn:Hrec; [|done].
    apply IH in Hrec as (Hsound2 & Herr & Hlead); [|done].
    destruct e as [e|]; intros [= <- <-].
    + split; [done|]. split; [|eauto]. intros err [= <-]. by apply Herr.
    + assert (¬ leadsToCycle dr name) as Hno.
      { intros (d & Hd & Hc)%leadsToCycle_step. rewrite Hdep in Hd.
        injection Hd as <-. by destruct (Hlead Hc). }
      split; [|split; [done|by intros ?]].
      intros x. simpl. rewrite elem_of_union, elem_of_singleton.
      intros [->|Hx]; [done|by apply Hsound2].
  - intros [= <- <-].
    assert (¬ leadsToCycle dr name) as Hno.
    { intros (d & Hd & _)%leadsToCycle_step. congruence. }
    split; [|split; [done|by intros ?]].
    intros x. simpl. rewrite elem_of_union, elem_of_singleton.
    intros [->|Hx]; [done|by apply Hsound].
Qed.

Lemma visit_cyclic dr name st :
  visitedSound dr st →
  visitedSound dr (visit dr name st).2 ∧
  (∀ err, (visit dr name st).1 = Some err → errors_Is err ErrCyclicDependency = true) ∧
  (leadsToCycle dr name → is_Some (visit dr name st).1).
Proof.
  intros Hsound.
  pose proof (visit_fuel_total dr (S (size (dom (dependsOn dr) ∖ visiting st))) name st
    ltac:(lia)) as Ht.
  destruct (visit dr name st) as [r st']. by apply visit_fuel_cyclic in Ht.
Qed.

Lemma visitAll_cyclic dr names name : ∀ st,
  visitedSound dr st → name ∈ names → leadsToCycle dr name →
  ∃ err, (visitAll dr names st).1 = Some err ∧ errors_Is err ErrCyclicDependency = true.
Proof.
  induction names as [|n rest IH]; intros st Hsound Hin Hc.
  { by apply elem_of_nil in Hin. }
  cbn [visitAll]. destruct (visit_cyclic dr n st Hsound) as (Hsound' & Herr & Hlead).
  destruct (visit dr n st) as [[e|] st1]; simpl in *.
  - exists e. split; [done|]. by apply Herr.
  - apply elem_of_cons in Hin as [->|Hin]; [by destruct (Hlead Hc)|]. by apply IH.
Qed.

(** A closed parent chain among the requests makes cycle detection fail
    with [ErrCyclicDependency], whatever the order of the range. *)
Lemma detectCycles_closed_chain dr names :
  hasClosedChain dr → (∀ name, is_Some (dependsOn dr !! name) → is_Some (requests dr !! name)) →
  rangeKeys (requests dr) names →
  ∃ err, detectCycles None dr names = Some err ∧ errors_Is err ErrCyclicDependency = true.
Proof.
  intros [name Hc] Hnames Hr. simpl.
  destruct (detectCycles_loop_cyclic dr names name) as [err Herr].
  - apply (rangeKeys_elem _ _ _ Hr). apply Hnames. by apply closed_chain_has_parent.
  - by apply closed_chain_leads.
  - exists err. split; [done|]. by apply (detectCycles_loop_error dr names).
Qed.

(** And so does the computation of the execution order. *)
Lemma CalculateExecutionOrder_closed_chain dr names :
  hasClosedChain dr → (∀ name, is_Some (dependsOn dr !! name) → is_Some (requests dr !! name)) →
  rangeKeys (requests dr) names →
  ∃ err, CalculateExecutionOrder None dr names = (None, Some err) ∧
         errors_Is err ErrCyclicDependency = true.
Proof.
  intros [name Hc] Hnames Hr. unfold CalculateExecutionOrder.
  destruct (visitAll_cyclic dr names name (mkVisitState ∅ ∅ [])) as (err & Herr & His).
  - intros x Hx. simpl in Hx. set_solver.
  - apply (rangeKeys_elem _ _ _ Hr). apply Hnames. by apply closed_chain_has_parent.
  - by apply closed_chain_leads.
  - destruct (visitAll dr names _) as [e st]. simpl in Herr. subst e. by exists err.
Qed.

Lemma BuildRequestGraph_unknown config names :
  hasUnknownDependency config →
  ∃ err, (BuildRequestGraph None NewDependencyResolver config names).1 = Some err ∧
         errors_Is err ErrUnknownDependency = true.
Proof.
  intros (req & Hin & Hne & Hother). unfold BuildRequestGraph, buildDependencyMaps.
  destruct (buildDependencyMaps_loop_unknown (Requests config)
    (indexRequests NewDependencyResolver (Requests config))) as (err & Herr & His).
  { exists req. split; [done|]. split; [done|].
    apply eq_None_not_Some. rewrite indexRequests_lookup. simpl. rewrite lookup_empty.
    intros [[? [=]]|(other & Hino & Hn)]. by apply (Hother other). }
  destruct (buildDependencyMaps_loop _ _) as [e dr]. simpl in Herr. subst e.
  by exists err.
Qed.

Lemma BuildRequestGraph_closed_chain config dr names :
  recordedGraph config = (None, dr) → hasClosedChain dr →
  rangeKeys (requests dr) names →
  ∃ err, BuildRequestGraph None NewDependencyResolver config names = (Some err, dr) ∧
         errors_Is err ErrCyclicDependency = true.
Proof.
  intros Hrec Hc Hr. unfold BuildRequestGraph, buildDependencyMaps.
  unfold recordedGraph in Hrec. rewrite Hrec.
  destruct (detectCycles_closed_chain dr names) as (err & Herr & His); try done.
  { intros name. by apply recordedGraph_names with config. }
  rewrite Herr. by exists err.
Qed.

Lemma buildDependencyMaps_loop_exist reqs : ∀ dr dr',
  buildDependencyMaps_loop dr reqs = (None, dr') →
  (∀ req, req ∈ reqs → is_Some (requests dr !! Name req)) →
  dependenciesExist dr → dependenciesExist dr'.
Proof.
  induction reqs as [|req rest IH]; intros dr dr'; simpl.
  { by intros [= <-]. }
  intros Hloop Hnames Hex.
  assert (∀ r, r ∈ rest → is_Some (requests dr !! Name r)) as Hrest.
  { intros r Hr. apply Hnames. by apply list_elem_of_further. }
  destruct (negb _); [|by apply (IH dr)].
  destruct (requests dr !! DependsOn req) as [parentReq|] eqn:Hparent; [|done].
  apply IH in Hloop; [done|done|].
  intros name parent. simpl. rewrite lookup_insert_Some.
  intros [[<- <-]|[_ Hold]]; [|by apply Hex].
  split; [apply Hnames, list_elem_of_here|by rewrite Hparent].
Qed.

(** When graph building succeeds, the recorded dependencies exist and have
    no closed chain, so the execution order is a permutation of the
    request names. *)
Lemma BuildRequestGraph_ok config dr names :
  BuildRequestGraph None NewDependencyResolver config names = (None, dr) →
  rangeKeys (requests dr) names →
  dependenciesExist dr ∧ ¬ hasClosedChain dr.
Proof.
  unfold BuildRequestGraph, buildDependencyMaps.
  destruct (buildDependencyMaps_loop _ _) as [[e|] dr1] eqn:Hloop; [done|].
  intros [= Hdet <-] Hr. split.
  - apply (buildDependencyMaps_loop_exist _ _ _ Hloop).
    2:{ intros name parent. rewrite indexRequests_dependsOn. simpl.
        by rewrite lookup_empty. }
    intros req Hreq. apply indexRequests_lookup. right. by exists req.
  - intros Hc.
    destruct (detectCycles_closed_chain dr1 names Hc) as (err & Herr & _);
      [|done|simpl in *; congruence].
    intros name. by apply recordedGraph_names with config.
Qed.

End StructuralFacts.

(** ** Theorems: sequential batch execution *)

Section SequentialFacts.

Import engine.

Implicit Types (executor : Executor) (config : Config) (reqs pre post : list Request) (w : World).

(** The loop over a list is the loop over its front, then, unless that
    returned an error, the loop over the rest. *)
Lemma ExecuteBatchSequential_loop_app executor config pre : ∀ post w,
  ExecuteBatchSequential_loop executor config (pre ++ post) w =
  match ExecuteBatchSequential_loop executor config pre w with
  | (Some err, w1) => (Some err, w1)
  | (None, w1) => ExecuteBatchSequential_loop executor config post w1
  end.
Proof.
  induction pre as [|req pre IH]; intros post w.
  { simpl. by destruct (ExecuteBatchSequential_loop executor config post w) as [[e|] w1]. }
  cbn [app ExecuteBatchSequential_loop].
  destruct (ctx executor (now w)).
  { destruct (IgnoreFail config); [apply IH|done]. }
  destruct (executeConfigRequest executor config req w) as [res w1].
  destruct (resultCollector executor); [apply IH|].
  destruct res; [apply IH|]. destruct (IgnoreFail config); [apply IH|done].
Qed.

(** Without a collector and with [ignoreFail = false], a failing request
    ends the run: the error wraps the failure and no later request is
    sent. *)
Lemma ExecuteBatchSequential_stops_at_failure executor config pre req post w w1 w2 err :
  resultCollector executor = None → IgnoreFail config = false →
  ExecuteBatchSequential_loop executor config pre w = (None, w1) →
  ctx executor (now w1) = None →
  executeConfigRequest executor config req w1 = (inr err, w2) →
  ExecuteBatchSequential_loop executor config (pre ++ req :: post) w =
    (Some (Errorf_w "batch request failed" err), w2).
Proof.
  intros Hcol Hif Hpre Hctx Hreq.
  rewrite ExecuteBatchSequential_loop_app, Hpre.
  cbn [ExecuteBatchSequential_loop]. by rewrite Hctx, Hreq, Hcol, Hif.
Qed.

(** C2, at the failing input: with a collector set and [ignoreFail = false],
    the failure of [req2] is handed to the collector only; [req3] is sent
    and the run returns no error. *)
Theorem ExecuteBatchSequential_collector_hides_failure :
  let executor := mkExecutor (failingFor "req2") context_Background (Some appendReport) in
  let run := ExecuteBatchSequential executor (batchConfig false) newWorld in
  run.1 = None ∧
  Name <$> calls run.2 = ["req1"; "req2"; "req3"] ∧
  (rErr <$> reports run.2) !! 1 =
    Some (Some (Errorf_w "request execution failed" (External "connection refused"))).
Proof. vm_compute. done. Qed.

(** C3, at the failing input: the same configuration, client and context,
    run once without and once with a collector, give different errors and
    different transport calls. *)
Theorem ExecuteBatchSequential_collector_changes_run :
  let without := mkExecutor (failingFor "req2") context_Background None in
  let with_ := mkExecutor (failingFor "req2") context_Background (Some appendReport) in
  let run1 := ExecuteBatchSequential without (batchConfig false) newWorld in
  let run2 := ExecuteBatchSequential with_ (batchConfig false) newWorld in
  run1.1 = Some (Errorf_w "batch request failed"
                   (Errorf_w "request execution failed" (External "connection refused"))) ∧
  Name <$> calls run1.2 = ["req1"; "req2"] ∧
  run2.1 = None ∧
  Name <$> calls run2.2 = ["req1"; "req2"; "req3"].
Proof. vm_compute. done. Qed.

(** With [ignoreFail = true] and no collector the run goes past the failure
    and returns nil. *)
Example ExecuteBatchSequential_ignoreFail :
  let executor := mkExecutor (failingFor "req2") context_Background None in
  let run := ExecuteBatchSequential executor (batchConfig true) newWorld in
  run.1 = None ∧ Name <$> calls run.2 = ["req1"; "req2"; "req3"].
Proof. vm_compute. done. Qed.

End SequentialFacts.

(** ** Theorems: the chain executor *)

Section ChainFacts.

Import chain.

Implicit Types (c : Collaborators) (ctx : Ctx) (config : Config) (w : World).

(** Processing a request neither reads nor writes the collector's reports. *)
Lemma ProcessRequest_reports c ctx request config s cs r :
  ProcessRequest c ctx request config (mkWorld s cs r) =
  let '(res, w) := ProcessRequest c ctx request config (mkWorld s cs []) in
  (res, mkWorld (store w) (calls w) r).
Proof.
  unfold ProcessRequest, executeRequest, now. cbn [calls store reports].
  destruct (ctx (length cs)); [done|].
  destruct (prepareRequest (errAt ctx (length cs) 1) s request) as [prepared|err]; [|done].
  destruct (errAt ctx (length cs) 2); [done|].
  destruct (factory_CreateFromConfig c config prepared); [done|].
  destruct (client_Do c cs prepared) as [resp|err]; [|done].
  cbn [calls store reports].
  destruct (0 <? size (Extract prepared))%nat; [|done].
  destruct (extractor.ExtractVariables _ _ _ _) as [vars [err|]]; [done|].
  by destruct (storeVariables _ _ _) as [[[err|] r'] variables].
Qed.

Lemma processRequestByName_sameRun c collector ctx requestName requestMap executed config w1 w2 :
  sameRun w1 w2 →
  let run1 := processRequestByName (mkChainExecutor c collector) ctx requestName
                requestMap executed config w1 in
  let run2 := processRequestByName (mkChainExecutor c None) ctx requestName
                requestMap executed config w2 in
  run1.1 = run2.1 ∧ sameRun run1.2 run2.2.
Proof.
  destruct w1 as [s cs r1], w2 as [s2 cs2 r2]. intros [Hs Hc]. simpl in Hs, Hc. subst s2 cs2.
  unfold processRequestByName. cbn [chain.collab chain.resultCollector].
  destruct (decide (requestName ∈ executed)); [done|].
  rewrite (ProcessRequest_reports _ _ _ _ s cs r1), (ProcessRequest_reports _ _ _ _ s cs r2).
  destruct (ProcessRequest c ctx (requestMap !! requestName) config (mkWorld s cs []))
    as [res w].
  destruct (requestMap !! requestName) as [requestObj|]; [|done].
  destruct res as [result|err]; [by destruct collector|].
  destruct (IgnoreFail config); by destruct collector.
Qed.

Lemma executeRequestsInOrder_loop_sameRun c collector ctx order requestMap config :
  ∀ executed w1 w2, sameRun w1 w2 →
  let run1 := executeRequestsInOrder_loop (mkChainExecutor c collector) ctx order
                requestMap executed config w1 in
  let run2 := executeRequestsInOrder_loop (mkChainExecutor c None) ctx order
                requestMap executed config w2 in
  run1.1 = run2.1 ∧ sameRun run1.2 run2.2.
Proof.
  induction order as [|name rest IH]; intros executed w1 w2 Hsame; [done|].
  cbn [executeRequestsInOrder_loop].
  assert (now w1 = now w2) as Hnow by (unfold now; by destruct Hsame as [_ ->]).
  rewrite Hnow. destruct (ctx (now w2)); [done|].
  pose proof (processRequestByName_sameRun c collector ctx name requestMap executed
    config w1 w2 Hsame) as [Heq Hsame'].
  destruct (processRequestByName (mkChainExecutor c collector) _ _ _ _ _ _) as [[o1 e1] w1'].
  destruct (processRequestByName (mkChainExecutor c None) _ _ _ _ _ _) as [[o2 e2] w2'].
  simpl in Heq, Hsame'. injection Heq as <- <-.
  destruct o1 as [[err|]|]; [done| |done]. by apply IH.
Qed.

(** The chain executor runs the same requests, leaves the same store and
    returns the same outcome whether or not a collector is set. *)
Lemma Execute_collector_independent c collector ctx config names1 names2 w :
  let run1 := Execute (mkChainExecutor c collector) ctx config names1 names2 w in
  let run2 := Execute (mkChainExecutor c None) ctx config names1 names2 w in
  run1.1 = run2.1 ∧ sameRun run1.2 run2.2.
Proof.
  unfold Execute.
  destruct (dependency.BuildRequestGraph _ _ _ _) as [[err|] dr]; [done|].
  destruct (dependency.CalculateExecutionOrder _ _ _) as [order [err|]]; [done|].
  by apply executeRequestsInOrder_loop_sameRun.
Qed.

(** C6. Under a live context, on a fresh resolver and in whatever order the
    runtime ranges over the request map: (1) if some request depends on a
    name that no request has, graph building fails with
    [ErrUnknownDependency]; (2) if all dependencies are recorded and the
    recorded graph has a closed parent chain, graph building and the
    computation of the execution order both fail with
    [ErrCyclicDependency]; in both cases [Execute] returns the error of
    graph building, wrapped, and leaves the world as it was: no request is
    sent, no variable stored, nothing reported. *)
Theorem Execute_structural_failure (executor : ChainExecutor) ctx config names1 names2 w :
  ctx (now w) = None →
  (hasUnknownDependency config →
   ∃ err,
     (dependency.BuildRequestGraph None dependency.NewDependencyResolver config names1).1
       = Some err ∧
     errors_Is err ErrUnknownDependency = true ∧
     Execute executor ctx config names1 names2 w =
       (Returned (Some (Errorf_w "failed to build request dependency graph" err)), w))
  ∧
  (∀ dr, recordedGraph config = (None, dr) → hasClosedChain dr →
     rangeKeys (requests dr) names1 → rangeKeys (requests dr) names2 →
   ∃ err1 err2,
     dependency.BuildRequestGraph None dependency.NewDependencyResolver config names1
       = (Some err1, dr) ∧
     errors_Is err1 ErrCyclicDependency = true ∧
     dependency.CalculateExecutionOrder None dr names2 = (None, Some err2) ∧
     errors_Is err2 ErrCyclicDependency = true ∧
     Execute executor ctx config names1 names2 w =
       (Returned (Some (Errorf_w "failed to build request dependency graph" err1)), w)).
Proof.
  intros Hlive. split.
  - intros Hunk. destruct (BuildRequestGraph_unknown config names1 Hunk) as (err & Herr & His).
    exists err. split; [done|]. split; [done|].
    unfold Execute. rewrite Hlive.
    destruct (dependency.BuildRequestGraph _ _ _ _) as [e dr]. simpl in Herr. by subst e.
  - intros dr Hrec Hc Hr1 Hr2.
    destruct (BuildRequestGraph_closed_chain config dr names1 Hrec Hc Hr1) as (err1 & Hb & His1).
    destruct (CalculateExecutionOrder_closed_chain dr names2 Hc) as (err2 & Hcalc & His2);
      [|done|].
    { intros name. by apply recordedGraph_names with config. }
    exists err1, err2. do 4 (split; [done|]).
    unfold Execute. by rewrite Hlive, Hb.
Qed.

Lemma Execute_structural_failure_witness :
  ∃ err1 err2,
    dependency.BuildRequestGraph None dependency.NewDependencyResolver cyclicConfig ["A"; "B"; "C"]
      = (Some err1, (recordedGraph cyclicConfig).2) ∧
    errors_Is err1 ErrCyclicDependency = true ∧
    dependency.CalculateExecutionOrder None (recordedGraph cyclicConfig).2 ["C"; "A"; "B"]
      = (None, Some err2) ∧
    errors_Is err2 ErrCyclicDependency = true ∧
    chain.Execute (mkChainExecutor (failingFor "") None) context_Background cyclicConfig
      ["A"; "B"; "C"] ["C"; "A"; "B"] newWorld =
      (Returned (Some (Errorf_w "failed to build request dependency graph" err1)), newWorld).
Proof.
  refine (proj2 (Execute_structural_failure (mkChainExecutor (failingFor "") None)
    context_Background cyclicConfig ["A"; "B"; "C"] ["C"; "A"; "B"] newWorld _)
    (recordedGraph cyclicConfig).2 _ _ _ _).
  - reflexivity.
  - vm_compute. reflexivity.
  - exists "A". apply tc_l with "B"; [vm_compute; reflexivity|].
    apply tc_l with "C"; [vm_compute; reflexivity|].
    apply tc_once. vm_compute. reflexivity.
  - unfold rangeKeys. symmetry. apply permutations_Permutation. compute_done.
  - unfold rangeKeys. symmetry. apply permutations_Permutation. compute_done.
Defined.

Example Execute_unknown_dependency :
  ∃ err,
    chain.Execute (mkChainExecutor (failingFor "") None) context_Background danglingConfig
      ["req1"] ["req1"] newWorld = (Returned (Some err), newWorld) ∧
    errors_Is err ErrUnknownDependency = true.
Proof. eexists. split; vm_compute; reflexivity. Qed.

End ChainFacts.

(** ** Theorems: the worker pool *)

Section PoolFacts.

Import pool.

Variables (executor : engine.Executor) (config : Config).

Implicit Types (s : Pool) (a : action) (sched : list action) (ws : list workerState).

Lemma weight_insert ws i w w' :
  ws !! i = Some w →
  sum_list (workerWeight <$> <[i := w']> ws) + workerWeight w =
  sum_list (workerWeight <$> ws) + workerWeight w'.
Proof.
  revert i. induction ws as [|x ws IH]; intros [|i] Hi; simplify_eq/=; [lia|].
  specialize (IH i Hi). lia.
Qed.

(** Every move uses up weight: no schedule is longer than the weight of the
    state it starts in. *)
Lemma step_weight a s s' :
  step executor config a s = Some s' → weight s' < weight s.
Proof.
  unfold step, weight. destruct a as [| |i|i|i|c].
  - destruct (main s) as [[|req rest]| |]; intros [= <-]; simpl.
    rewrite length_app. simpl. lia.
  - destruct (main s) as [pending| |]; try done.
    destruct (_ || _); intros [= <-]; simpl. lia.
  - destruct (workers s !! i) as [[| |]|] eqn:Hi; try done.
    destruct (jobs s) as [|req rest] eqn:Hj; intros [= <-]; simpl.
    pose proof (weight_insert _ _ _ (Busy req) Hi). simpl in *. lia.
  - destruct (workers s !! i) as [[|req|]|] eqn:Hi; try done.
    destruct (engine.executeConfigRequest _ _ _ _) as [res w]. intros [= <-]; simpl.
    pose proof (weight_insert _ _ _ Idle Hi). simpl in *. lia.
  - destruct (workers s !! i) as [[| |]|] eqn:Hi; try done.
    destruct (_ || _); intros [= <-]; simpl.
    pose proof (weight_insert _ _ _ Exited Hi). simpl in *. lia.
  - destruct (main s); try done. destruct (forallb _ _); [|done].
    destruct c.
    + destruct (ctxErr executor s); intros [= <-]; simpl. lia.
    + destruct (errCh s); intros [= <-]; simpl. lia.
    + destruct (ctxErr executor s); [done|]. destruct (errCh s); intros [= <-]; simpl. lia.
Qed.

Lemma run_weight sched : ∀ s s',
  run executor config sched s = Some s' → length sched + weight s' ≤ weight s.
Proof.
  induction sched as [|a rest IH]; intros s s'; simpl.
  - intros [= <-]. lia.
  - destruct (step executor config a s) as [s1|] eqn:Hstep; [|done].
    intros Hrun%IH. apply step_weight in Hstep. lia.
Qed.

Lemma not_all_exited ws :
  forallb isExited ws = false →
  ∃ i, ws !! i = Some Idle ∨ ∃ req, ws !! i = Some (Busy req).
Proof.
  induction ws as [|w ws IH]; simpl; [done|].
  destruct w as [|req|]; simpl.
  - intros _. exists 0. by left.
  - intros _. exists 0. right. by exists req.
  - intros (i & Hi)%IH. by exists (S i).
Qed.

(** No deadlock: a state in which the caller has not returned has an
    enabled move. *)
Lemma progress s :
  (∃ err, main s = Finished err) ∨ ∃ a s', step executor config a s = Some s'.
Proof.
  destruct (main s) as [[|req rest]| |err] eqn:Hmain; [..|left; by exists err]; right.
  - exists Close. unfold step. rewrite Hmain. simpl. eauto.
  - exists Send. unfold step. rewrite Hmain. eauto.
  - destruct (forallb isExited (workers s)) eqn:Hall.
    + destruct (ctxErr executor s) as [e|] eqn:Hctx.
      { exists (Return CaseCtxDone). unfold step. rewrite Hmain, Hall, Hctx. eauto. }
      destruct (errCh s) as [e|] eqn:Herr.
      { exists (Return CaseErrCh). unfold step. rewrite Hmain, Hall, Herr. eauto. }
      exists (Return CaseDefault). unfold step. rewrite Hmain, Hall, Hctx, Herr. eauto.
    + apply not_all_exited in Hall as (i & [Hi|(req & Hi)]).
      * destruct (jobs s) as [|req rest] eqn:Hj.
        -- exists (Exit i). unfold step, closed. rewrite Hi, Hmain, Hj. simpl.
           rewrite orb_true_r. eauto.
        -- exists (Take i). unfold step. rewrite Hi, Hj. eauto.
      * exists (Finish i). unfold step. rewrite Hi.
        destruct (engine.executeConfigRequest _ _ _ _). eauto.
Qed.

(** Every state can be run to the caller's return. *)
Lemma completion s :
  ∃ sched s' err, run executor config sched s = Some s' ∧ main s' = Finished err.
Proof.
  remember (weight s) as n eqn:Hn. revert s Hn.
  induction n as [n IH] using lt_wf_ind. intros s ->.
  destruct (progress s) as [[err Herr]|(a & s1 & Hstep)].
  - exists [], s, err. done.
  - destruct (IH (weight s1) (step_weight _ _ _ Hstep) s1 eq_refl)
      as (sched & s' & err & Hrun & Hfin).
    exists (a :: sched), s', err. simpl. by rewrite Hstep.
Qed.

Lemma all_exited_lookup ws i w :
  forallb isExited ws = true → ws !! i = Some w → w = Exited.
Proof.
  revert i. induction ws as [|x ws IH]; intros [|i]; simpl; try done.
  - intros Hall [= <-]. by destruct x.
  - intros [_ Hall]%andb_true_iff. by apply IH.
Qed.

Lemma step_settled a s s' :
  settled executor config s → step executor config a s = Some s' →
  settled executor config s'.
Proof.
  intros Hs Hstep err Hfin. unfold step in Hstep. destruct a as [| |i|i|i|c].
  - destruct (main s) as [[|req rest]| |]; simplify_eq/=.
  - destruct (main s) as [pending| |]; try done. destruct (_ || _); simplify_eq/=.
  - destruct (workers s !! i) as [[| |]|] eqn:Hi; try done.
    destruct (jobs s) as [|req rest]; simplify_eq/=.
    destruct (Hs _ Hfin) as [Hall _]. by pose proof (all_exited_lookup _ _ _ Hall Hi).
  - destruct (workers s !! i) as [[|req|]|] eqn:Hi; try done.
    destruct (engine.executeConfigRequest _ _ _ _) as [res w]. simplify_eq/=.
    destruct (Hs _ Hfin) as [Hall _]. by pose proof (all_exited_lookup _ _ _ Hall Hi).
  - destruct (workers s !! i) as [[| |]|] eqn:Hi; try done.
    destruct (_ || _); simplify_eq/=.
    destruct (Hs _ Hfin) as [Hall _]. by pose proof (all_exited_lookup _ _ _ Hall Hi).
  - destruct (main s); try done. destruct (forallb _ _) eqn:Hall; [|done].
    destruct c.
    + destruct (ctxErr executor s) eqn:Hctx; simplify_eq/=. split; [done|].
      intros _. unfold ctxErr in *. simpl. congruence.
    + destruct (errCh s); simplify_eq/=. split; [done|]. by intros ->.
    + destruct (ctxErr executor s); [done|]. destruct (errCh s); simplify_eq/=. done.
Qed.

Lemma run_settled sched : ∀ s s',
  settled executor config s → run executor config sched s = Some s' →
  settled executor config s'.
Proof.
  induction sched as [|a rest IH]; intros s s' Hs; simpl.
  - by intros [= <-].
  - destruct (step executor config a s) as [s1|] eqn:Hstep; [|done].
    apply IH. by apply step_settled with a s.
Qed.

Lemma start_settled w : settled executor config (start executor config w).
Proof. intros err Hfin. simpl in Hfin. done. Qed.

End PoolFacts.

(** C8. With [ignoreFail = true], under every interleaving of the caller and
    the workers and whatever the client answers: a run of
    [ExecuteBatchConcurrent] that returns while the context is not done
    returns nil. And the call does return: every partial run can be
    continued to the caller's return, and no run is longer than the weight
    of the start state. *)
Theorem ExecuteBatchConcurrent_ignoreFail_returns_nil
    (executor : engine.Executor) (config : Config) (w : World) :
  IgnoreFail config = true →
  (∀ sched s err,
     pool.run executor config sched (pool.start executor config w) = Some s →
     pool.main s = pool.Finished err →
     pool.ctxErr executor s = None →
     err = None)
  ∧
  (∀ sched s,
     pool.run executor config sched (pool.start executor config w) = Some s →
     ∃ sched' s' err,
       pool.run executor config sched' s = Some s' ∧ pool.main s' = pool.Finished err)
  ∧
  (∀ sched s,
     pool.run executor config sched (pool.start executor config w) = Some s →
     length sched ≤ pool.weight (pool.start executor config w)).
Proof.
  intros Hif. split; [|split].
  - intros sched s err Hrun Hfin Hctx.
    pose proof (run_settled executor config sched _ _ (start_settled executor config w) Hrun)
      as Hs.
    destruct (Hs err Hfin) as [_ Hnil]. by apply Hnil.
  - intros sched s _. apply completion.
  - intros sched s Hrun%run_weight. lia.
Qed.

Lemma ExecuteBatchConcurrent_ignoreFail_returns_nil_witness :
  ∃ s err,
    pool.run (engine.mkExecutor failingAll context_Background (Some appendReport))
      (batchConfig true) overlappingSchedule
      (pool.start (engine.mkExecutor failingAll context_Background (Some appendReport))
         (batchConfig true) newWorld) = Some s ∧
    pool.main s = pool.Finished err ∧
    Name <$> calls (pool.world s) = ["req2"; "req1"; "req3"] ∧
    err = None.
Proof.
  eexists _, _. split; [vm_compute; reflexivity|]. split; [reflexivity|].
  split; [reflexivity|].
  eapply (proj1 (ExecuteBatchConcurrent_ignoreFail_returns_nil
    (engine.mkExecutor failingAll context_Background (Some appendReport))
    (batchConfig true) newWorld eq_refl) overlappingSchedule).
  - vm_compute. reflexivity.
  - reflexivity.
  - reflexivity.
Defined.

(** Without [ignoreFail] the captured error comes back. *)
Example ExecuteBatchConcurrent_reports_first_error :
  pool.ExecuteBatchConcurrent (engine.mkExecutor failingAll context_Background None)
    (batchConfig false) newWorld
    (Some (Errorf_w "batch request failed"
       (Errorf_w "request execution failed" (External "connection refused"))))
    (mkWorld NewVariableResolver
       [plainRequest "req2" ""; plainRequest "req1" ""; plainRequest "req3" ""] []).
Proof.
  exists (removelast overlappingSchedule ++ [pool.Return pool.CaseErrCh]).
  eexists. split; [vm_compute; reflexivity|]. split; reflexivity.
Qed.

(** ** Further theorems: package rule *)

Section RuleMore.

Import rule.

Implicit Types (c : Config) (req : Request) (reqs : list Request) (nameSet : gmap string bool).

Lemma validateRequestBody_None req :
  validateRequestBody req = None ↔ atMostOneBody req.
Proof.
  unfold validateRequestBody, atMostOneBody.
  destruct (isNonEmptyStringPtr (JsonBody req)), (isNonEmptyStringPtr (FormBody req)),
    (isNonEmptyStringPtr (RawBody req)); simpl; split; try done; naive_solver.
Qed.

Lemma validateRequest_None req i nameSet nameSet' :
  validateRequest req i nameSet = (None, nameSet') ↔
  (Name req ≠ "" ∧ Method req ≠ "" ∧ Path req ≠ "" ∧ atMostOneBody req) ∧
  getb nameSet (Name req) = false ∧ nameSet' = <[Name req := true]> nameSet.
Proof.
  unfold validateRequest, validateRequestName, validateRequestBasics.
  rewrite <- validateRequestBody_None.
  case_bool_decide as Hn.
  { split; [done|]. by intros ((? & _) & _). }
  destruct (getb nameSet (Name req)) eqn:Hg.
  { split; [done|]. by intros (_ & ? & _). }
  case_bool_decide as Hm.
  { split; [done|]. by intros ((_ & ? & _) & _). }
  case_bool_decide as Hp.
  { split; [done|]. by intros ((_ & _ & ? & _) & _). }
  destruct (validateRequestBody req) eqn:Hb.
  { split; [done|]. by intros ((_ & _ & _ & ?) & _). }
  split.
  - by intros [= <-].
  - by intros (_ & _ & ->).
Qed.

Lemma getb_insert_true nameSet name k :
  getb (<[name := true]> nameSet) k = false ↔ name ≠ k ∧ getb nameSet k = false.
Proof.
  unfold getb. destruct (decide (name = k)) as [->|Hne].
  - rewrite lookup_insert_eq. simpl. naive_solver.
  - rewrite lookup_insert_ne by done. naive_solver.
Qed.

Lemma validateRequests_loop_None reqs : ∀ i nameSet,
  validateRequests_loop reqs i nameSet = None ↔
  Forall (λ req, Name req ≠ "" ∧ Method req ≠ "" ∧ Path req ≠ "" ∧ atMostOneBody req) reqs ∧
  NoDup (Name <$> reqs) ∧
  (∀ req, req ∈ reqs → getb nameSet (Name req) = false).
Proof.
  induction reqs as [|req rest IH]; intros i nameSet.
  { simpl. split; [|done]. intros _. split; [constructor|]. split; [constructor|].
    intros req Hin. by apply elem_of_nil in Hin. }
  cbn [validateRequests_loop]. rewrite fmap_cons, Forall_cons, NoDup_cons.
  destruct (validateRequest req i nameSet) as [[err|] ns] eqn:Hv.
  - split; [done|]. intros ((Hok & _) & _ & Hfresh). exfalso.
    assert (validateRequest req i nameSet = (None, <[Name req := true]> nameSet)) as Hn.
    { apply validateRequest_None. split; [done|]. split; [|done].
      apply Hfresh. apply list_elem_of_here. }
    congruence.
  - apply validateRequest_None in Hv as (Hok & Hfresh & ->). rewrite IH. split.
    + intros (Hall & Hnd & Hrest). split; [done|]. split.
      * split; [|done]. intros (r & Hr & Hin)%list_elem_of_fmap.
        apply Hrest in Hin. apply getb_insert_true in Hin as [Hne _]. congruence.
      * intros r [->|Hin]%elem_of_cons; [done|].
        apply Hrest in Hin. by apply getb_insert_true in Hin as [_ ?].
    + intros ((_ & Hall) & (Hnotin & Hnd) & Hrest). split; [done|]. split; [done|].
      intros r Hin. apply getb_insert_true. split.
      * intros Heq. apply Hnotin. apply list_elem_of_fmap. by exists r.
      * apply Hrest. by apply list_elem_of_further.
Qed.

(** X1. [Validate] accepts a configuration exactly when the base URL is not
    empty, there is at least one request, the request names are not empty
    and pairwise different, every request has a method and a path, and no
    request has more than one non-empty body variant. *)
Theorem Validate_accepts_iff_wellFormed c :
  Validate c = None ↔ wellFormed c.
Proof.
  unfold Validate, validateBaseConfig, validateRequests, wellFormed.
  case_bool_decide as Hb; [split; [done|naive_solver]|].
  case_bool_decide as Hl.
  { split; [done|]. intros (_ & Hne & _). by destruct (Requests c). }
  rewrite validateRequests_loop_None. split.
  - intros (Hall & Hnd & _). split; [done|]. split; [|done]. intros Hnil.
    rewrite Hnil in Hl. done.
  - intros (_ & _ & Hnd & Hall). split; [done|]. split; [done|]. intros req _.
    unfold getb. by rewrite lookup_empty.
Qed.

Lemma validateRequests_loop_rewire f reqs : ∀ i nameSet,
  validateRequests_loop ((λ req, withDependsOn req (f req)) <$> reqs) i nameSet =
  validateRequests_loop reqs i nameSet.
Proof.
  induction reqs as [|req rest IH]; intros i nameSet; [done|].
  rewrite fmap_cons. cbn [validateRequests_loop].
  change (validateRequest (withDependsOn req (f req)) i nameSet)
    with (validateRequest req i nameSet).
  destruct (validateRequest req i nameSet) as [[err|] ns]; [done|]. apply IH.
Qed.

(** X2. [Validate] never looks at the dependencies: replacing the
    [dependsOn] of every request by anything else (a name no request has,
    a closed chain) leaves its result, error message included, as it was. *)
Theorem Validate_ignores_dependsOn (f : Request → string) c :
  Validate (rewire f c) = Validate c.
Proof.
  unfold Validate, validateBaseConfig, validateRequests, rewire. cbn [BaseUrl Requests].
  rewrite length_fmap. by rewrite validateRequests_loop_rewire.
Qed.

End RuleMore.

(** ** Further theorems: the variable resolver *)

Section ResolverMore.

Import regexp resolver.

Implicit Types (r : DefaultVariableResolver) (input src m v name value : string).

(** X3. [Set] and [Get]: an empty name is refused with
    [ErrEmptyVariableName] and the store stays as it was; any other name is
    stored, [Get] then finds the value just set (the last one set wins) and
    every other name reads as before. *)
Theorem Set_then_Get r name value :
  (name = "" → Set_ r name value = (Some (Sentinel ErrEmptyVariableName), r)) ∧
  (name ≠ "" →
     (Set_ r name value).1 = None ∧
     Get (Set_ r name value).2 name = (value, true) ∧
     ∀ other, other ≠ name → Get (Set_ r name value).2 other = Get r other).
Proof.
  unfold Set_, Get. split.
  - intros ->. done.
  - intros Hne. rewrite bool_decide_false by done. simpl.
    split; [done|]. split; [by rewrite lookup_insert_eq|].
    intros other Ho. by rewrite lookup_insert_ne.
Qed.

Lemma replaceFrom_ext_in fuel : ∀ src (f g : string → string),
  (∀ m, m ∈ findFrom fuel src → f m = g m) →
  replaceFrom fuel src f = replaceFrom fuel src g.
Proof.
  induction fuel as [|fuel IH]; intros src f g Hfg; simpl in *; [done|].
  destruct (matchHere src) as [[m after]|].
  - rewrite (Hfg m) by apply list_elem_of_here. f_equal. apply IH.
    intros m' Hm'. apply Hfg. by apply list_elem_of_further.
  - destruct src as [|c rest]; [done|]. f_equal. by apply IH.
Qed.

Lemma replaceFrom_id fuel : ∀ src, replaceFrom fuel src (λ m, m) = src.
Proof.
  induction fuel as [|fuel IH]; intros src; simpl; [done|].
  destruct (matchHere src) as [[m after]|] eqn:Hm.
  - rewrite IH. by apply matchHere_Some in Hm as (name & _ & _ & _ & ->).
  - destruct src as [|c rest]; [done|]. by rewrite IH.
Qed.

(** X4. When none of the tokens [${name}] that the pattern finds in the
    input names a stored variable, [Resolve] returns the input unchanged;
    in particular an empty store resolves every input to itself. *)
Theorem Resolve_unknown_tokens_unchanged r input :
  (∀ m, m ∈ FindAllString input → values r !! extractVariableName m = None) →
  Resolve r input = input.
Proof.
  intros Hunknown. rewrite Resolve_eq. unfold ReplaceAllStringFunc.
  rewrite (replaceFrom_ext_in _ _ _ (λ m, m)); [apply replaceFrom_id|].
  intros m Hm. unfold resolveVariable. cbv zeta. by rewrite (Hunknown m Hm).
Qed.

Lemma Resolve_unknown_tokens_unchanged_witness :
  resolver.Resolve NewVariableResolver "GET /users/${id}?t=${token}" =
  "GET /users/${id}?t=${token}".
Proof.
  apply (Resolve_unknown_tokens_unchanged NewVariableResolver "GET /users/${id}?t=${token}").
  intros m _. apply lookup_empty.
Defined.

(** X5. A token whose variable is stored with a value free of references
    is replaced by the first 1000 bytes of that value, and resolution goes
    on behind the token. *)
Theorem Resolve_plain_value r pre name post v :
  "$"%char ∉ list_ascii_of_string pre →
  name ≠ "" →
  "}"%char ∉ list_ascii_of_string name →
  values r !! name = Some v →
  ¬ containsVariableRef (substring 0 maxVariableValueLength v) →
  Resolve r (pre +:+ "${" +:+ name +:+ "}" +:+ post) =
    pre +:+ substring 0 maxVariableValueLength v +:+ Resolve r post.
Proof.
  intros Hpre Hne Hn Hv Hplain. rewrite !Resolve_eq.
  rewrite ReplaceAllStringFunc_token by done. do 2 f_equal.
  rewrite resolveVariable_by_depth, extractVariableName_token, Hv by done.
  rewrite decide_True by (unfold maxVariableRecursionDepth; lia).
  apply replaceFrom_no_match. intros p t Heq.
  destruct (matchHere t) as [[m after]|] eqn:Hm; [|done].
  destruct Hplain. apply matchHere_Some in Hm as (n & Hn1 & Hn2 & -> & ->).
  exists p, n, after. rewrite Heq. by rewrite !str_app_assoc.
Qed.

Lemma no_dollar_no_reference s :
  "$"%char ∉ list_ascii_of_string s → ¬ containsVariableRef s.
Proof.
  intros Hno (pre & name & post & _ & _ & ->). apply Hno. clear.
  induction pre as [|c pre IH].
  - rewrite str_app_nil_l. change ("${" +:+ name +:+ "}" +:+ post)
      with (String "$" (String "{" (name +:+ "}" +:+ post))).
    simpl. apply list_elem_of_here.
  - rewrite str_app_cons. simpl. by apply list_elem_of_further.
Qed.

Lemma Resolve_plain_value_witness :
  resolver.Resolve (mkResolver {["token" := "abc123"]})
    ("Authorization: Bearer " +:+ "${" +:+ "token" +:+ "}" +:+ "") =
  "Authorization: Bearer " +:+ substring 0 maxVariableValueLength "abc123" +:+
    resolver.Resolve (mkResolver {["token" := "abc123"]}) "".
Proof.
  apply (Resolve_plain_value (mkResolver {["token" := "abc123"]})
    "Authorization: Bearer " "token" "" "abc123").
  - compute_done.
  - discriminate.
  - compute_done.
  - reflexivity.
  - apply no_dollar_no_reference. compute_done.
Defined.

(** X6. [ResolveBody] hands a nil body back as nil and never returns more
    than 10000 bytes (ten times the limit of a variable value), whatever the
    store substitutes. *)
Theorem ResolveBody_bounded r (body : option string) :
  match ResolveBody r body with
  | None => body = None
  | Some resolved =>
      body ≠ None ∧
      String.length resolved ≤ maxVariableValueLength * maxBodySizeMultiplier
  end.
Proof.
  unfold ResolveBody. destruct body as [b|]; [|done].
  case_bool_decide as Hb.
  { subst b. split; [done|]. simpl. lia. }
  cbv zeta. destruct (_ <? _) eqn:Hlt.
  - split; [done|]. rewrite substring_0_length. lia.
  - split; [done|]. by apply Nat.ltb_ge in Hlt.
Qed.

End ResolverMore.

(** ** Further theorems: the variable extractor *)

Section ExtractorMore.

Import extractor.

Variable ve : JSONExtractor.

Implicit Types (pairs : list (string * string)) (resp : option Response).

Lemma extractLoop_map_or_error ctxErr jsonString pairs : ∀ variables,
  (extractLoop ve ctxErr jsonString pairs variables).1 = None ↔
  is_Some (extractLoop ve ctxErr jsonString pairs variables).2.
Proof.
  induction pairs as [|[k path] rest IH]; intros variables.
  { simpl. split; [done|]. by intros [? ?]. }
  cbn [extractLoop]. destruct ctxErr as [err|]; [simpl; by eauto|].
  destruct (Extract_ ve jsonString path) as [value ex]. destruct ex; simpl.
  - apply IH.
  - by eauto.
Qed.

(** X7. [ExtractVariables] returns either a map and no error, or an error
    and the nil map, never both and never neither: for every context state,
    response, extractor and extraction map. *)
Theorem ExtractVariables_map_or_error ctxErr resp pairs :
  (ExtractVariables ve ctxErr resp pairs).1 = None ↔
  is_Some (ExtractVariables ve ctxErr resp pairs).2.
Proof.
  unfold ExtractVariables. destruct ctxErr as [err|]; [simpl; by eauto|].
  destruct resp as [resp|]; [|simpl; by eauto].
  destruct (readResponseBody (Some resp)) as [body [err|]]; [simpl; by eauto|].
  apply extractLoop_map_or_error.
Qed.

(** X8. A response that cannot be read yields no variables, whatever the
    extraction map asks for: a nil response or a nil body gives
    [ErrNilResponse], a body whose reading fails gives
    [ErrReadResponseBody], and a body longer than 10 MiB gives
    [ErrResponseTooLarge]. *)
Theorem ExtractVariables_unreadable_response (status : Z) pairs :
  (ExtractVariables ve None None pairs = (None, Some (Sentinel ErrNilResponse))) ∧
  (∃ err, ExtractVariables ve None (Some (mkResponse status None)) pairs = (None, Some err) ∧
          errors_Is err ErrNilResponse = true) ∧
  (∃ err, ExtractVariables ve None (Some (mkResponse status (Some BodyBroken))) pairs
            = (None, Some err) ∧
          errors_Is err ErrReadResponseBody = true) ∧
  (∀ data, (maxResponseBodySize < Z.of_nat (String.length data))%Z →
     ∃ err, ExtractVariables ve None (Some (mkResponse status (Some (BodyBytes data)))) pairs
              = (None, Some err) ∧
            errors_Is err ErrResponseTooLarge = true).
Proof.
  split; [done|]. split; [by eexists|]. split; [by eexists|].
  intros data Hlong. unfold ExtractVariables, readResponseBody. cbn [Body].
  apply Z.ltb_lt in Hlong. rewrite Hlong. by eexists.
Qed.

End ExtractorMore.

(** ** Further theorems: the dependency resolver *)

Section DependencyMore.

Import dependency.

Implicit Types (dr : DependencyResolver) (name nodeName : string) (vis : gset string)
  (st : visitState) (names : list string) (reqs : list Request).

(** *** [hasCycle] *)

Lemma hasCycle_fuel_restores dr f : ∀ nodeName vis r,
  hasCycle_fuel f dr nodeName vis = Some r → r.1 = false → r.2 = vis.
Proof.
  induction f as [|f IH]; intros n vis r; simpl; [done|].
  destruct (decide (n ∈ vis)) as [Hin|Hnin]; [by intros [= <-]|].
  destruct (dependsOn dr !! n) as [dep|]; [|by intros [= <-]].
  destruct (hasCycle_fuel f dr dep _) as [[b v]|] eqn:Hrec; [|done].
  destruct b; intros [= <-]; [done|]. intros _. simpl.
  pose proof (IH _ _ _ Hrec eq_refl) as Hv. simpl in Hv. subst v. set_solver.
Qed.

Lemma hasCycle_fuel_sound dr f : ∀ nodeName vis r,
  (∀ v, v ∈ vis → tc (parentOf dr) v nodeName) →
  hasCycle_fuel f dr nodeName vis = Some r → r.1 = true → leadsToCycle dr nodeName.
Proof.
  induction f as [|f IH]; intros n vis r Hvis; simpl; [done|].
  destruct (decide (n ∈ vis)) as [Hin|Hnin].
  { intros _ _. exists n. split; [apply rtc_refl|by apply Hvis]. }
  destruct (dependsOn dr !! n) as [dep|] eqn:Hdep; [|by intros [= <-]].
  destruct (hasCycle_fuel f dr dep _) as [[b v]|] eqn:Hrec; [|done].
  destruct b; intros [= <-]; [|done]. intros _.
  assert (∀ v', v' ∈ {[n]} ∪ vis → tc (parentOf dr) v' dep) as Hvis'.
  { intros v' [->%elem_of_singleton|Hv]%elem_of_union.
    - by apply tc_once.
    - eapply tc_r; [by apply Hvis|done]. }
  destruct (IH _ _ _ Hvis' Hrec eq_refl) as (c & Hdc & Hcc).
  exists c. split; [|done]. by eapply rtc_l.
Qed.

Lemma hasCycle_sound dr nodeName :
  (hasCycle dr nodeName ∅).1 = true → leadsToCycle dr nodeName.
Proof.
  apply (hasCycle_fuel_sound dr (S (size (dom (dependsOn dr) ∖ ∅))) nodeName ∅).
  - intros v Hv. by apply elem_of_empty in Hv.
  - apply hasCycle_fuel_total. lia.
Qed.

(** X9. Started with an empty [visited] map, [hasCycle] reports a cycle
    exactly when the chain of dependencies that starts at [nodeName] runs
    into a closed chain. *)
Theorem hasCycle_iff_leadsToCycle dr nodeName :
  (hasCycle dr nodeName ∅).1 = true ↔ leadsToCycle dr nodeName.
Proof.
  split; [apply hasCycle_sound|apply hasCycle_cyclic].
Qed.

(** X10. When [hasCycle] reports no cycle it has removed every mark it
    made: the [visited] map is as it was before the call. *)
Theorem hasCycle_false_restores_visited dr nodeName vis :
  (hasCycle dr nodeName vis).1 = false → (hasCycle dr nodeName vis).2 = vis.
Proof.
  apply (hasCycle_fuel_restores dr (S (size (dom (dependsOn dr) ∖ vis))) nodeName vis).
  apply hasCycle_fuel_total. lia.
Qed.

Lemma hasCycle_false_restores_visited_witness :
  (hasCycle chainGraph "A2" {["x"]}).2 = {["x"]}.
Proof.
  apply (hasCycle_false_restores_visited chainGraph "A2" {["x"]}).
  vm_compute. reflexivity.
Defined.

(** *** [BuildRequestGraph] *)

Lemma buildDependencyMaps_loop_error reqs : ∀ dr err,
  (buildDependencyMaps_loop dr reqs).1 = Some err →
  errors_Is err ErrUnknownDependency = true ∧
  ∃ req, req ∈ reqs ∧ DependsOn req ≠ "" ∧ requests dr !! DependsOn req = None.
Proof.
  induction reqs as [|req rest IH]; intros dr err; simpl; [done|].
  destruct (bool_decide (DependsOn req = "")) eqn:Hd; simpl.
  - intros (Hu & req' & Hin & Hne & Hnone)%IH. split; [done|].
    exists req'. split; [by apply list_elem_of_further|done].
  - apply bool_decide_eq_false in Hd.
    destruct (requests dr !! DependsOn req) eqn:Hlook.
    + intros (Hu & req' & Hin & Hne & Hnone)%IH. split; [done|].
      exists req'. split; [by apply list_elem_of_further|done].
    + simpl. intros [= <-]. split; [done|].
      exists req. split; [apply list_elem_of_here|done].
Qed.

Lemma detectCycles_loop_sound dr names :
  is_Some (detectCycles_loop dr names) → hasClosedChain dr.
Proof.
  induction names as [|n rest IH]; simpl; [by intros [? ?]|].
  destruct (hasCycle dr n ∅).1 eqn:Hn; [|done].
  intros _. apply hasCycle_sound in Hn as (c & _ & Hc). by exists c.
Qed.

(** X11. Graph building on a fresh resolver under a live context, sorted
    by outcome. It returns nil only if no request depends on an unknown
    name, and then the recorded graph has no closed chain and every
    dependency is a request. It returns [ErrUnknownDependency] only if some
    request depends on an unknown name, and [ErrCyclicDependency] only if
    none does and the recorded graph has a closed chain. No other error is
    returned. *)
Theorem BuildRequestGraph_outcome config names :
  rangeKeys (requests (indexRequests NewDependencyResolver (Requests config))) names →
  let built := BuildRequestGraph None NewDependencyResolver config names in
  match built.1 with
  | None =>
      ¬ hasUnknownDependency config ∧ dependenciesExist built.2 ∧ ¬ hasClosedChain built.2
  | Some err =>
      (hasUnknownDependency config ∧ errors_Is err ErrUnknownDependency = true) ∨
      (¬ hasUnknownDependency config ∧ hasClosedChain built.2 ∧
       errors_Is err ErrCyclicDependency = true)
  end.
Proof.
  intros Hr built.
  assert (built =
    match recordedGraph config with
    | (Some err, dr) => (Some err, dr)
    | (None, dr) => (detectCycles_loop dr names, dr)
    end) as Hbuilt by done.
  pose proof (buildDependencyMaps_loop_requests (Requests config)
    (indexRequests NewDependencyResolver (Requests config))) as Hreq.
  fold (recordedGraph config) in Hreq.
  destruct (recordedGraph config) as [[err|] dr] eqn:Hrec.
  - rewrite Hbuilt. simpl. left.
    pose proof (buildDependencyMaps_loop_error (Requests config)
      (indexRequests NewDependencyResolver (Requests config)) err) as Herr.
    fold (recordedGraph config) in Herr. rewrite Hrec in Herr.
    destruct (Herr eq_refl) as (Hu & req & Hin & Hne & Hnone). split; [|done].
    exists req. split; [done|]. split; [done|]. intros other Hother Hname.
    assert (is_Some (requests (indexRequests NewDependencyResolver (Requests config))
                       !! DependsOn req)) as Hs.
    { apply indexRequests_lookup. right. by exists other. }
    rewrite Hnone in Hs. by destruct Hs.
  - assert (¬ hasUnknownDependency config) as Hknown.
    { intros Hu. destruct (BuildRequestGraph_unknown config names Hu) as (e & He & _).
      fold built in He. rewrite Hbuilt in He. simpl in He.
      destruct (BuildRequestGraph_unknown config [] Hu) as (e' & He' & Hk).
      change (BuildRequestGraph None NewDependencyResolver config []) with
        (match recordedGraph config with
         | (Some err, dr) => (Some err, dr)
         | (None, dr) => (detectCycles_loop dr [], dr)
         end) in He'.
      rewrite Hrec in He'. done. }
    simpl in Hreq. rewrite <- Hreq in Hr.
    destruct (detectCycles_loop dr names) as [err|] eqn:Hdet; rewrite Hbuilt; simpl.
    + right. split; [done|]. split.
      * apply (detectCycles_loop_sound dr names). by rewrite Hdet.
      * by apply (detectCycles_loop_error dr names).
    + split; [done|]. apply (BuildRequestGraph_ok config dr names); [|done].
      fold built. by rewrite Hbuilt.
Qed.

Lemma BuildRequestGraph_outcome_witness :
  let built := BuildRequestGraph None NewDependencyResolver chainConfig ["A1"; "A2"; "root"] in
  match built.1 with
  | None =>
      ¬ hasUnknownDependency chainConfig ∧ dependenciesExist built.2 ∧ ¬ hasClosedChain built.2
  | Some err =>
      (hasUnknownDependency chainConfig ∧ errors_Is err ErrUnknownDependency = true) ∨
      (¬ hasUnknownDependency chainConfig ∧ hasClosedChain built.2 ∧
       errors_Is err ErrCyclicDependency = true)
  end.
Proof.
  apply (BuildRequestGraph_outcome chainConfig ["A1"; "A2"; "root"]).
  unfold rangeKeys. vm_compute. reflexivity.
Defined.

(** *** The two dependency maps *)

Lemma buildDependencyMaps_loop_agree reqs : ∀ dr dr',
  buildDependencyMaps_loop dr reqs = (None, dr') →
  NoDup (Name <$> reqs) →
  (∀ req, req ∈ reqs → dependsOn dr !! Name req = None) →
  mapsAgree dr → mapsAgree dr'.
Proof.
  induction reqs as [|req rest IH]; intros dr dr'; simpl.
  { by intros [= <-]. }
  intros Hloop [Hfresh Hnd]%NoDup_cons Hnone Hagree.
  assert (∀ other, other ∈ rest → Name other ≠ Name req) as Hother.
  { intros other Hin Heq. apply Hfresh. rewrite <- Heq. apply list_elem_of_fmap. by exists other. }
  destruct (bool_decide (DependsOn req = "")); simpl in Hloop.
  { apply (IH dr dr'); try done. intros other Hin. apply Hnone. by apply list_elem_of_further. }
  destruct (requests dr !! DependsOn req); [|done].
  apply IH in Hloop; try done.
  - intros other Hin. simpl. rewrite lookup_insert_ne by (symmetry; by apply Hother).
    apply Hnone. by apply list_elem_of_further.
  - intros child parent. simpl.
    destruct (decide (parent = DependsOn req)) as [->|Hp].
    + rewrite lookup_insert_eq. simpl. rewrite elem_of_app, list_elem_of_singleton.
      destruct (decide (child = Name req)) as [->|Hc].
      * rewrite lookup_insert_eq. split; [done|by right].
      * rewrite lookup_insert_ne by done. rewrite (Hagree child (DependsOn req)).
        split; [by intros [?|?]|by left].
    + rewrite lookup_insert_ne by done. rewrite (Hagree child parent).
      destruct (decide (child = Name req)) as [->|Hc].
      * rewrite lookup_insert_eq. rewrite Hnone by apply list_elem_of_here.
        split; [done|]. intros [= ?]. done.
      * by rewrite lookup_insert_ne by done.
Qed.

Lemma indexRequests_dependencies reqs : ∀ dr,
  dependencies (indexRequests dr reqs) = dependencies dr.
Proof.
  unfold indexRequests. induction reqs as [|req rest IH]; intros dr; [done|].
  simpl. by rewrite IH.
Qed.

(** X12. Among requests with distinct names, graph building on a fresh
    resolver fills its two maps with the same relation: [dependencies]
    lists [child] under [parent] exactly when [dependsOn] maps [child] to
    [parent]. *)
Theorem recordedGraph_maps_agree config dr :
  NoDup (Name <$> Requests config) →
  recordedGraph config = (None, dr) →
  mapsAgree dr.
Proof.
  intros Hnd Hrec. unfold recordedGraph in Hrec.
  apply (buildDependencyMaps_loop_agree _ _ _ Hrec Hnd).
  - intros req _. by rewrite indexRequests_dependsOn.
  - intros child parent. rewrite indexRequests_dependsOn. simpl.
    rewrite indexRequests_dependencies. simpl. rewrite !lookup_empty. simpl.
    split; [by intros ?%elem_of_nil|done].
Qed.

Lemma recordedGraph_maps_agree_witness : mapsAgree (recordedGraph chainConfig).2.
Proof.
  apply (recordedGraph_maps_agree chainConfig).
  - compute_done.
  - vm_compute. reflexivity.
Defined.

(** *** [CalculateExecutionOrder] *)

Lemma NoDup_split_inj (p q p' q' : list string) (x : string) :
  NoDup (p ++ x :: q) → p ++ x :: q = p' ++ x :: q' → p = p' ∧ q = q'.
Proof.
  revert p'. induction p as [|y p IH]; intros [|y' p'] Hnd Heq; simpl in *.
  - by injection Heq as ->.
  - injection Heq as <- ->. apply NoDup_cons in Hnd as [Hx _].
    destruct Hx. apply elem_of_app. right. apply list_elem_of_here.
  - injection Heq as -> <-. apply NoDup_cons in Hnd as [Hx _].
    destruct Hx. apply elem_of_app. right. apply list_elem_of_here.
  - injection Heq as <- Heq. apply NoDup_cons in Hnd as [_ Hnd].
    destruct (IH p' Hnd Heq) as [-> ->]. done.
Qed.

Lemma listedBefore_trans order a b c :
  NoDup order → listedBefore order a b → listedBefore order b c → listedBefore order a c.
Proof.
  intros Hnd (l1 & l2 & l3 & Hab) (m1 & m2 & m3 & Hbc).
  assert ((l1 ++ a :: l2) ++ b :: l3 = m1 ++ b :: (m2 ++ c :: m3)) as Heq.
  { rewrite <- Hbc, Hab. by rewrite <- app_assoc. }
  apply NoDup_split_inj in Heq as [Hm1 Hl3].
  - exists l1, (l2 ++ b :: m2), m3. rewrite Hab, Hl3. by rewrite <- app_assoc.
  - rewrite <- app_assoc. simpl. by rewrite <- Hab.
Qed.

Lemma CalculateExecutionOrder_names dr names order :
  dependenciesExist dr → ¬ hasClosedChain dr → rangeKeys (requests dr) names →
  CalculateExecutionOrder None dr names = (Some order, None) →
  NoDup order ∧ ∀ name, name ∈ order → is_Some (requests dr !! name).
Proof.
  intros Hex Hac Hr Hcalc.
  destruct (visitAll_acyclic dr names (mkVisitState ∅ ∅ [])) as (st & Hall & Hinv & _ & Hin);
    try done.
  { intros name Hn. by apply (rangeKeys_elem _ _ _ Hr). }
  { split; [apply NoDup_nil_2|]. split; [|split].
    - intros x. simpl. set_solver.
    - intros x. simpl. set_solver.
    - intros pre x post p Heq. simpl in Heq. by destruct pre. }
  unfold CalculateExecutionOrder in Hcalc. rewrite Hall in Hcalc. injection Hcalc as <-.
  rewrite reverseStringSlice_reverse. destruct Hinv as (Hnd & Hres & Hrq & _). split.
  - by rewrite reverse_Permutation.
  - intros name Hn. apply Hrq. apply (proj1 (Hres name)). by apply elem_of_reverse.
Qed.

(** X13. In the order that [CalculateExecutionOrder] returns for a graph
    without closed chain, under a live context, every request stands
    before the request it depends on, and so before each of its
    ancestors. *)
Theorem CalculateExecutionOrder_descendants_first dr names order child ancestor :
  dependenciesExist dr → ¬ hasClosedChain dr → rangeKeys (requests dr) names →
  CalculateExecutionOrder None dr names = (Some order, None) →
  tc (parentOf dr) child ancestor →
  listedBefore order child ancestor.
Proof.
  intros Hex Hac Hr Hcalc Htc.
  destruct (CalculateExecutionOrder_names dr names order Hex Hac Hr Hcalc) as [Hnd _].
  induction Htc as [x y Hxy|x y z Hxy Hyz IH].
  - by apply (CalculateExecutionOrder_dependents_first dr names).
  - apply (listedBefore_trans order x y z); [done| |done].
    by apply (CalculateExecutionOrder_dependents_first dr names).
Qed.

Lemma CalculateExecutionOrder_descendants_first_witness :
  listedBefore ["A2"; "A1"; "root"] "A2" "root".
Proof.
  apply (CalculateExecutionOrder_descendants_first chainGraph ["A1"; "A2"; "root"]
           ["A2"; "A1"; "root"] "A2" "root").
  - exact chainGraph_dependenciesExist.
  - exact chainGraph_no_closed_chain.
  - unfold rangeKeys. vm_compute. reflexivity.
  - vm_compute. reflexivity.
  - apply tc_l with "A1"; [vm_compute; reflexivity|].
    apply tc_once. vm_compute. reflexivity.
Defined.

Lemma visit_fuel_sound dr f : ∀ name st r st',
  (∀ v, v ∈ visiting st → tc (parentOf dr) v name) →
  visit_fuel f dr name st = Some (r, st') →
  (is_Some r → hasClosedChain dr) ∧ (r = None → visiting st' = visiting st).
Proof.
  induction f as [|f IH]; intros name st r st' Hvis; simpl; [done|].
  destruct (decide (name ∈ visiting st)) as [Hin|Hnin].
  { intros [= <- <-]. split; [|done]. intros _. exists name. by apply Hvis. }
  destruct (decide (name ∈ visited st)); [intros [= <- <-]; split; [by intros [? ?]|done]|].
  destruct (dependsOn dr !! name) as [dep|] eqn:Hdep.
  - destruct (visit_fuel f dr dep _) as [[e st2]|] eqn:Hrec; [|done].
    apply IH in Hrec as [Herr Hsame].
    2: { simpl. intros v [->%elem_of_singleton|Hv]%elem_of_union.
         - by apply tc_once.
         - eapply tc_r; [by apply Hvis|done]. }
    destruct e as [e|]; intros [= <- <-].
    + split; [|done]. intros _. apply Herr. by eexists.
    + split; [by intros [? ?]|]. intros _. simpl. rewrite Hsame by done. simpl. set_solver.
  - intros [= <- <-]. split; [by intros [? ?]|]. intros _. simpl. set_solver.
Qed.

Lemma visitAll_sound dr names : ∀ st,
  visiting st = ∅ → is_Some (visitAll dr names st).1 → hasClosedChain dr.
Proof.
  induction names as [|n rest IH]; intros st Hempty; cbn [visitAll].
  { by intros [? ?]. }
  pose proof (visit_fuel_total dr (S (size (dom (dependsOn dr) ∖ visiting st))) n st
    ltac:(lia)) as Ht.
  destruct (visit dr n st) as [r st1].
  apply visit_fuel_sound in Ht as [Herr Hsame].
  2: { intros v Hv. rewrite Hempty in Hv. by apply elem_of_empty in Hv. }
  destruct r as [e|]; simpl.
  - intros _. apply Herr. by eexists.
  - apply IH. by rewrite Hsame.
Qed.

(** X14. Under a live context, when every name with a dependency is a
    request, [CalculateExecutionOrder] returns either an order and no
    error, and then the graph has no closed chain, or no order and an
    error that is [ErrCyclicDependency], and then the graph has a closed
    chain. *)
Theorem CalculateExecutionOrder_fails_iff_closed_chain dr names :
  (∀ name, is_Some (dependsOn dr !! name) → is_Some (requests dr !! name)) →
  rangeKeys (requests dr) names →
  match CalculateExecutionOrder None dr names with
  | (Some order, None) => ¬ hasClosedChain dr
  | (None, Some err) => hasClosedChain dr ∧ errors_Is err ErrCyclicDependency = true
  | _ => False
  end.
Proof.
  intros Hnames Hr.
  pose proof (CalculateExecutionOrder_closed_chain dr names) as Hclosed.
  pose proof (visitAll_sound dr names (mkVisitState ∅ ∅ []) eq_refl) as Hsound.
  unfold CalculateExecutionOrder in *.
  destruct (visitAll dr names (mkVisitState ∅ ∅ [])) as [[err|] st].
  - assert (hasClosedChain dr) as Hc by (apply Hsound; by eexists).
    split; [done|]. destruct (Hclosed Hc Hnames Hr) as (e & [= <-] & He). done.
  - intros Hc. by destruct (Hclosed Hc Hnames Hr) as (e & ? & _).
Qed.

Lemma CalculateExecutionOrder_fails_iff_closed_chain_witness :
  match CalculateExecutionOrder None chainGraph ["A1"; "A2"; "root"] with
  | (Some order, None) => ¬ hasClosedChain chainGraph
  | (None, Some err) =>
      hasClosedChain chainGraph ∧ errors_Is err ErrCyclicDependency = true
  | _ => False
  end.
Proof.
  apply (CalculateExecutionOrder_fails_iff_closed_chain chainGraph ["A1"; "A2"; "root"]).
  - intros name [parent Hp]. by destruct (chainGraph_dependenciesExist name parent Hp).
  - unfold rangeKeys. vm_compute. reflexivity.
Defined.

(** X15. [reverseStringSlice] leaves the slice reversed, and reversing
    twice gives the slice back. *)
Theorem reverseStringSlice_involutive (slice : list string) :
  reverseStringSlice slice = reverse slice ∧
  reverseStringSlice (reverseStringSlice slice) = slice.
Proof.
  rewrite !reverseStringSlice_reverse. split; [done|]. apply reverse_involutive.
Qed.

End DependencyMore.

(** ** Further theorems: sequential batch execution *)

Section SequentialMore.

Import engine.

Variables (executor : Executor) (config : Config).

Implicit Types (reqs : list Request) (w : World).

Lemma executeConfigRequest_failure req w err w' :
  executeConfigRequest executor config req w = (inr err, w') →
  requestFailure (collab executor) config req err.
Proof.
  unfold executeConfigRequest, executeHttpRequest.
  destruct (factory_CreateFromConfig _ _ _) as [e|] eqn:Hf.
  - intros [= <- <-]. left. by exists e.
  - destruct (client_Do _ _ _) as [resp|e] eqn:Hd; intros [= <- <-].
    right. by exists (calls w), e.
Qed.

Lemma executeConfigRequest_calls req w :
  let run := executeConfigRequest executor config req w in
  store run.2 = store w ∧ reports run.2 = reports w ∧
  calls run.2 = calls w ++ (if builds (collab executor) config req then [req] else []).
Proof.
  unfold executeConfigRequest, executeHttpRequest, builds.
  destruct (factory_CreateFromConfig _ _ _) as [e|]; simpl.
  - by rewrite app_nil_r.
  - by destruct (client_Do _ _ _).
Qed.

Lemma ExecuteBatchSequential_loop_error reqs : ∀ w err,
  (ExecuteBatchSequential_loop executor config reqs w).1 = Some err →
  IgnoreFail config = false ∧
  ((∃ n, ctx executor n = Some err) ∨
   (resultCollector executor = None ∧
    ∃ req cause, req ∈ reqs ∧ requestFailure (collab executor) config req cause ∧
                 err = Errorf_w "batch request failed" cause)).
Proof.
  induction reqs as [|req rest IH]; intros w err; cbn [ExecuteBatchSequential_loop]; [done|].
  assert (∀ w1, (ExecuteBatchSequential_loop executor config rest w1).1 = Some err →
    IgnoreFail config = false ∧
    ((∃ n, ctx executor n = Some err) ∨
     (resultCollector executor = None ∧
      ∃ r cause, r ∈ req :: rest ∧ requestFailure (collab executor) config r cause ∧
                 err = Errorf_w "batch request failed" cause))) as Hrest.
  { intros w1 [Hif [Hctx|(Hcol & r & cause & Hin & Hf & ->)]]%IH; (split; [done|]).
    - by left.
    - right. split; [done|]. exists r, cause. split; [by apply list_elem_of_further|done]. }
  destruct (ctx executor (now w)) as [ctxErr|] eqn:Hctx.
  { destruct (IgnoreFail config) eqn:Hif; [apply Hrest|].
    intros [= <-]. split; [done|]. left. by exists (now w). }
  destruct (executeConfigRequest executor config req w) as [res w1] eqn:Hreq.
  destruct (resultCollector executor) as [collector|] eqn:Hcol; [apply Hrest|].
  destruct res as [resp|e]; [apply Hrest|].
  destruct (IgnoreFail config) eqn:Hif; [apply Hrest|].
  intros [= <-]. split; [done|]. right. split; [done|].
  exists req, e. split; [apply list_elem_of_here|]. split; [|done].
  by apply (executeConfigRequest_failure req w e w1).
Qed.

(** X16. [ExecuteBatchSequential] returns an error only when [ignoreFail]
    is false, and the error is then either the error of the done context,
    or, with no collector set, [batch request failed] wrapped around the
    failure of one of the requests: the factory's error behind [failed to
    prepare request] or the client's error behind [request execution
    failed]. *)
Theorem ExecuteBatchSequential_error_origin w err :
  (ExecuteBatchSequential executor config w).1 = Some err →
  IgnoreFail config = false ∧
  ((∃ n, ctx executor n = Some err) ∨
   (resultCollector executor = None ∧
    ∃ req cause, req ∈ Requests config ∧
                 requestFailure (collab executor) config req cause ∧
                 err = Errorf_w "batch request failed" cause)).
Proof. apply ExecuteBatchSequential_loop_error. Qed.

Lemma ExecuteBatchSequential_loop_calls reqs : ∀ w,
  let run := ExecuteBatchSequential_loop executor config reqs w in
  store run.2 = store w ∧
  ∃ sent, calls run.2 = calls w ++ sent ∧ sublist sent reqs.
Proof.
  induction reqs as [|req rest IH]; intros w; cbn [ExecuteBatchSequential_loop].
  { simpl. split; [done|]. exists []. by rewrite app_nil_r. }
  assert (∀ w1 front, store w1 = store w → calls w1 = calls w ++ front →
            sublist front [req] →
            let run := ExecuteBatchSequential_loop executor config rest w1 in
            store run.2 = store w ∧
            ∃ sent, calls run.2 = calls w ++ sent ∧ sublist sent (req :: rest)) as Hrest.
  { intros w1 front Hs Hc Hsub. destruct (IH w1) as (Hs1 & sent & Hc1 & Hsub1).
    simpl. split; [congruence|]. exists (front ++ sent).
    split; [by rewrite Hc1, Hc, app_assoc|].
    by apply (sublist_app front [req] sent rest). }
  assert (∀ front, sublist front [req] → ∀ w1 (e : option error), store w1 = store w →
            calls w1 = calls w ++ front →
            store (e, w1).2 = store w ∧
            ∃ sent, calls (e, w1).2 = calls w ++ sent ∧ sublist sent (req :: rest)) as Hstop.
  { intros front Hsub w1 e Hs Hc. simpl. split; [done|]. exists front. split; [done|].
    apply (sublist_app front [req] [] rest) in Hsub; [|apply sublist_nil_l].
    by rewrite app_nil_r in Hsub. }
  destruct (ctx executor (now w)) as [ctxErr|].
  { destruct (IgnoreFail config).
    - apply (Hrest w []); [done|by rewrite app_nil_r|apply sublist_nil_l].
    - apply (Hstop []); [apply sublist_nil_l|done|by rewrite app_nil_r]. }
  pose proof (executeConfigRequest_calls req w) as (Hs & Hr & Hc).
  destruct (executeConfigRequest executor config req w) as [res w1]. simpl in Hs, Hr, Hc.
  assert (sublist (if builds (collab executor) config req then [req] else []) [req]) as Hsub.
  { destruct (builds _ _ _); [done|apply sublist_nil_l]. }
  destruct (resultCollector executor) as [collector|].
  { eapply (Hrest (collect (Some collector) _ w1)); [exact Hs|exact Hc|exact Hsub]. }
  destruct res as [resp|e]; [by apply (Hrest _ _ Hs Hc)|].
  destruct (IgnoreFail config); [by apply (Hrest _ _ Hs Hc)|].
  by apply (Hstop _ Hsub).
Qed.

(** X17. Whatever the outcome, the transport calls that
    [ExecuteBatchSequential] adds are requests of the configuration in the
    order of the configuration, none of them sent twice, and the variable
    store is not touched. *)
Theorem ExecuteBatchSequential_calls_in_order w :
  let run := ExecuteBatchSequential executor config w in
  store run.2 = store w ∧
  ∃ sent, calls run.2 = calls w ++ sent ∧ sublist sent (Requests config).
Proof. apply ExecuteBatchSequential_loop_calls. Qed.

Lemma ExecuteBatchSequential_loop_collector collector reqs :
  resultCollector executor = Some collector → alwaysLive (ctx executor) →
  ∀ w,
  let run := ExecuteBatchSequential_loop executor config reqs w in
  run.1 = None ∧
  calls run.2 = calls w ++ filter (λ req, builds (collab executor) config req = true) reqs ∧
  ∃ reps, reports run.2 = collectAll collector reps (reports w) ∧
          rName <$> reps = Name <$> reqs.
Proof.
  intros Hcol Hlive. induction reqs as [|req rest IH]; intros w.
  { simpl. split; [done|]. split; [by rewrite app_nil_r|]. by exists []. }
  cbn [ExecuteBatchSequential_loop]. rewrite (Hlive (now w)), Hcol.
  pose proof (executeConfigRequest_calls req w) as (Hs & Hr & Hc).
  destruct (executeConfigRequest executor config req w) as [res w1]. simpl in Hs, Hr, Hc.
  match goal with |- context [collect _ ?rep w1] => set (r := rep) end.
  destruct (IH (collect (Some collector) r w1)) as (Hnil & Hcalls & reps & Hreps & Hnames).
  split; [done|]. split.
  - rewrite Hcalls. simpl. rewrite Hc, <- app_assoc. f_equal.
    rewrite filter_cons. by destruct (builds _ _ _).
  - exists (r :: reps). split.
    + rewrite Hreps. simpl. by rewrite Hr.
    + rewrite !fmap_cons. by rewrite Hnames.
Qed.

(** X18. With a collector set and a context that is never done,
    [ExecuteBatchSequential] returns nil whatever the requests do and
    whatever [ignoreFail] says: every request that the factory builds is
    sent, in the order of the configuration, and the collector is called
    once per request, in that order. *)
Theorem ExecuteBatchSequential_with_collector collector w :
  resultCollector executor = Some collector → alwaysLive (ctx executor) →
  let run := ExecuteBatchSequential executor config w in
  run.1 = None ∧
  calls run.2 =
    calls w ++ filter (λ req, builds (collab executor) config req = true) (Requests config) ∧
  ∃ reps, reports run.2 = collectAll collector reps (reports w) ∧
          rName <$> reps = Name <$> Requests config.
Proof. intros Hcol Hlive. by apply ExecuteBatchSequential_loop_collector. Qed.

(** X19. With no collector set and [ignoreFail] false, the first request
    that fails under a live context ends the run of
    [ExecuteBatchSequential]: the run returns [batch request failed]
    wrapped around that failure, and the world is the one that the failed
    request left, so that none of the later requests is sent. *)
Theorem ExecuteBatchSequential_stops_at_first_failure pre req post w w1 w2 err :
  resultCollector executor = None → IgnoreFail config = false →
  Requests config = pre ++ req :: post →
  ExecuteBatchSequential_loop executor config pre w = (None, w1) →
  ctx executor (now w1) = None →
  executeConfigRequest executor config req w1 = (inr err, w2) →
  ExecuteBatchSequential executor config w =
    (Some (Errorf_w "batch request failed" err), w2) ∧
  calls w2 = calls w1 ++ (if builds (collab executor) config req then [req] else []).
Proof.
  intros Hcol Hif Hreqs Hpre Hctx Hreq. split.
  - unfold ExecuteBatchSequential. rewrite Hreqs.
    by apply (ExecuteBatchSequential_stops_at_failure executor config pre req post w w1 w2).
  - pose proof (executeConfigRequest_calls req w1) as (_ & _ & Hc). by rewrite Hreq in Hc.
Qed.

End SequentialMore.

Lemma ExecuteBatchSequential_error_origin_witness :
  IgnoreFail (batchConfig false) = false ∧
  ((∃ n, context_Background n =
           Some (Errorf_w "batch request failed"
                   (Errorf_w "request execution failed" (External "connection refused")))) ∨
   (@None ResultCollector = None ∧
    ∃ req cause, req ∈ Requests (batchConfig false) ∧
                 requestFailure (failingFor "req2") (batchConfig false) req cause ∧
                 Errorf_w "batch request failed"
                   (Errorf_w "request execution failed" (External "connection refused"))
                 = Errorf_w "batch request failed" cause)).
Proof.
  apply (ExecuteBatchSequential_error_origin
    (engine.mkExecutor (failingFor "req2") context_Background None) (batchConfig false)
    newWorld).
  vm_compute. reflexivity.
Defined.

Lemma ExecuteBatchSequential_with_collector_witness :
  let run := engine.ExecuteBatchSequential
    (engine.mkExecutor (failingFor "req2") context_Background (Some appendReport))
    (batchConfig false) newWorld in
  run.1 = None ∧
  calls run.2 =
    calls newWorld ++ filter (λ req, builds (failingFor "req2") (batchConfig false) req = true)
      (Requests (batchConfig false)) ∧
  ∃ reps, reports run.2 = collectAll appendReport reps (reports newWorld) ∧
          rName <$> reps = Name <$> Requests (batchConfig false).
Proof.
  apply (ExecuteBatchSequential_with_collector
    (engine.mkExecutor (failingFor "req2") context_Background (Some appendReport))
    (batchConfig false) appendReport newWorld).
  - reflexivity.
  - intros n. reflexivity.
Defined.

Lemma ExecuteBatchSequential_stops_at_first_failure_witness :
  engine.ExecuteBatchSequential
    (engine.mkExecutor (failingFor "req2") context_Background None) (batchConfig false)
    newWorld =
    (Some (Errorf_w "batch request failed"
             (Errorf_w "request execution failed" (External "connection refused"))),
     mkWorld NewVariableResolver [plainRequest "req1" ""; plainRequest "req2" ""] []) ∧
  calls (mkWorld NewVariableResolver [plainRequest "req1" ""; plainRequest "req2" ""] []) =
    calls (mkWorld NewVariableResolver [plainRequest "req1" ""] []) ++
    (if builds (failingFor "req2") (batchConfig false) (plainRequest "req2" "")
     then [plainRequest "req2" ""] else []).
Proof.
  apply (ExecuteBatchSequential_stops_at_first_failure
    (engine.mkExecutor (failingFor "req2") context_Background None) (batchConfig false)
    [plainRequest "req1" ""] (plainRequest "req2" "") [plainRequest "req3" ""]
    newWorld (mkWorld NewVariableResolver [plainRequest "req1" ""] [])).
  - reflexivity.
  - reflexivity.
  - reflexivity.
  - vm_compute. reflexivity.
  - reflexivity.
  - vm_compute. reflexivity.
Defined.

(** ** Further theorems: the request processor and the chain executor *)

Section ProcessorMore.

Import chain.

Implicit Types (c : Collaborators) (ctx : Ctx) (config : Config) (w : World)
  (req : Request) (r : DefaultVariableResolver).

Lemma Resolve_empty_store input : resolver.Resolve NewVariableResolver input = input.
Proof.
  rewrite Resolve_eq. unfold regexp.ReplaceAllStringFunc.
  rewrite (replaceFrom_ext_in _ _ _ (λ m, m)); [apply replaceFrom_id|].
  intros m _. unfold resolver.resolveVariable. cbv zeta. simpl. by rewrite lookup_empty.
Qed.

Lemma ResolveBody_empty_store body :
  bodyFits body → resolver.ResolveBody NewVariableResolver body = body.
Proof.
  unfold resolver.ResolveBody, bodyFits. destruct body as [b|]; [|done]. intros Hfit.
  case_bool_decide; [done|]. cbv zeta. rewrite Resolve_empty_store.
  replace (_ <? _)%nat with false; [done|]. symmetry. by apply Nat.ltb_ge.
Qed.

(** X20. With an empty variable store and a live context, preparing a
    request whose bodies are nil or at most 10000 bytes long gives the
    request back unchanged, whatever references its path, headers and
    bodies hold. *)
Theorem prepareRequest_without_variables req :
  bodyFits (JsonBody req) → bodyFits (FormBody req) → bodyFits (RawBody req) →
  prepareRequest None NewVariableResolver (Some req) = inl req.
Proof.
  intros Hj Hf Hr. unfold prepareRequest. cbv zeta.
  rewrite Resolve_empty_store.
  assert (resolver.ResolveHeaders NewVariableResolver (Headers req) = Headers req) as ->.
  { unfold resolver.ResolveHeaders. case_bool_decide; [done|].
    induction (Headers req) as [|h hs IH]; [done|]. simpl.
    rewrite Resolve_empty_store. f_equal. destruct hs; [done|]. by apply IH. }
  rewrite !ResolveBody_empty_store by done.
  destruct req as [n m p hs rb fb jb ex d]. simpl.
  by destruct (0 <? length hs)%nat, (isNonEmptyStringPtr jb), (isNonEmptyStringPtr fb),
    (isNonEmptyStringPtr rb).
Qed.

Lemma prepareRequest_without_variables_witness :
  chain.prepareRequest None NewVariableResolver
    (Some (mkRequest "login" "POST" "/users/${id}" ["X-Token: ${token}"] None None
             (Some "{name:${name}}") ∅ "")) =
  inl (mkRequest "login" "POST" "/users/${id}" ["X-Token: ${token}"] None None
         (Some "{name:${name}}") ∅ "").
Proof.
  apply (prepareRequest_without_variables
    (mkRequest "login" "POST" "/users/${id}" ["X-Token: ${token}"] None None
       (Some "{name:${name}}") ∅ "")).
  - simpl. unfold maxVariableValueLength, maxBodySizeMultiplier. lia.
  - simpl. done.
  - simpl. done.
Defined.

Lemma storeVariables_union pairs : ∀ r vars r' vars' (base : gmap string string),
  storeVariables pairs r vars = (None, r', vars') →
  values r = vars ∪ base → values r' = vars' ∪ base.
Proof.
  induction pairs as [|[k v] rest IH]; intros r vars r' vars' base; simpl.
  { by intros [= <- <-]. }
  unfold resolver.Set_. case_bool_decide; [done|].
  intros Hrest Hvals. apply (IH _ _ _ _ base Hrest). simpl.
  by rewrite Hvals, insert_union_l.
Qed.

Lemma storeVariables_error pairs : ∀ r vars err r' vars',
  storeVariables pairs r vars = (Some err, r', vars') →
  errors_Is err ErrEmptyVariableName = true.
Proof.
  induction pairs as [|[k v] rest IH]; intros r vars err r' vars'; simpl; [done|].
  unfold resolver.Set_. case_bool_decide; [by intros [= <- <- <-]|]. apply IH.
Qed.

(** X21. When [ProcessRequest] succeeds it has made exactly one transport
    call, for the prepared request, the status code of the result is that
    of the response, and the variable store holds the variables of the
    result on top of what it held before. *)
Theorem ProcessRequest_success c ctx request config w result w' :
  ProcessRequest c ctx request config w = (inl result, w') →
  ∃ prepared resp,
    prepareRequest None (store w) request = inl prepared ∧
    client_Do c (calls w) prepared = inl resp ∧
    calls w' = calls w ++ [prepared] ∧
    eStatusCode result = StatusCode resp ∧
    values (store w') = eVariables result ∪ values (store w).
Proof.
  unfold ProcessRequest, executeRequest.
  destruct (ctx (now w)) eqn:Hctx; [done|].
  destruct (errAt ctx (now w) 1); [done|].
  destruct (prepareRequest None (store w) request) as [prepared|err]; [|done].
  destruct (errAt ctx (now w) 2); [done|].
  destruct (factory_CreateFromConfig c config prepared); [done|].
  destruct (client_Do c (calls w) prepared) as [resp|err] eqn:Hdo; [|done].
  destruct (0 <? size (Extract prepared))%nat.
  - destruct (extractor.ExtractVariables _ _ _ _) as [vars [err|]]; [done|].
    destruct (storeVariables _ _ _) as [[[err|] r'] variables] eqn:Hstore; [done|].
    intros [= <- <-]. exists prepared, resp. simpl. do 4 (split; [done|]).
    apply (storeVariables_union _ _ _ _ _ _ Hstore). simpl. by rewrite (left_id_L ∅ (∪)).
  - intros [= <- <-]. exists prepared, resp. simpl. do 4 (split; [done|]).
    by rewrite (left_id_L ∅ (∪)).
Qed.

Lemma ProcessRequest_success_witness :
  ∃ prepared resp,
    chain.prepareRequest None (store newWorld) (Some (plainRequest "root" "")) = inl prepared ∧
    client_Do (failingFor "") (calls newWorld) prepared = inl resp ∧
    calls (mkWorld NewVariableResolver [plainRequest "root" ""] []) =
      calls newWorld ++ [prepared] ∧
    eStatusCode (mkExecutionResult 200 ∅) = StatusCode resp ∧
    values (store (mkWorld NewVariableResolver [plainRequest "root" ""] [])) =
      eVariables (mkExecutionResult 200 ∅) ∪ values (store newWorld).
Proof.
  apply (ProcessRequest_success (failingFor "") context_Background
    (Some (plainRequest "root" "")) (batchConfig false) newWorld).
  vm_compute. reflexivity.
Defined.

(** X22. A failure of [ProcessRequest] for a request is one of seven.
    With the world as it was: the error of the context, bare, when the
    context is found done at the select of [ProcessRequest] itself or at
    that of [executeRequest]; [failed to prepare request] wrapped around
    the error of the context, when it is found done at the select of
    [prepareRequest]; or [ErrCreateRequest]. After one transport call:
    [ErrRequestExecution] or [ErrVariableExtraction], with the variable
    store as it was, or [ErrEmptyVariableName]. The error of the factory,
    of the client or of the extractor is not part of the error returned. *)
Theorem ProcessRequest_failure c ctx req config w err w' :
  ProcessRequest c ctx (Some req) config w = (inr err, w') →
  (ctx (now w) = Some err ∧ w' = w) ∨
  (∃ cause, errAt ctx (now w) 1 = Some cause ∧
            err = Errorf_w "failed to prepare request" cause ∧ w' = w) ∨
  (errAt ctx (now w) 2 = Some err ∧ w' = w) ∨
  (err = Errorf_w "failed to create request" (Sentinel ErrCreateRequest) ∧ w' = w) ∨
  (err = Errorf_w "request execution failed" (Sentinel ErrRequestExecution) ∧
   store w' = store w ∧ length (calls w') = S (length (calls w))) ∨
  (err = Errorf_w "failed to extract variables" (Sentinel ErrVariableExtraction) ∧
   store w' = store w ∧ length (calls w') = S (length (calls w))) ∨
  (errors_Is err ErrEmptyVariableName = true ∧
   length (calls w') = S (length (calls w))).
Proof.
  unfold ProcessRequest, executeRequest.
  destruct (ctx (now w)) as [e|] eqn:Hctx.
  { intros [= <- <-]. by left. }
  destruct (errAt ctx (now w) 1) as [e|] eqn:Hprepare.
  { intros [= <- <-]. right. left. by exists e. }
  destruct (prepareRequest None (store w) (Some req)) as [prepared|e] eqn:Hprep.
  2: { unfold prepareRequest in Hprep. cbv zeta in Hprep. done. }
  destruct (errAt ctx (now w) 2) as [e|] eqn:Hexecute.
  { intros [= <- <-]. right. right. by left. }
  destruct (factory_CreateFromConfig c config prepared).
  { intros [= <- <-]. do 3 right. by left. }
  destruct (client_Do c (calls w) prepared) as [resp|e].
  2: { intros [= <- <-]. do 4 right. left. simpl. rewrite length_app. simpl.
       split; [done|]. split; [done|lia]. }
  destruct (0 <? size (Extract prepared))%nat; [|done].
  destruct (extractor.ExtractVariables _ _ _ _) as [vars [e|]].
  { intros [= <- <-]. do 5 right. left. simpl. rewrite length_app. simpl.
    split; [done|]. split; [done|lia]. }
  destruct (storeVariables _ _ _) as [[[e|] r'] variables] eqn:Hstore; [|done].
  intros [= <- <-]. do 6 right. simpl. rewrite length_app. simpl.
  split; [by apply storeVariables_error in Hstore|lia].
Qed.

Lemma ProcessRequest_failure_witness :
  (deadlineBefore 1 (now newWorld) =
     Some (Errorf_w "failed to prepare request" (Sentinel context_DeadlineExceeded)) ∧
   newWorld = newWorld) ∨
  (∃ cause, errAt (deadlineBefore 1) (now newWorld) 1 = Some cause ∧
            Errorf_w "failed to prepare request" (Sentinel context_DeadlineExceeded)
              = Errorf_w "failed to prepare request" cause ∧ newWorld = newWorld) ∨
  (errAt (deadlineBefore 1) (now newWorld) 2 =
     Some (Errorf_w "failed to prepare request" (Sentinel context_DeadlineExceeded)) ∧
   newWorld = newWorld) ∨
  (Errorf_w "failed to prepare request" (Sentinel context_DeadlineExceeded)
     = Errorf_w "failed to create request" (Sentinel ErrCreateRequest) ∧
   newWorld = newWorld) ∨
  (Errorf_w "failed to prepare request" (Sentinel context_DeadlineExceeded)
     = Errorf_w "request execution failed" (Sentinel ErrRequestExecution) ∧
   store newWorld = store newWorld ∧
   length (calls newWorld) = S (length (calls newWorld))) ∨
  (Errorf_w "failed to prepare request" (Sentinel context_DeadlineExceeded)
     = Errorf_w "failed to extract variables" (Sentinel ErrVariableExtraction) ∧
   store newWorld = store newWorld ∧
   length (calls newWorld) = S (length (calls newWorld))) ∨
  (errors_Is (Errorf_w "failed to prepare request" (Sentinel context_DeadlineExceeded))
     ErrEmptyVariableName = true ∧
   length (calls newWorld) = S (length (calls newWorld))).
Proof.
  apply (ProcessRequest_failure (failingFor "") (deadlineBefore 1) (plainRequest "req1" "")
    (batchConfig false) newWorld).
  vm_compute. reflexivity.
Defined.

(** The context found done at each of the three selects in turn, and,
    behind a deadline that passes later, the failure of the transport. *)
Example ProcessRequest_failures_occur :
  ProcessRequest (failingFor "") (deadlineBefore 0) (Some (plainRequest "req1" ""))
    (batchConfig false) newWorld
    = (inr (Sentinel context_DeadlineExceeded), newWorld) ∧
  ProcessRequest (failingFor "") (deadlineBefore 1) (Some (plainRequest "req1" ""))
    (batchConfig false) newWorld
    = (inr (Errorf_w "failed to prepare request" (Sentinel context_DeadlineExceeded)),
       newWorld) ∧
  ProcessRequest (failingFor "") (deadlineBefore 2) (Some (plainRequest "req1" ""))
    (batchConfig false) newWorld
    = (inr (Sentinel context_DeadlineExceeded), newWorld) ∧
  ProcessRequest (failingFor "req1") (deadlineBefore 3) (Some (plainRequest "req1" ""))
    (batchConfig false) newWorld
    = (inr (Errorf_w "request execution failed" (Sentinel ErrRequestExecution)),
       mkWorld NewVariableResolver [plainRequest "req1" ""] []).
Proof. vm_compute. done. Qed.

End ProcessorMore.

Section ExecutorMore.

Import chain.

Implicit Types (c : Collaborators) (ctx : Ctx) (config : Config) (w : World)
  (executor : ChainExecutor) (order : list string) (requestMap : gmap string Request).

(** X23. The chain executor sends the same requests, leaves the same
    variable store and returns the same outcome under any two collectors,
    set or not. *)
Theorem Execute_collectors_agree c (collector1 collector2 : option ResultCollector)
    ctx config names1 names2 w :
  let run1 := Execute (mkChainExecutor c collector1) ctx config names1 names2 w in
  let run2 := Execute (mkChainExecutor c collector2) ctx config names1 names2 w in
  run1.1 = run2.1 ∧ sameRun run1.2 run2.2.
Proof.
  destruct (Execute_collector_independent c collector1 ctx config names1 names2 w)
    as (Ho1 & Hs1 & Hc1).
  destruct (Execute_collector_independent c collector2 ctx config names1 names2 w)
    as (Ho2 & Hs2 & Hc2).
  cbv zeta in *. split; [congruence|]. split; congruence.
Qed.







End ExecutorMore.

(** ** Further theorems: the worker pool *)

Section PoolMore.

Import pool.

Variables (executor : engine.Executor) (config : Config).

Implicit Types (s : Pool) (a : action) (sched : list action) (ws : list workerState)
  (sent base : list Request).

Lemma inFlight_insert ws i old new :
  ws !! i = Some old →
  inFlight (<[i := new]> ws) ++ flightOf old ≡ₚ inFlight ws ++ flightOf new.
Proof.
  revert i. induction ws as [|x ws IH]; intros [|i] Hi; simplify_eq/=.
  - solve_Permutation.
  - specialize (IH i Hi). rewrite <- !app_assoc. by rewrite IH.
Qed.

Lemma inFlight_length ws : length (inFlight ws) ≤ length ws.
Proof.
  induction ws as [|x ws IH]; simpl; [done|]. rewrite length_app.
  destruct x; simpl; lia.
Qed.

Lemma inFlight_exited ws : forallb isExited ws = true → inFlight ws = [].
Proof.
  induction ws as [|x ws IH]; simpl; [done|].
  intros [Hx Hws]%andb_true_iff. rewrite IH by done. by destruct x.
Qed.

Lemma inFlight_idle n : inFlight (replicate n Idle) = [].
Proof. induction n as [|n IH]; [done|]. simpl. by rewrite IH. Qed.

Lemma step_workers_length a s s' :
  step executor config a s = Some s' → length (workers s') = length (workers s).
Proof.
  unfold step. destruct a as [| |i|i|i|c].
  - destruct (main s) as [[|req rest]| |]; by intros [= <-].
  - destruct (main s) as [pending| |]; try done. destruct (_ || _); by intros [= <-].
  - destruct (workers s !! i) as [[| |]|]; try done.
    destruct (jobs s) as [|req rest]; intros [= <-]; simpl. by rewrite length_insert.
  - destruct (workers s !! i) as [[|req|]|]; try done.
    destruct (engine.executeConfigRequest _ _ _ _) as [res w]. intros [= <-]; simpl.
    by rewrite length_insert.
  - destruct (workers s !! i) as [[| |]|]; try done.
    destruct (_ || _); intros [= <-]; simpl. by rewrite length_insert.
  - destruct (main s); try done. destruct (forallb _ _); [|done].
    destruct c.
    + destruct (ctxErr executor s); by intros [= <-].
    + destruct (errCh s); by intros [= <-].
    + destruct (ctxErr executor s); [done|]. destruct (errCh s); by intros [= <-].
Qed.

Lemma run_workers_length sched : ∀ s s',
  run executor config sched s = Some s' → length (workers s') = length (workers s).
Proof.
  induction sched as [|a rest IH]; intros s s'; simpl; [by intros [= <-]|].
  destruct (step executor config a s) as [s1|] eqn:Hstep; [|done].
  intros Hrun%IH. apply step_workers_length in Hstep. congruence.
Qed.

Lemma step_accounted base a s s' sent :
  step executor config a s = Some s' →
  calls (world s) = base ++ sent →
  ∃ sent', calls (world s') = base ++ sent' ∧
    store (world s') = store (world s) ∧
    accounted s' sent' ⊆+ accounted s sent ∧
    (alwaysLive (engine.ctx executor) →
     (∀ req, builds (engine.collab executor) config req = true) →
     accounted s' sent' ≡ₚ accounted s sent).
Proof.
  intros Hstep Hcalls. unfold step in Hstep. unfold accounted.
  destruct a as [| |i|i|i|c].
  - destruct (main s) as [[|req rest]| |] eqn:Hmain; simplify_eq/=.
    exists sent. split; [done|]. split; [done|].
    assert (sent ++ inFlight (workers s) ++ (jobs s ++ [req]) ++ rest ≡ₚ
            sent ++ inFlight (workers s) ++ jobs s ++ req :: rest) as Hperm
      by solve_Permutation.
    split; [by rewrite Hperm|done].
  - destruct (main s) as [pending| |] eqn:Hmain; try done.
    destruct (_ || _) eqn:Hcond; simplify_eq/=.
    exists sent. split; [done|]. split; [done|]. split; [solve_submseteq|].
    intros Hlive _. unfold ctxErr in Hcond. rewrite (Hlive _) in Hcond.
    apply orb_true_iff in Hcond as [Hp|Hp]; apply bool_decide_eq_true in Hp.
    + by subst pending.
    + by destruct Hp.
  - destruct (workers s !! i) as [[| |]|] eqn:Hi; try done.
    destruct (jobs s) as [|req rest] eqn:Hj; simplify_eq/=.
    exists sent. split; [done|]. split; [done|].
    pose proof (inFlight_insert _ _ _ (Busy req) Hi) as Hins. simpl in Hins.
    rewrite app_nil_r in Hins.
    assert (sent ++ inFlight (<[i:=Busy req]> (workers s)) ++ rest ++ pendingOf (main s) ≡ₚ
            sent ++ inFlight (workers s) ++ req :: rest ++ pendingOf (main s)) as Hperm.
    { rewrite Hins. solve_Permutation. }
    split; [by rewrite Hperm|done].
  - destruct (workers s !! i) as [[|req|]|] eqn:Hi; try done.
    pose proof (executeConfigRequest_calls executor config req (world s)) as (Hs & _ & Hc).
    destruct (engine.executeConfigRequest _ _ _ _) as [res w1]. simpl in Hs, Hc.
    simplify_eq/=.
    pose proof (inFlight_insert _ _ _ Idle Hi) as Hins. simpl in Hins.
    rewrite app_nil_r in Hins.
    exists (sent ++ if builds (engine.collab executor) config req then [req] else []).
    split; [|split; [|split]].
    + rewrite app_assoc, <- Hcalls, <- Hc. by destruct (engine.resultCollector executor).
    + rewrite <- Hs. by destruct (engine.resultCollector executor).
    + rewrite <- Hins. destruct (builds _ _ _); solve_submseteq.
    + intros _ Hbuilds. rewrite <- Hins, Hbuilds. solve_Permutation.
  - destruct (workers s !! i) as [[| |]|] eqn:Hi; try done.
    destruct (_ || _); simplify_eq/=.
    exists sent. split; [done|]. split; [done|].
    pose proof (inFlight_insert _ _ _ Exited Hi) as Hins. simpl in Hins.
    rewrite !app_nil_r in Hins. rewrite Hins. done.
  - destruct (main s) eqn:Hmain; try done. destruct (forallb _ _); [|done].
    exists sent. destruct c.
    + destruct (ctxErr executor s); simplify_eq/=. done.
    + destruct (errCh s); simplify_eq/=. done.
    + destruct (ctxErr executor s); [done|]. destruct (errCh s); simplify_eq/=. done.
Qed.

Lemma run_accounted base sched : ∀ s s' sent,
  run executor config sched s = Some s' →
  calls (world s) = base ++ sent →
  ∃ sent', calls (world s') = base ++ sent' ∧
    store (world s') = store (world s) ∧
    accounted s' sent' ⊆+ accounted s sent ∧
    (alwaysLive (engine.ctx executor) →
     (∀ req, builds (engine.collab executor) config req = true) →
     accounted s' sent' ≡ₚ accounted s sent).
Proof.
  induction sched as [|a rest IH]; intros s s' sent; simpl.
  { intros [= <-] Hc. by exists sent. }
  destruct (step executor config a s) as [s1|] eqn:Hstep; [|done].
  intros Hrun Hc.
  destruct (step_accounted base a s s1 sent Hstep Hc) as (sent1 & Hc1 & Hs1 & Hsub1 & Hperm1).
  destruct (IH s1 s' sent1 Hrun Hc1) as (sent' & Hc' & Hs' & Hsub' & Hperm').
  exists sent'. split; [done|]. split; [congruence|]. split.
  - by etrans.
  - intros Hlive Hbuilds. by rewrite Hperm', Hperm1.
Qed.

Lemma accounted_start w :
  accounted (start executor config w) [] = Requests config.
Proof.
  unfold accounted, start. simpl. by rewrite inFlight_idle.
Qed.

(** X25. Under every interleaving of the caller and the workers, in every
    state that a run of [ExecuteBatchConcurrent] reaches, the transport
    calls added so far are requests of the configuration, none of them
    sent more often than the configuration lists it, and the variable
    store is as it was. *)
Theorem ExecuteBatchConcurrent_sends_at_most_once w sched s :
  run executor config sched (start executor config w) = Some s →
  ∃ sent, calls (world s) = calls w ++ sent ∧
          store (world s) = store w ∧
          sent ⊆+ Requests config.
Proof.
  intros Hrun.
  destruct (run_accounted (calls w) sched _ s [] Hrun) as (sent & Hc & Hs & Hsub & _).
  { simpl. by rewrite app_nil_r. }
  exists sent. split; [done|]. split; [done|].
  rewrite accounted_start in Hsub. etrans; [|exact Hsub].
  unfold accounted. solve_submseteq.
Qed.

(** X26. In every state that a run of [ExecuteBatchConcurrent] reaches, at
    most [DefaultMaxWorkers] requests are in flight, and never more than
    there are requests. *)
Theorem ExecuteBatchConcurrent_in_flight_bounded w sched s :
  run executor config sched (start executor config w) = Some s →
  length (inFlight (workers s)) ≤ engine.DefaultMaxWorkers ∧
  length (inFlight (workers s)) ≤ length (Requests config).
Proof.
  intros Hrun%run_workers_length. pose proof (inFlight_length (workers s)) as Hle.
  rewrite Hrun in Hle. simpl in Hle. rewrite length_replicate in Hle.
  destruct (_ <? _)%nat eqn:Hlt.
  - apply Nat.ltb_lt in Hlt. lia.
  - apply Nat.ltb_ge in Hlt. lia.
Qed.

Section Live.

Hypothesis Hlive : alwaysLive (engine.ctx executor).

Lemma step_drained a s s' :
  drained s → step executor config a s = Some s' → drained s'.
Proof.
  intros Hd Hstep. unfold step in Hstep. unfold drained in *.
  destruct a as [| |i|i|i|c].
  - destruct (main s) as [[|req rest]| |] eqn:Hmain; simplify_eq/=.
    intros Hex. destruct (Hd Hex) as [Hcl _]. unfold closed in Hcl. by rewrite Hmain in Hcl.
  - destruct (main s) as [pending| |] eqn:Hmain; try done.
    destruct (_ || _); simplify_eq/=.
    intros Hex. destruct (Hd Hex) as [Hcl _]. unfold closed in Hcl. by rewrite Hmain in Hcl.
  - destruct (workers s !! i) as [[| |]|] eqn:Hi; try done.
    destruct (jobs s) as [|req rest] eqn:Hj; simplify_eq/=.
    intros [j Hj']. destruct (decide (i = j)) as [->|Hne].
    + rewrite list_lookup_insert_eq in Hj' by (by eapply lookup_lt_Some). done.
    + rewrite list_lookup_insert_ne in Hj' by done.
      destruct Hd as [_ Hjobs]; [by exists j|]. congruence.
  - destruct (workers s !! i) as [[|req|]|] eqn:Hi; try done.
    destruct (engine.executeConfigRequest _ _ _ _) as [res w]. simplify_eq/=.
    intros [j Hj']. destruct (decide (i = j)) as [->|Hne].
    + rewrite list_lookup_insert_eq in Hj' by (by eapply lookup_lt_Some). done.
    + rewrite list_lookup_insert_ne in Hj' by done. apply Hd. by exists j.
  - destruct (workers s !! i) as [[| |]|] eqn:Hi; try done.
    destruct (_ || _) eqn:Hcond; simplify_eq/=. intros _.
    unfold ctxErr in Hcond. rewrite (Hlive _) in Hcond. simpl in Hcond.
    apply andb_true_iff in Hcond as [Hcl Hj]. apply bool_decide_eq_true in Hj.
    split; [|done]. unfold closed in *. simpl. done.
  - destruct (main s) eqn:Hmain; try done. destruct (forallb _ _); [|done].
    assert (closed s = true) as Hcl by (unfold closed; by rewrite Hmain).
    destruct c.
    + destruct (ctxErr executor s); simplify_eq/=. intros Hex. by destruct (Hd Hex).
    + destruct (errCh s); simplify_eq/=. intros Hex. by destruct (Hd Hex).
    + destruct (ctxErr executor s); [done|]. destruct (errCh s); simplify_eq/=.
      intros Hex. by destruct (Hd Hex).
Qed.

Lemma run_drained sched : ∀ s s',
  drained s → run executor config sched s = Some s' → drained s'.
Proof.
  induction sched as [|a rest IH]; intros s s' Hd; simpl; [by intros [= <-]|].
  destruct (step executor config a s) as [s1|] eqn:Hstep; [|done].
  apply IH. by apply step_drained with a s.
Qed.

Lemma start_drained w : drained (start executor config w).
Proof.
  intros [i Hi]. simpl in Hi. apply lookup_replicate in Hi as [? _]. done.
Qed.

(** Once every worker has returned, nothing is in flight or queued. *)
Lemma all_exited_accounted w sched s sent :
  run executor config sched (start executor config w) = Some s →
  closed s = true → forallb isExited (workers s) = true →
  accounted s sent ≡ₚ Requests config → sent ≡ₚ Requests config.
Proof.
  intros Hrun Hcl Hall Hacc.
  pose proof (run_drained sched _ s (start_drained w) Hrun) as Hd.
  pose proof (run_workers_length sched _ s Hrun) as Hlen.
  unfold accounted in Hacc. rewrite (inFlight_exited _ Hall) in Hacc.
  assert (pendingOf (main s) = []) as Hp.
  { unfold closed in Hcl. by destruct (main s). }
  rewrite Hp in Hacc. simpl in Hacc. rewrite app_nil_r in Hacc.
  destruct (workers s) as [|x ws] eqn:Hws.
  - simpl in Hlen. rewrite length_replicate in Hlen.
    assert (Requests config = []) as Hnone.
    { destruct (Requests config); [done|]. simpl in Hlen.
      destruct (_ <? _)%nat; simpl in Hlen; unfold engine.DefaultMaxWorkers in *; lia. }
    rewrite Hnone in *. apply Permutation_nil_r in Hacc.
    apply app_eq_nil in Hacc as [-> _]. done.
  - destruct Hd as [_ Hj].
    { exists 0. rewrite Hws. simpl. f_equal. simpl in Hall.
      apply andb_true_iff in Hall as [Hx _]. by destruct x. }
    rewrite Hj, app_nil_r in Hacc. done.
Qed.

(** X27. Under a context that is never done and with a factory that builds
    every request, a run of [ExecuteBatchConcurrent] that has returned has
    made exactly one transport call per request of the configuration,
    under every interleaving of the caller and the workers. *)
Theorem ExecuteBatchConcurrent_sends_each_once w sched s err :
  (∀ req, builds (engine.collab executor) config req = true) →
  run executor config sched (start executor config w) = Some s →
  main s = Finished err →
  ∃ sent, calls (world s) = calls w ++ sent ∧ sent ≡ₚ Requests config.
Proof.
  intros Hbuilds Hrun Hfin.
  destruct (run_accounted (calls w) sched _ s [] Hrun) as (sent & Hc & _ & _ & Hperm).
  { simpl. by rewrite app_nil_r. }
  exists sent. split; [done|].
  apply (all_exited_accounted w sched s sent Hrun).
  - unfold closed. by rewrite Hfin.
  - pose proof (run_settled executor config sched _ _ (start_settled executor config w) Hrun)
      as Hs. by destruct (Hs err Hfin).
  - rewrite Hperm by done. by rewrite accounted_start.
Qed.

Hypothesis Hstrict : IgnoreFail config = false.

Lemma executeConfigRequest_alwaysFails req w :
  alwaysFails (engine.collab executor) req →
  ∃ err, (engine.executeConfigRequest executor config req w).1 = inr err.
Proof.
  intros Hfails. unfold engine.executeConfigRequest, engine.executeHttpRequest.
  destruct (factory_CreateFromConfig _ _ _); [by eexists|].
  destruct (Hfails (calls w)) as [err ->]. by eexists.
Qed.

Lemma step_failureKept base a s s' :
  settled executor config s →
  (∃ sent, calls (world s) = base ++ sent) →
  failureKept (engine.collab executor) s (drop (length base) (calls (world s))) →
  step executor config a s = Some s' →
  failureKept (engine.collab executor) s' (drop (length base) (calls (world s'))).
Proof.
  intros Hset [sent Hsent] [Hform Hkept] Hstep. unfold step in Hstep.
  destruct a as [| |i|i|i|c].
  - destruct (main s) as [[|r rest]| |] eqn:Hmain; simplify_eq/=.
    split; [done|]. intros req Hin Hf. simpl. specialize (Hkept req Hin Hf).
    rewrite ?Hmain in Hkept. done.
  - destruct (main s) as [pending| |] eqn:Hmain; try done.
    destruct (_ || _); simplify_eq/=.
    split; [done|]. intros req Hin Hf. simpl. specialize (Hkept req Hin Hf).
    rewrite ?Hmain in Hkept. done.
  - destruct (workers s !! i) as [[| |]|] eqn:Hi; try done.
    destruct (jobs s) as [|r rest]; simplify_eq/=. done.
  - destruct (workers s !! i) as [[|r|]|] eqn:Hi; try done.
    assert (∀ res, main s ≠ Finished res) as Hrunning.
    { intros res Hfin. destruct (Hset res Hfin) as [Hall _].
      by pose proof (all_exited_lookup _ _ _ Hall Hi). }
    pose proof (executeConfigRequest_calls executor config r (world s)) as (_ & _ & Hc).
    pose proof (executeConfigRequest_alwaysFails r (world s)) as Hfail.
    destruct (engine.executeConfigRequest _ _ _ _) as [res w1]. simpl in Hc, Hfail.
    simplify_eq/=.
    match goal with
    | |- failureKept _ _ (drop _ (calls ?W)) =>
        assert (calls W = calls w1) as Hcol
          by (by destruct (engine.resultCollector executor))
    end.
    rewrite Hcol, Hc, Hsent. unfold failureKept. simpl. rewrite Hstrict. simpl.
    rewrite <- app_assoc, drop_app_length. rewrite Hsent, drop_app_length in Hkept.
    split.
    + intros err. destruct res as [resp|e]; [apply Hform|].
      destruct (errCh s) as [first|] eqn:Hch; [apply Hform|].
      simpl. intros [= <-]. by eexists.
    + intros req [Hin|Hin]%elem_of_app Hf.
      * specialize (Hkept req Hin Hf).
        destruct (main s) eqn:Hmain; rewrite ?Hmain in Hkept; [| |done].
        -- destruct Hkept as [kept Hfirst]. rewrite Hfirst. by destruct res.
        -- destruct Hkept as [kept Hfirst]. rewrite Hfirst. by destruct res.
      * destruct (builds _ _ _); [|by apply elem_of_nil in Hin].
        apply list_elem_of_singleton in Hin as ->.
        destruct (Hfail Hf) as [e ->].
        destruct (main s) eqn:Hmain; [by destruct (errCh s)..|].
        by destruct (Hrunning err).
  - destruct (workers s !! i) as [[| |]|] eqn:Hi; try done.
    destruct (_ || _); simplify_eq/=. done.
  - destruct (main s) eqn:Hmain; try done. destruct (forallb _ _); [|done].
    destruct c.
    + unfold ctxErr in Hstep. by rewrite (Hlive _) in Hstep.
    + destruct (errCh s) as [e|] eqn:Hch; simplify_eq/=. rewrite Hstrict. simpl.
      split; [done|]. intros req Hin Hf. exists e. split; [done|]. by apply Hform.
    + destruct (ctxErr executor s); [done|].
      destruct (errCh s) as [e|] eqn:Hch; simplify_eq/=.
      split; [intros err Herr; simpl in Herr; congruence|].
      intros req Hin Hf. specialize (Hkept req Hin Hf).
      rewrite ?Hmain, ?Hch in Hkept. by destruct Hkept.
Qed.

Lemma run_failureKept base sched : ∀ s s',
  settled executor config s →
  (∃ sent, calls (world s) = base ++ sent) →
  failureKept (engine.collab executor) s (drop (length base) (calls (world s))) →
  run executor config sched s = Some s' →
  failureKept (engine.collab executor) s' (drop (length base) (calls (world s'))).
Proof.
  induction sched as [|a rest IH]; intros s s' Hset Hsent Hkept; simpl.
  { by intros [= <-]. }
  destruct (step executor config a s) as [s1|] eqn:Hstep; [|done].
  apply IH.
  - by apply step_settled with a s.
  - destruct Hsent as [sent Hsent].
    destruct (step_accounted base a s s1 sent Hstep Hsent) as (sent1 & Hc1 & _).
    by exists sent1.
  - by apply step_failureKept with a s.
Qed.

(** X28. With [ignoreFail] false, under a context that is never done and
    with a factory that builds every request: if the transport fails for
    one of the requests of the configuration whenever it is called, then
    every run of [ExecuteBatchConcurrent] that returns, returns an error,
    [batch request failed] wrapped around the failure of a request, whether
    or not a collector is set and under every interleaving. *)
Theorem ExecuteBatchConcurrent_failure_returned w sched s res req :
  (∀ req, builds (engine.collab executor) config req = true) →
  req ∈ Requests config →
  alwaysFails (engine.collab executor) req →
  run executor config sched (start executor config w) = Some s →
  main s = Finished res →
  ∃ err, res = Some err ∧ batchFailure err.
Proof.
  intros Hbuilds Hin Hfails Hrun Hfin.
  destruct (run_accounted (calls w) sched _ s [] Hrun) as (sent & Hc & _ & _ & Hperm).
  { simpl. by rewrite app_nil_r. }
  assert (sent ≡ₚ Requests config) as Hsent.
  { apply (all_exited_accounted w sched s sent Hrun).
    - unfold closed. by rewrite Hfin.
    - pose proof (run_settled executor config sched _ _ (start_settled executor config w)
        Hrun) as Hs. by destruct (Hs res Hfin).
    - rewrite Hperm by done. by rewrite accounted_start. }
  pose proof (run_failureKept (calls w) sched _ s (start_settled executor config w)) as Hkept.
  destruct Hkept as [_ Hkept]; [..|exact Hrun|].
  { exists []. simpl. by rewrite app_nil_r. }
  { split; [done|]. simpl. rewrite drop_all. by intros r ?%elem_of_nil. }
  specialize (Hkept req). rewrite Hc, drop_app_length, Hfin in Hkept.
  apply Hkept; [|done]. by rewrite Hsent.
Qed.

End Live.

End PoolMore.

Lemma ExecuteBatchConcurrent_sends_at_most_once_witness :
  ∃ s,
    pool.run (engine.mkExecutor failingAll context_Background (Some appendReport))
      (batchConfig true) overlappingSchedule
      (pool.start (engine.mkExecutor failingAll context_Background (Some appendReport))
         (batchConfig true) newWorld) = Some s ∧
    ∃ sent, calls (pool.world s) = calls newWorld ++ sent ∧
            store (pool.world s) = store newWorld ∧
            sent ⊆+ Requests (batchConfig true).
Proof.
  eexists. split; [vm_compute; reflexivity|].
  apply (ExecuteBatchConcurrent_sends_at_most_once
    (engine.mkExecutor failingAll context_Background (Some appendReport))
    (batchConfig true) newWorld overlappingSchedule).
  vm_compute. reflexivity.
Defined.

Lemma ExecuteBatchConcurrent_in_flight_bounded_witness :
  ∃ s,
    pool.run (engine.mkExecutor failingAll context_Background (Some appendReport))
      (batchConfig true) (take 4 overlappingSchedule)
      (pool.start (engine.mkExecutor failingAll context_Background (Some appendReport))
         (batchConfig true) newWorld) = Some s ∧
    length (inFlight (pool.workers s)) ≤ engine.DefaultMaxWorkers ∧
    length (inFlight (pool.workers s)) ≤ length (Requests (batchConfig true)).
Proof.
  eexists. split; [vm_compute; reflexivity|].
  apply (ExecuteBatchConcurrent_in_flight_bounded
    (engine.mkExecutor failingAll context_Background (Some appendReport))
    (batchConfig true) newWorld (take 4 overlappingSchedule)).
  vm_compute. reflexivity.
Defined.

Lemma ExecuteBatchConcurrent_sends_each_once_witness :
  ∃ s,
    pool.run (engine.mkExecutor failingAll context_Background (Some appendReport))
      (batchConfig true) overlappingSchedule
      (pool.start (engine.mkExecutor failingAll context_Background (Some appendReport))
         (batchConfig true) newWorld) = Some s ∧
    ∃ sent, calls (pool.world s) = calls newWorld ++ sent ∧
            sent ≡ₚ Requests (batchConfig true).
Proof.
  eexists. split; [vm_compute; reflexivity|].
  eapply (ExecuteBatchConcurrent_sends_each_once
    (engine.mkExecutor failingAll context_Background (Some appendReport))
    (batchConfig true) (λ _, eq_refl) newWorld overlappingSchedule _ None).
  - intros req. reflexivity.
  - vm_compute. reflexivity.
  - reflexivity.
Defined.

Lemma ExecuteBatchConcurrent_failure_returned_witness :
  ∃ s res,
    pool.run (engine.mkExecutor failingAll context_Background (Some appendReport))
      (batchConfig false) (removelast overlappingSchedule ++ [pool.Return pool.CaseErrCh])
      (pool.start (engine.mkExecutor failingAll context_Background (Some appendReport))
         (batchConfig false) newWorld) = Some s ∧
    pool.main s = pool.Finished res ∧
    ∃ err, res = Some err ∧ batchFailure err.
Proof.
  eexists _, _. split; [vm_compute; reflexivity|]. split; [reflexivity|].
  eapply (ExecuteBatchConcurrent_failure_returned
    (engine.mkExecutor failingAll context_Background (Some appendReport))
    (batchConfig false) (λ _, eq_refl) eq_refl newWorld
    (removelast overlappingSchedule ++ [pool.Return pool.CaseErrCh]) _ _
    (plainRequest "req1" "")).
  - intros req. reflexivity.
  - apply list_elem_of_here.
  - intros cs. eexists. reflexivity.
  - vm_compute. reflexivity.
  - reflexivity.
Defined.
